(** * A local CORS / event-stream relay: model and verified properties

  The repository ships two small Node.js servers.

  - [server.js] (module [Poll] below): the poll-to-stream synthesizer.  It
    polls a remote URL, extracts numbers from the answer with a regular
    expression and republishes them as event-stream frames on [/sse].
  - the relay server (module [Relay] below): [/proxy] forwards one upstream
    response with filtered headers, [/sse] relays an upstream event stream;
    both are guarded by a host allowlist and drain the upstream body with
    a pump.

  JavaScript values are modelled as follows.  A string is a [string] of
  bytes (the UTF-8 encoding of the text, so that [Buffer.from(txt)] is the
  identity on the representation); a number is a double, a finite one
  given by its exact value ([Num q]), and text is read to the nearest
  double; asynchronous code is a step function on an explicit
  state, one step per resumption of the event loop, driven by a [world]
  record that answers every [await]. *)

From Stdlib Require Import List String Ascii ZArith QArith Qreduction Bool Lia Arith.
From Stdlib Require Import Qpower Qfield DecimalString.
Import ListNotations.

Set Warnings "-register-all".

Local Open Scope string_scope.
Local Open Scope Z_scope.

(** ** Strings *)

Module Str.

Lemma append_nil_r (s : string) : s ++ "" = s.
Proof. induction s as [|c s IH]; simpl; [reflexivity | now rewrite IH]. Qed.

Lemma append_assoc (a b c : string) : (a ++ b) ++ c = a ++ (b ++ c).
Proof. induction a as [|x a IH]; simpl; [reflexivity | now rewrite IH]. Qed.

Lemma length_append (a b : string) :
  String.length (a ++ b) = (String.length a + String.length b)%nat.
Proof. induction a as [|x a IH]; simpl; [reflexivity | now rewrite IH]. Qed.

(** [take n s] is [s.slice(0, n)]. *)
Fixpoint take (n : nat) (s : string) : string :=
  match n, s with
  | S n', String c s' => String c (take n' s')
  | _, _ => EmptyString
  end.

(** [drop n s] is [s.slice(n)]. *)
Fixpoint drop (n : nat) (s : string) : string :=
  match n, s with
  | S n', String _ s' => drop n' s'
  | _, _ => s
  end.

Lemma take_app (a b : string) : take (String.length a) (a ++ b) = a.
Proof. induction a as [|x a IH]; simpl; [now destruct b | now rewrite IH]. Qed.

Lemma drop_app (a b : string) : drop (String.length a) (a ++ b) = b.
Proof. induction a as [|x a IH]; simpl; [reflexivity | exact IH]. Qed.

(** Every character of [s] satisfies [p]. *)
Fixpoint all_chars (p : ascii -> bool) (s : string) : bool :=
  match s with
  | EmptyString => true
  | String c s' => p c && all_chars p s'
  end.

(** [ends_with s t] is [s.endsWith(t)]. *)
Definition ends_with (s t : string) : bool :=
  String.eqb (drop (String.length s - String.length t) s) t
  && (String.length t <=? String.length s)%nat.

(** [includes s t] is [s.includes(t)]: [t] occurs somewhere in [s]. *)
Fixpoint includes (s t : string) : bool :=
  String.prefix t s ||
  match s with
  | EmptyString => false
  | String _ s' => includes s' t
  end.

Lemma ends_with_app (a t : string) : ends_with (a ++ t) t = true.
Proof.
  unfold ends_with. rewrite length_append.
  replace (String.length a + String.length t - String.length t)%nat
    with (String.length a) by lia.
  rewrite drop_app, String.eqb_refl. simpl.
  apply Nat.leb_le. lia.
Qed.

Lemma drop_app_plus (a b : string) (k : nat) :
  drop (String.length a + k) (a ++ b) = drop k b.
Proof. induction a as [|x a IH]; simpl; [reflexivity | exact IH]. Qed.

Lemma ends_with_app_l (a b t : string) :
  (String.length t <= String.length b)%nat ->
  ends_with (a ++ b) t = ends_with b t.
Proof.
  intros H. unfold ends_with. rewrite length_append.
  replace (String.length a + String.length b - String.length t)%nat
    with (String.length a + (String.length b - String.length t))%nat by lia.
  rewrite drop_app_plus. f_equal.
  destruct (Nat.leb_spec (String.length t) (String.length b)),
           (Nat.leb_spec (String.length t) (String.length a + String.length b));
    try reflexivity; lia.
Qed.

End Str.

(** ** Characters *)

Module Chr.

Definition code (c : ascii) : N := N_of_ascii c.

Definition between (lo hi : N) (c : ascii) : bool :=
  ((lo <=? code c) && (code c <=? hi))%N.

(** [\d] *)
Definition is_digit : ascii -> bool := between 48 57.
(** [[-+]] *)
Definition is_sign (c : ascii) : bool := Ascii.eqb c "-" || Ascii.eqb c "+".
(** [\.] *)
Definition is_dot (c : ascii) : bool := Ascii.eqb c ".".
(** [[eE]] *)
Definition is_exp (c : ascii) : bool := Ascii.eqb c "e" || Ascii.eqb c "E".

Definition digit_val (c : ascii) : Z := Z.of_N (code c) - 48.

(** The line feed character, written [\n] in a JavaScript literal. *)
Definition LF : ascii := ascii_of_nat 10.
(** The backslash and the double quote. *)
Definition backslash : ascii := ascii_of_nat 92.
Definition dquote : ascii := ascii_of_nat 34.

(** The white-space characters of one byte: tab, line feed, vertical tab,
    form feed, carriage return and space. *)
Definition is_space (c : ascii) : bool :=
  between 9 13 c || Ascii.eqb c " ".

(** The white-space characters of two bytes: U+00A0. *)
Definition is_space2 (c1 c2 : ascii) : bool :=
  (code c1 =? 194)%N && (code c2 =? 160)%N.

(** The white-space characters of three bytes: U+1680, U+2000 to U+200A,
    U+2028, U+2029, U+202F, U+205F, U+3000 and U+FEFF. *)
Definition is_space3 (c1 c2 c3 : ascii) : bool :=
  let a := code c1 in
  let b := code c2 in
  let c := code c3 in
  ((a =? 225) && (b =? 154) && (c =? 128))%N
  || ((a =? 226) && (b =? 128)
      && (((128 <=? c) && (c <=? 138)) || (c =? 168) || (c =? 169) || (c =? 175)))%N
  || ((a =? 226) && (b =? 129) && (c =? 159))%N
  || ((a =? 227) && (b =? 128) && (c =? 128))%N
  || ((a =? 239) && (b =? 187) && (c =? 191))%N.

(** [toLowerCase] on one of the letters A to Z; other bytes are kept. *)
Definition lower (c : ascii) : ascii :=
  if between 65 90 c then ascii_of_N (code c + 32) else c.

End Chr.

(** ** The JavaScript built-ins the servers call *)

Module Js.

(** A JavaScript number is an IEEE 754 double.  A finite double other than
    the negative zero is given by its exact value, a fraction in lowest
    terms; the negative zero, the two infinities and [NaN] have constructors
    of their own. *)
Inductive number : Type :=
| NaN
| Num (q : Q)
| NegZero
| Inf (neg : bool).

(** Longest prefix of characters satisfying [p], and the rest. *)
Fixpoint span (p : ascii -> bool) (s : string) : string * string :=
  match s with
  | String c s' =>
      if p c then let (a, b) := span p s' in (String c a, b)
      else (EmptyString, s)
  | EmptyString => (EmptyString, EmptyString)
  end.

(** Number of bytes of the white-space character that [s] starts with, 0
    when it starts with none.  White space is what [trim], [\s], [parseInt]
    and [parseFloat] take for it: the [WhiteSpace] and [LineTerminator] code
    points of ECMAScript, here in the UTF-8 encoding of the text. *)
Definition ws_len (s : string) : nat :=
  match s with
  | String c1 s1 =>
      if Chr.is_space c1 then 1%nat
      else
        match s1 with
        | String c2 s2 =>
            if Chr.is_space2 c1 c2 then 2%nat
            else
              match s2 with
              | String c3 _ => if Chr.is_space3 c1 c2 c3 then 3%nat else 0%nat
              | EmptyString => 0%nat
              end
        | EmptyString => 0%nat
        end
  | EmptyString => 0%nat
  end.

(** Drop [skip] bytes, then every leading white-space character. *)
Fixpoint drop_ws (skip : nat) (s : string) : string :=
  match s with
  | String _ s' =>
      match skip with
      | S k => drop_ws k s'
      | O =>
          match ws_len s with
          | S k => drop_ws k s'
          | O => s
          end
      end
  | EmptyString => EmptyString
  end.

Definition skip_space (s : string) : string := drop_ws 0 s.

(** An optional sign: [true] for a minus. *)
Definition read_sign (s : string) : bool * string :=
  match s with
  | String c s' =>
      if Ascii.eqb c "-" then (true, s')
      else if Ascii.eqb c "+" then (false, s')
      else (false, s)
  | EmptyString => (false, s)
  end.

(** Value of a digit string in base [radix], most significant digit first. *)
Fixpoint digits_val (radix : Z) (val : ascii -> Z) (acc : Z) (s : string) : Z :=
  match s with
  | String c s' => digits_val radix val (radix * acc + val c) s'
  | EmptyString => acc
  end.

Definition apply_sign (neg : bool) (z : Z) : Z := if neg then - z else z.

(** *** Rounding to a double *)

(** [m * 2^e] as a fraction in lowest terms. *)
Definition scale2 (m e : Z) : Q :=
  Qred (if (0 <=? e)%Z then (m * 2 ^ e) # 1 else m # Z.to_pos (2 ^ (- e))).

(** [a / b] rounded to the nearest integer, a tie to the even one, for
    [0 <= a] and [0 < b]. *)
Definition round_half_even (a b : Z) : Z :=
  let m := a / b in
  match 2 * (a mod b) ?= b with
  | Lt => m
  | Gt => m + 1
  | Eq => if Z.even m then m else m + 1
  end.

(** The integer [k] with [2^k <= n / d < 2^(k+1)], for positive [n], [d]. *)
Definition log2_floor (n d : Z) : Z :=
  let k := Z.log2 n - Z.log2 d in
  if (if 0 <=? k then d * 2 ^ k <=? n else d <=? n * 2 ^ (- k)) then k else k - 1.

Definition zero (neg : bool) : number := if neg then NegZero else Num (0 # 1).

(** The double nearest to the magnitude [q] (with [0 <= q]) under the sign
    [neg]: round to nearest, ties to even, as IEEE 754 has it for binary64.
    A double is [m * 2^ex] with [m < 2^53] and [-1074 <= ex <= 971]; what
    rounds to [2^1024] is an infinity, what rounds to 0 a zero of the
    sign. *)
Definition to_double (neg : bool) (q : Q) : number :=
  let n := Qnum (Qred q) in
  let d := Zpos (Qden (Qred q)) in
  if n <=? 0 then zero neg
  else
    let ex := Z.max (log2_floor n d - 52) (- 1074) in
    let m :=
      if 0 <=? ex then round_half_even n (d * 2 ^ ex)
      else round_half_even (n * 2 ^ (- ex)) d in
    if m =? 0 then zero neg
    else if (971 <? ex) || ((ex =? 971) && (2 ^ 53 <=? m)) then Inf neg
    else Num (scale2 (apply_sign neg m) ex).

(** *** Numbers read from text *)

(** [m * 10^e] as a fraction. *)
Definition scale10 (m e : Z) : Q :=
  if (0 <=? e)%Z then (m * 10 ^ e) # 1 else m # Z.to_pos (10 ^ (- e)).

(** The exponent part [[eE][-+]?\d+] of a decimal literal, 0 when the text
    does not start with a complete one. *)
Definition read_exponent (s : string) : Z :=
  match s with
  | String c s' =>
      if Chr.is_exp c then
        let (eneg, s1) := read_sign s' in
        let (ed, _) := span Chr.is_digit s1 in
        match ed with
        | EmptyString => 0
        | _ => apply_sign eneg (digits_val 10 Chr.digit_val 0 ed)
        end
      else 0
  | EmptyString => 0
  end.

(** [parseFloat(s)]: skip white space, read a sign, then [Infinity] or the
    longest prefix that is a decimal literal (digits, fraction, exponent);
    [NaN] when there is no digit.  The result is the double nearest to the
    value read. *)
Definition parseFloat (s : string) : number :=
  let (neg, s1) := read_sign (skip_space s) in
  if String.prefix "Infinity" s1 then Inf neg
  else
    let (ip, s2) := span Chr.is_digit s1 in
    let (fp, s3) :=
      match s2 with
      | String c s' => if Chr.is_dot c then span Chr.is_digit s' else (EmptyString, s2)
      | EmptyString => (EmptyString, s2)
      end in
    match ip ++ fp with
    | EmptyString => NaN
    | ds =>
        to_double neg
          (scale10 (digits_val 10 Chr.digit_val 0 ds)
                   (read_exponent s3 - Z.of_nat (String.length fp)))
    end.

(** Digits of base 16, and their values. *)
Definition is_hex_digit (c : ascii) : bool :=
  Chr.is_digit c || Chr.between 97 102 c || Chr.between 65 70 c.

Definition hex_val (c : ascii) : Z :=
  if Chr.is_digit c then Chr.digit_val c
  else if Chr.between 97 102 c then Z.of_N (Chr.code c) - 87
  else Z.of_N (Chr.code c) - 55.

(** [parseInt(s)] with no radix argument: white space, sign, an optional
    [0x] prefix selecting base 16, then the longest run of digits.  The
    result is the double nearest to the integer read, with its sign, or
    [NaN] when that run is empty. *)
Definition parseInt (s : string) : number :=
  let (neg, s1) := read_sign (skip_space s) in
  let hex := String.prefix "0x" s1 || String.prefix "0X" s1 in
  let s2 := if hex then Str.drop 2 s1 else s1 in
  let (ds, _) := span (if hex then is_hex_digit else Chr.is_digit) s2 in
  match ds with
  | EmptyString => NaN
  | _ =>
      to_double neg
        (inject_Z (if hex then digits_val 16 hex_val 0 ds
                   else digits_val 10 Chr.digit_val 0 ds))
  end.

(** [!!x] for a number: [NaN] and the two zeros are falsy. *)
Definition truthy (x : number) : bool :=
  match x with
  | NaN | NegZero => false
  | Num q => negb (Qnum q =? 0)%Z
  | Inf _ => true
  end.

(** [x || d] for numbers. *)
Definition or_default (x d : number) : number := if truthy x then x else d.

(** [a < x] for a whole number [a] and a number [x]. *)
Definition lt_int (a : Z) (x : number) : bool :=
  match x with
  | NaN => false
  | Num q => (a * Zpos (Qden q) <? Qnum q)%Z
  | NegZero => (a <? 0)%Z
  | Inf neg => negb neg
  end.


(** [String(v)] for a query parameter: an absent one is [undefined]. *)
Definition to_string (v : option string) : string :=
  match v with
  | Some s => s
  | None => "undefined"
  end.

(** [!v] for a query parameter: absent and empty are falsy. *)
Definition falsy (v : option string) : bool :=
  match v with
  | None | Some EmptyString => true
  | Some _ => false
  end.

(** [s.toLowerCase()] on the letters A to Z, for the names of headers,
    which are ASCII tokens. *)
Fixpoint toLowerCase (s : string) : string :=
  match s with
  | String c s' => String (Chr.lower c) (toLowerCase s')
  | EmptyString => EmptyString
  end.

(** *** Regular expressions

    The fragment of the pattern language that [server.js] uses, matched
    the way the engine does it: greedy quantifiers, backtracking into
    them through the continuation [k]. *)
Inductive regex : Type :=
| Cls (p : ascii -> bool)          (* one character of a class *)
| StarC (p : ascii -> bool)        (* [c*] for a class [c] *)
| PlusC (p : ascii -> bool)        (* [c+] for a class [c] *)
| Cat (r1 r2 : regex)              (* [r1 r2] *)
| Opt (r : regex).                 (* [(?:r)?] *)

(** Greedy [c*]: take one more character when possible, give it back when
    the continuation fails. *)
Fixpoint star_cls {A : Type} (p : ascii -> bool) (s : string)
    (k : string -> option A) : option A :=
  match s with
  | String c s' =>
      if p c then
        match star_cls p s' k with
        | Some r => Some r
        | None => k s
        end
      else k s
  | EmptyString => k s
  end.

(** [m r s k]: match [r] at the head of [s], then run [k] on what is left. *)
Fixpoint m {A : Type} (r : regex) (s : string) (k : string -> option A) : option A :=
  match r with
  | Cls p =>
      match s with
      | String c s' => if p c then k s' else None
      | EmptyString => None
      end
  | StarC p => star_cls p s k
  | PlusC p =>
      match s with
      | String c s' => if p c then star_cls p s' k else None
      | EmptyString => None
      end
  | Cat r1 r2 => m r1 s (fun s' => m r2 s' k)
  | Opt r1 =>
      match m r1 s k with
      | Some x => Some x
      | None => k s
      end
  end.

(** A match anchored at the head of [s]: the text left after it. *)
Definition match_here (r : regex) (s : string) : option string :=
  m r s (fun rest => Some rest).

(** [re.exec] of a global pattern, on the text from [lastIndex] on: the
    leftmost position with a match, as (lexeme, text after the lexeme), or
    [None] for [null]. *)
Fixpoint exec (r : regex) (s : string) : option (string * string) :=
  match match_here r s with
  | Some rest =>
      Some (Str.take (String.length s - String.length rest) s, rest)
  | None =>
      match s with
      | String _ s' => exec r s'
      | EmptyString => None
      end
  end.

(** *** Base64, as [Buffer.from(txt).toString('base64')] produces it:
    the standard alphabet, three bytes to four characters, [=] padding. *)

Definition base64_alphabet : string :=
  "ABCDEFGHIJKLMNOPQRSTUVWXYZabcdefghijklmnopqrstuvwxyz0123456789+/".

(** Six bits, most significant first. *)
Definition sextet : Type := (bool * bool * bool * bool * bool * bool)%type.

Definition bit (b : bool) (weight : nat) : nat := if b then weight else 0%nat.

Definition sextet_index (x : sextet) : nat :=
  let '(x5, x4, x3, x2, x1, x0) := x in
  (bit x5 32 + bit x4 16 + bit x3 8 + bit x2 4 + bit x1 2 + bit x0 1)%nat.

Definition index_sextet (n : nat) : sextet :=
  (Nat.testbit n 5, Nat.testbit n 4, Nat.testbit n 3,
   Nat.testbit n 2, Nat.testbit n 1, Nat.testbit n 0).

Definition pad : ascii := "="%char.

Definition enc6 (x : sextet) : ascii :=
  match String.get (sextet_index x) base64_alphabet with
  | Some c => c
  | None => pad
  end.

(** Position of a character in a string. *)
Fixpoint index_of (c : ascii) (s : string) : option nat :=
  match s with
  | EmptyString => None
  | String d s' => if Ascii.eqb c d then Some 0%nat else option_map S (index_of c s')
  end.

Definition dec6 (c : ascii) : option sextet :=
  option_map index_sextet (index_of c base64_alphabet).

(** Three bytes are four sextets.  [Ascii] lists the least significant bit
    first. *)
Definition group3 (a b c : ascii) : sextet * sextet * sextet * sextet :=
  let '(Ascii a0 a1 a2 a3 a4 a5 a6 a7) := a in
  let '(Ascii b0 b1 b2 b3 b4 b5 b6 b7) := b in
  let '(Ascii c0 c1 c2 c3 c4 c5 c6 c7) := c in
  ((a7, a6, a5, a4, a3, a2), (a1, a0, b7, b6, b5, b4),
   (b3, b2, b1, b0, c7, c6), (c5, c4, c3, c2, c1, c0)).

Definition ungroup3 (s0 s1 s2 s3 : sextet) : ascii * ascii * ascii :=
  let '(a7, a6, a5, a4, a3, a2) := s0 in
  let '(a1, a0, b7, b6, b5, b4) := s1 in
  let '(b3, b2, b1, b0, c7, c6) := s2 in
  let '(c5, c4, c3, c2, c1, c0) := s3 in
  (Ascii a0 a1 a2 a3 a4 a5 a6 a7, Ascii b0 b1 b2 b3 b4 b5 b6 b7,
   Ascii c0 c1 c2 c3 c4 c5 c6 c7).

Definition zero_byte : ascii := Ascii.zero.

Fixpoint base64_encode (s : string) : string :=
  match s with
  | EmptyString => EmptyString
  | String a EmptyString =>
      let '(s0, s1, _, _) := group3 a zero_byte zero_byte in
      String (enc6 s0) (String (enc6 s1) (String pad (String pad EmptyString)))
  | String a (String b EmptyString) =>
      let '(s0, s1, s2, _) := group3 a b zero_byte in
      String (enc6 s0) (String (enc6 s1) (String (enc6 s2) (String pad EmptyString)))
  | String a (String b (String c rest)) =>
      let '(s0, s1, s2, s3) := group3 a b c in
      String (enc6 s0) (String (enc6 s1) (String (enc6 s2) (String (enc6 s3)
        (base64_encode rest))))
  end.

(** The decoder of the standard alphabet with padding: [None] on text that
    is not a base64 encoding. *)
Fixpoint base64_decode (s : string) : option string :=
  match s with
  | EmptyString => Some EmptyString
  | String c0 (String c1 (String c2 (String c3 rest))) =>
      match dec6 c0, dec6 c1 with
      | Some s0, Some s1 =>
          match dec6 c2, dec6 c3 with
          | Some s2, Some s3 =>
              let '(a, b, c) := ungroup3 s0 s1 s2 s3 in
              option_map (fun t => String a (String b (String c t)))
                         (base64_decode rest)
          | Some s2, None =>
              if Ascii.eqb c3 pad && String.eqb rest EmptyString then
                let '(a, b, _) := ungroup3 s0 s1 s2 (index_sextet 0) in
                Some (String a (String b EmptyString))
              else None
          | None, _ =>
              if Ascii.eqb c2 pad && Ascii.eqb c3 pad && String.eqb rest EmptyString then
                let '(a, _, _) := ungroup3 s0 s1 (index_sextet 0) (index_sextet 0) in
                Some (String a EmptyString)
              else None
          end
      | _, _ => None
      end
  | _ => None
  end.

End Js.

(** ** What a request handler does to the outside world *)

Module Io.

(** An awaited call either resolves with a value or rejects with an error,
    of which the servers only use the message. *)
Inductive result (A : Type) : Type :=
| Ok (a : A)
| Throws (msg : string).
Arguments Ok {A} a.
Arguments Throws {A} msg.

(** The observable actions of a handler, in the order it performs them. *)
Inductive event : Type :=
| Status (code : Z)                                  (* res.status(code) *)
| Send (body : string)                               (* res.send(body) *)
| WriteHead (code : Z) (hs : list (string * string))  (* res.writeHead *)
| SetHeader (k v : string)                           (* res.setHeader(k, v) *)
| Fetch (target : string)                            (* fetch(target, ...) *)
| Write (chunk : string)                             (* res.write(chunk) *)
| End                                                (* res.end() *)
| Log (msg : string)                                 (* console.error *)
| Cancel                                             (* reader.cancel() *)
| Timer (ms : Z).                                    (* setTimeout(_, ms) *)

Definition is_fetch (e : event) : bool :=
  match e with Fetch _ => true | _ => false end.
Definition is_end (e : event) : bool :=
  match e with End => true | _ => false end.
Definition is_cancel (e : event) : bool :=
  match e with Cancel => true | _ => false end.
(** How many events of a kind a trace holds. *)
Definition count (p : event -> bool) (t : list event) : nat :=
  List.length (filter p t).

(** The chunks written to the client, oldest first. *)
Fixpoint writes (t : list event) : list string :=
  match t with
  | Write c :: t' => c :: writes t'
  | _ :: t' => writes t'
  | [] => []
  end.

(** What [new URL(s)] exposes to the servers. *)
Record url : Type := { hostname : string }.

(** Decimal text of an integer, as a template literal prints a status. *)
Definition string_of_Z (z : Z) : string := NilZero.string_of_int (Z.to_int z).

End Io.

(** ** [server.js]: the poll-to-stream synthesizer *)

Module Poll.
Import Io.

(** A decoded JSON value. *)
Inductive json : Type :=
| JNull
| JBool (b : bool)
| JNum (n : Js.number)
| JStr (s : string)
| JArr (items : list json)
| JObj (fields : list (string * json)).

(** [Array.isArray(j)] *)
Definition isArray (j : json) : bool :=
  match j with JArr _ => true | _ => false end.

Fixpoint lookup (k : string) (fields : list (string * json)) : option json :=
  match fields with
  | [] => None
  | (k', v) :: rest => if String.eqb k k' then Some v else lookup k rest
  end.

(** The property read [j.samples]: [undefined] ([None]) where the value has
    no such property, a [TypeError] on [null]. *)
Definition get_samples (j : json) : result (option json) :=
  match j with
  | JNull => Throws "Cannot read properties of null (reading 'samples')"
  | JObj fields => Ok (lookup "samples" fields)
  | _ => Ok None
  end.

(** What the loop reads of the object [fetch] resolves to. *)
Record response : Type := {
  status : Z;                        (* r.status *)
  content_type : option string;      (* r.headers.get('content-type') *)
  json_body : result json;           (* await r.json() *)
  text_body : result string          (* await r.text() *)
}.

(** [r.ok] *)
Definition ok (r : response) : bool :=
  (200 <=? status r) && (status r <=? 299).

(** [h || ''] for a header that may be [null]. *)
Definition header_or_empty (h : option string) : string :=
  match h with
  | Some c => c
  | None => ""
  end.

(** The pattern [/[-+]?\d*\.?\d+(?:[eE][-+]?\d+)?/g]. *)
Definition number_re : Js.regex :=
  Js.Cat (Js.Opt (Js.Cls Chr.is_sign))
    (Js.Cat (Js.StarC Chr.is_digit)
      (Js.Cat (Js.Opt (Js.Cls Chr.is_dot))
        (Js.Cat (Js.PlusC Chr.is_digit)
          (Js.Opt (Js.Cat (Js.Cls Chr.is_exp)
                    (Js.Cat (Js.Opt (Js.Cls Chr.is_sign))
                            (Js.PlusC Chr.is_digit))))))).

(** The [while ((m = re.exec(text)) !== null)] loop, on the text from
    [lastIndex] on.  [None] when the fuel runs out. *)
Fixpoint scan (fuel : nat) (s : string) : option (list Js.number) :=
  match fuel with
  | O => None
  | S fuel' =>
      match Js.exec number_re s with
      | None => Some []
      | Some (lexeme, rest) =>
          option_map (cons (Js.parseFloat lexeme)) (scan fuel' rest)
      end
  end.

Definition parseTextToNumbers (text : string) : list Js.number :=
  match scan (S (String.length text)) text with
  | Some out => out
  | None => []
  end.

(** The four characters that close every template literal passed to
    [res.write]: backslash, [n], backslash, [n]. *)
Definition frame_end : string :=
  String Chr.backslash (String "n" (String Chr.backslash (String "n" EmptyString))).

(** A blank line: two line feeds. *)
Definition blank_line : string := String Chr.LF (String Chr.LF EmptyString).

Definition quote : string := String Chr.dquote EmptyString.

Section WithPlatform.

(** [JSON.stringify] and the [URL] constructor belong to the platform. *)
Variable JSON_stringify : json -> string.
Variable URL_parse : string -> option url.

(** What is written for a response, or the error thrown on the way. *)
Definition on_response (r : response) : result string :=
  if negb (ok r) then
    Ok (": remote status " ++ string_of_Z (status r) ++ frame_end)
  else
    let ct := header_or_empty (content_type r) in
    if Str.includes ct "application/json" then
      match json_body r with
      | Throws e => Throws e
      | Ok j =>
          let extracted :=
            let num := parseTextToNumbers (JSON_stringify j) in
            Ok ("data: " ++ JSON_stringify (JArr (map JNum num)) ++ frame_end) in
          if isArray j then
            Ok ("data: " ++ JSON_stringify j ++ frame_end)
          else
            match get_samples j with
            | Throws e => Throws e
            | Ok (Some samples) =>
                if isArray samples then
                  Ok ("data: " ++ JSON_stringify samples ++ frame_end)
                else extracted
            | Ok None => extracted
            end
      end
    else
      match text_body r with
      | Throws e => Throws e
      | Ok txt =>
          let nums := parseTextToNumbers txt in
          if (List.length nums =? 0)%nat then
            let b64 := Js.base64_encode txt in
            Ok ("data: {" ++ quote ++ "b64" ++ quote ++ ": " ++ quote ++ b64
                  ++ quote ++ "}" ++ frame_end)
          else
            Ok ("data: " ++ JSON_stringify (JArr (map JNum nums)) ++ frame_end)
      end.

(** The [catch] block. *)
Definition on_error (msg : string) : list event :=
  [Log ("Poll error " ++ msg); Write (": poll error " ++ msg ++ frame_end)].

(** The body of the [try] and its [catch], after [fetch] has settled. *)
Definition iteration (o : result response) : list event :=
  match o with
  | Throws e => on_error e
  | Ok r =>
      match on_response r with
      | Ok frame => [Write frame]
      | Throws e => on_error e
      end
  end.

(** Whether the iteration awaits [r.json()] or [r.text()] after [fetch]. *)
Definition reads_body (o : result response) : bool :=
  match o with
  | Ok r => ok r
  | Throws _ => false
  end.

(** The world of one connection: what the n-th [fetch] settles to, how long
    the k-th [await] takes, and during which [await] (if any) the client
    closes the connection. *)
Record world : Type := {
  fetch_result : nat -> result response;
  await_ms : nat -> Z;
  close_at : option nat
}.

Inductive pc : Type :=
| LoopHead                 (* at [while (!stopped)] *)
| Sleeping (start : Z)     (* at the inner [while], with its [start] *)
| Exited.                  (* after [res.end()] *)

Record state : Type := {
  at_ : pc;
  now : Z;                 (* Date.now() *)
  stopped : bool;
  awaits : nat;            (* awaits completed so far *)
  fetches : nat;           (* fetch calls made so far *)
  trace : list event       (* oldest first *)
}.

Definition init : state :=
  {| at_ := LoopHead; now := 0; stopped := false; awaits := 0; fetches := 0;
     trace := [] |}.

Definition goto (p : pc) (s : state) : state :=
  {| at_ := p; now := now s; stopped := stopped s; awaits := awaits s;
     fetches := fetches s; trace := trace s |}.

Definition emit (es : list event) (s : state) : state :=
  {| at_ := at_ s; now := now s; stopped := stopped s; awaits := awaits s;
     fetches := fetches s; trace := trace s ++ es |}.

Definition closes (w : world) (k : nat) : bool :=
  match close_at w with
  | Some c => Nat.eqb c k
  | None => false
  end.

(** One [await]: time passes, and the [close] handler runs if the client
    goes away meanwhile. *)
Definition await (w : world) (s : state) : state :=
  {| at_ := at_ s; now := now s + await_ms w (awaits s);
     stopped := stopped s || closes w (awaits s);
     awaits := S (awaits s); fetches := fetches s; trace := trace s |}.

Definition fetched (s : state) : state :=
  {| at_ := at_ s; now := now s; stopped := stopped s; awaits := awaits s;
     fetches := S (fetches s); trace := trace s |}.

(** [pollLoop], from one loop test to the next, for an interval that is a
    whole number of milliseconds. *)
Definition step (w : world) (remote : string) (interval : Z) (s : state) : state :=
  match at_ s with
  | Exited => s
  | LoopHead =>
      if stopped s then goto Exited (emit [End] s)
      else
        let o := fetch_result w (fetches s) in
        let s1 := await w (fetched (emit [Fetch remote] s)) in
        let s2 := if reads_body o then await w s1 else s1 in
        let s3 := emit (iteration o) s2 in
        goto (Sleeping (now s3)) s3
  | Sleeping start =>
      if negb (stopped s) && (now s - start <? interval)
      then await w (emit [Timer 50] s)
      else goto LoopHead s
  end.

Fixpoint run (w : world) (remote : string) (interval : Z) (n : nat) (s : state) : state :=
  match n with
  | O => s
  | S n' => run w remote interval n' (step w remote interval s)
  end.

Definition sse_headers : list (string * string) :=
  [("Content-Type", "text/event-stream"); ("Cache-Control", "no-cache");
   ("Connection", "keep-alive"); ("Access-Control-Allow-Origin", "*")].

(** [let interval = parseInt(req.query.interval) || 200] *)
Definition interval_of (q_interval : option string) : Js.number :=
  Js.or_default (Js.parseInt (Js.to_string q_interval)) (Js.Num (200 # 1)).

(** [pollLoop] for the interval as the handler has it, a JavaScript number:
    [step] with the sleep test [Date.now() - start < interval] read on
    numbers.  On a whole number the two agree. *)
Definition loop_step (w : world) (remote : string) (interval : Js.number) (s : state)
  : state :=
  match at_ s with
  | Exited => s
  | LoopHead =>
      if stopped s then goto Exited (emit [End] s)
      else
        let o := fetch_result w (fetches s) in
        let s1 := await w (fetched (emit [Fetch remote] s)) in
        let s2 := if reads_body o then await w s1 else s1 in
        let s3 := emit (iteration o) s2 in
        goto (Sleeping (now s3)) s3
  | Sleeping start =>
      if negb (stopped s) && Js.lt_int (now s - start) interval
      then await w (emit [Timer 50] s)
      else goto LoopHead s
  end.

Fixpoint loop_run (w : world) (remote : string) (interval : Js.number) (n : nat)
  (s : state) : state :=
  match n with
  | O => s
  | S n' => loop_run w remote interval n' (loop_step w remote interval s)
  end.

(** The handler of [GET /sse]: everything it has done after [n] steps of
    the loop. *)
Definition sse (q_url q_interval : option string) (w : world) (n : nat) : list event :=
  if Js.falsy q_url then
    [Status 400;
     Send "Missing url parameter. Example: /sse?url=https://example.com/data"]
  else
    let remote := Js.to_string q_url in
    let interval := interval_of q_interval in
    match URL_parse remote with
    | None => [Status 400; Send "Invalid url parameter"]
    | Some _ =>
        WriteHead 200 sse_headers :: trace (loop_run w remote interval n init)
    end.

End WithPlatform.

End Poll.

(** ** The relay server: [/proxy] and the byte-stream [/sse] *)

Module Relay.
Import Io.

(** What the handlers read of the object [fetch] resolves to. *)
Record upstream : Type := {
  status : Z;                          (* remote.status *)
  headers : list (string * string);    (* remote.headers, as (name, value) *)
  has_body : bool;                     (* remote.body is not null *)
  text : result string                 (* await remote.text() *)
}.

(** [remote.ok] *)
Definition ok (r : upstream) : bool :=
  (200 <=? status r) && (status r <=? 299).

Definition hopByHop : list string :=
  ["connection"; "keep-alive"; "proxy-authenticate"; "proxy-authorization";
   "te"; "trailers"; "transfer-encoding"; "upgrade"].

(** [set.has(k)], [array.includes(k)] *)
Definition has (set : list string) (k : string) : bool :=
  existsb (String.eqb k) set.

(** The [remote.headers.forEach] callback, over all headers. *)
Fixpoint forward_headers (hs : list (string * string)) : list event :=
  match hs with
  | [] => []
  | (k, v) :: rest =>
      if negb (has hopByHop (Js.toLowerCase k))
      then SetHeader k v :: forward_headers rest
      else forward_headers rest
  end.

(** *** The pump *)

(** What [await reader.read()] settles to. *)
Inductive read_outcome : Type :=
| Chunk (value : string)      (* { done: false, value } *)
| Done                        (* { done: true } *)
| ReadError (msg : string).   (* rejected *)

(** The world of one pump: what the k-th read of the upstream body settles
    to while the reader is not cancelled, and the turn of the event loop
    (if any) in which the client closes the connection. *)
Record pump_world : Type := {
  read_result : nat -> read_outcome;
  close_turn : option nat
}.

Record pump_state : Type := {
  running : bool;           (* the pump has not reached its [finally] yet *)
  turn : nat;               (* turns of the event loop so far *)
  reads : nat;              (* reads settled with a chunk so far *)
  cancelled : bool;         (* reader.cancel() has been called *)
  writableEnded : bool;     (* res.writableEnded *)
  ptrace : list event       (* oldest first *)
}.

Definition pump_init : pump_state :=
  {| running := true; turn := 0; reads := 0; cancelled := false;
     writableEnded := false; ptrace := [] |}.

Definition pemit (es : list event) (s : pump_state) : pump_state :=
  {| running := running s; turn := turn s; reads := reads s;
     cancelled := cancelled s; writableEnded := writableEnded s;
     ptrace := ptrace s ++ es |}.

(** The [req.on('close', ...)] handler: [reader.cancel()]. *)
Definition on_close (s : pump_state) : pump_state :=
  {| running := running s; turn := turn s; reads := reads s;
     cancelled := true; writableEnded := writableEnded s;
     ptrace := ptrace s ++ [Cancel] |}.

(** [break] and the [finally] block: [res.end()]. *)
Definition finish (s : pump_state) : pump_state :=
  {| running := false; turn := turn s; reads := reads s;
     cancelled := cancelled s; writableEnded := true;
     ptrace := ptrace s ++ [End] |}.

(** [res.write(Buffer.from(value))] and back to [reader.read()]. *)
Definition write_chunk (v : string) (s : pump_state) : pump_state :=
  {| running := true; turn := turn s; reads := S (reads s);
     cancelled := cancelled s; writableEnded := writableEnded s;
     ptrace := ptrace s ++ [Write v] |}.

Definition next_turn (s : pump_state) : pump_state :=
  {| running := running s; turn := S (turn s); reads := reads s;
     cancelled := cancelled s; writableEnded := writableEnded s;
     ptrace := ptrace s |}.

(** A cancelled reader settles its pending read with [done]. *)
Definition settle (w : pump_world) (s : pump_state) : read_outcome :=
  if cancelled s then Done else read_result w (reads s).

(** The pump resumes from [await reader.read()]. *)
Definition resume (label : string) (w : pump_world) (s : pump_state) : pump_state :=
  match settle w s with
  | Done => finish s
  | ReadError e => finish (pemit [Log (label ++ " pump error " ++ e)] s)
  | Chunk v => if negb (writableEnded s) then write_chunk v s else finish s
  end.

Definition closes (w : pump_world) (k : nat) : bool :=
  match close_turn w with
  | Some c => Nat.eqb c k
  | None => false
  end.

(** One turn of the event loop: the [close] handler if the client goes
    away in this turn, then the pump if it is still waiting for a read. *)
Definition pump_step (label : string) (w : pump_world) (s : pump_state) : pump_state :=
  let s1 := if closes w (turn s) then on_close s else s in
  let s2 := next_turn s1 in
  if running s2 then resume label w s2 else s2.

Fixpoint pump_run (label : string) (w : pump_world) (n : nat) (s : pump_state) : pump_state :=
  match n with
  | O => s
  | S n' => pump_run label w n' (pump_step label w s)
  end.

Section WithConfig.

(** The allowlist read from the environment, and the platform's [URL]
    constructor. *)
Variable ALLOWED_HOSTS : list string.
Variable URL_parse : string -> option url.

Definition isHostAllowed (targetUrl : string) : bool :=
  if (List.length ALLOWED_HOSTS =? 0)%nat then true
  else
    match URL_parse targetUrl with
    | Some u => has ALLOWED_HOSTS (hostname u)
    | None => false
    end.

(** The [catch] of a handler; [e] is [String(err)]. *)
Definition bad_gateway (label e : string) : list event :=
  [Log (label ++ " error " ++ e); Status 502; Send ("bad gateway: " ++ e)].

(** The handler of [GET /proxy]: everything it has done once [fetch] has
    settled to [o] and the event loop has made [n] turns with the pump. *)
Definition proxy (q_url : option string) (o : result upstream)
    (w : pump_world) (n : nat) : list event :=
  if Js.falsy q_url then [Status 400; Send "missing url query param"]
  else
    let target := Js.to_string q_url in
    if negb (isHostAllowed target) then [Status 403; Send "host not allowed"]
    else
      Fetch target ::
      match o with
      | Throws e => bad_gateway "proxy" e
      | Ok remote =>
          Status (status remote) :: forward_headers (headers remote)
          ++ [SetHeader "Access-Control-Allow-Origin" "*";
              SetHeader "Cache-Control" "no-store"]
          ++ (if negb (has_body remote) then
                match text remote with
                | Ok t => [Send t]
                | Throws e => bad_gateway "proxy" e
                end
              else ptrace (pump_run "proxy" w n pump_init))
      end.

(** The handler of [GET /sse] of the relay server. *)
Definition sse (q_url : option string) (o : result upstream)
    (w : pump_world) (n : nat) : list event :=
  if Js.falsy q_url then [Status 400; Send "missing url query param"]
  else
    let target := Js.to_string q_url in
    if negb (isHostAllowed target) then [Status 403; Send "host not allowed"]
    else
      Fetch target ::
      match o with
      | Throws e => bad_gateway "sse" e
      | Ok remote =>
          if negb (ok remote) then
            Status (status remote) ::
            match text remote with
            | Ok txt => [SetHeader "Access-Control-Allow-Origin" "*"; Send txt]
            | Throws e => bad_gateway "sse" e
            end
          else
            [SetHeader "Content-Type" "text/event-stream; charset=utf-8";
             SetHeader "Cache-Control" "no-store";
             SetHeader "Connection" "keep-alive";
             SetHeader "Access-Control-Allow-Origin" "*"]
            ++ (if negb (has_body remote) then [End]
                else ptrace (pump_run "sse" w n pump_init))
      end.

End WithConfig.

End Relay.

(** ** Instances of the platform functions, for running the model *)

Module Node.
Import Io.

Definition is_alpha (c : ascii) : bool :=
  Chr.between 97 122 c || Chr.between 65 90 c.

Definition ends_host (c : ascii) : bool :=
  Ascii.eqb c "/" || Ascii.eqb c "?" || Ascii.eqb c "#" || Ascii.eqb c ":".

(** The [URL] constructor on texts of the shape [scheme://host...], which
    is where this instance agrees with the platform's parser; anything else
    is rejected. *)
Definition URL_parse (s : string) : option url :=
  let (scheme, r) := Js.span is_alpha s in
  match scheme with
  | EmptyString => None
  | _ =>
      if String.prefix "://" r then
        let (host, _) := Js.span (fun c => negb (ends_host c)) (Str.drop 3 r) in
        match host with
        | EmptyString => None
        | _ => Some {| hostname := Js.toLowerCase host |}
        end
      else None
  end.

Fixpoint join (sep : string) (parts : list string) : string :=
  match parts with
  | [] => ""
  | [x] => x
  | x :: rest => x ++ sep ++ join sep rest
  end.

(** [JSON.stringify] on values whose numbers are integers and whose strings
    need no escaping, which is where this instance agrees with the
    platform's: [NaN] and the infinities are printed as [null] and the
    negative zero as [0].  A number that is not an integer is outside the
    instance, which prints [null] for it. *)
Fixpoint JSON_stringify (j : Poll.json) : string :=
  match j with
  | Poll.JNull => "null"
  | Poll.JBool b => if b then "true" else "false"
  | Poll.JNum Js.NaN => "null"
  | Poll.JNum (Js.Inf _) => "null"
  | Poll.JNum Js.NegZero => "0"
  | Poll.JNum (Js.Num q) =>
      if Pos.eqb (Qden q) 1 then string_of_Z (Qnum q) else "null"
  | Poll.JStr s => Poll.quote ++ s ++ Poll.quote
  | Poll.JArr items => "[" ++ join "," (map JSON_stringify items) ++ "]"
  | Poll.JObj fields =>
      "{" ++ join "," (map (fun kv => Poll.quote ++ fst kv ++ Poll.quote ++ ":"
                                        ++ JSON_stringify (snd kv)) fields) ++ "}"
  end.

(** A client that never goes away, on a clock where every [await] takes
    50 ms, polling an upstream that alternates between an array and a
    network failure. *)
Definition array_response : Poll.response :=
  {| Poll.status := 200;
     Poll.content_type := Some "application/json";
     Poll.json_body := Ok (Poll.JArr [Poll.JNum (Js.Num 1); Poll.JNum (Js.Num 2);
                                      Poll.JNum (Js.Num 3)]);
     Poll.text_body := Ok "[1,2,3]" |}.

Definition flaky : Poll.world :=
  {| Poll.fetch_result := fun n =>
       if Nat.even n then Ok array_response else Throws "network timeout";
     Poll.await_ms := fun _ => 50;
     Poll.close_at := None |}.

End Node.

(** * Properties of the built-ins *)

Module JsSpec.
Import Js.

(** Induction on strings three characters at a time. *)
Lemma string_ind3 (P : string -> Prop) :
  P EmptyString ->
  (forall a, P (String a EmptyString)) ->
  (forall a b, P (String a (String b EmptyString))) ->
  (forall a b c rest, P rest -> P (String a (String b (String c rest)))) ->
  forall s, P s.
Proof.
  intros H0 H1 H2 H3.
  assert (H : forall s, P s /\ (forall a, P (String a s))
                        /\ (forall a b, P (String a (String b s)))).
  { induction s as [|c s (IH0 & IH1 & IH2)]; repeat split; auto. }
  intros s. apply H.
Qed.

Lemma dec6_enc6 (x : sextet) : dec6 (enc6 x) = Some x.
Proof.
  destruct x as [[[[[x5 x4] x3] x2] x1] x0].
  destruct x5, x4, x3, x2, x1, x0; reflexivity.
Qed.

Lemma dec6_pad : dec6 pad = None.
Proof. reflexivity. Qed.

(** Decoding undoes encoding, on every byte string. *)
Lemma base64_round_trip (s : string) : base64_decode (base64_encode s) = Some s.
Proof.
  induction s as [ | a | a b | a b c rest IH ] using string_ind3.
  - reflexivity.
  - destruct a as [a0 a1 a2 a3 a4 a5 a6 a7].
    cbn [base64_encode group3 zero_byte Ascii.zero base64_decode].
    rewrite !dec6_enc6, dec6_pad. reflexivity.
  - destruct a as [a0 a1 a2 a3 a4 a5 a6 a7], b as [b0 b1 b2 b3 b4 b5 b6 b7].
    cbn [base64_encode group3 zero_byte Ascii.zero base64_decode].
    rewrite !dec6_enc6, dec6_pad. reflexivity.
  - destruct a as [a0 a1 a2 a3 a4 a5 a6 a7], b as [b0 b1 b2 b3 b4 b5 b6 b7],
             c as [c0 c1 c2 c3 c4 c5 c6 c7].
    cbn [base64_encode group3 base64_decode].
    rewrite !dec6_enc6. cbn [ungroup3]. now rewrite IH.
Qed.

(** A character of the alphabet, or the padding character. *)
Definition base64_char (c : ascii) : bool :=
  match index_of c base64_alphabet with
  | Some _ => true
  | None => Ascii.eqb c pad
  end.

Lemma enc6_base64_char (x : sextet) : base64_char (enc6 x) = true.
Proof.
  destruct x as [[[[[x5 x4] x3] x2] x1] x0].
  destruct x5, x4, x3, x2, x1, x0; reflexivity.
Qed.

(** The encoder only produces characters of the alphabet and padding, so
    its output needs no escaping inside a JSON string. *)
Lemma base64_encode_chars (s : string) : Str.all_chars base64_char (base64_encode s) = true.
Proof.
  induction s as [ | a | a b | a b c rest IH ] using string_ind3.
  - reflexivity.
  - destruct a as [a0 a1 a2 a3 a4 a5 a6 a7].
    cbn [base64_encode group3 zero_byte Ascii.zero Str.all_chars].
    now rewrite !enc6_base64_char.
  - destruct a as [a0 a1 a2 a3 a4 a5 a6 a7], b as [b0 b1 b2 b3 b4 b5 b6 b7].
    cbn [base64_encode group3 zero_byte Ascii.zero Str.all_chars].
    now rewrite !enc6_base64_char.
  - destruct a as [a0 a1 a2 a3 a4 a5 a6 a7], b as [b0 b1 b2 b3 b4 b5 b6 b7],
             c as [c0 c1 c2 c3 c4 c5 c6 c7].
    cbn [base64_encode group3 Str.all_chars].
    now rewrite !enc6_base64_char, IH.
Qed.

End JsSpec.

(** * The sample extractor's pattern as a maximal-munch lexer *)

Module Lexer.
Import Js.

(** The numeric literals of the extractor, in the spec's words: an optional
    sign, digits, an optional decimal point, digits (at least one), and an
    optional exponent. *)
Definition sign_opt (s : string) : Prop :=
  s = "" \/ exists c, Chr.is_sign c = true /\ s = String c "".

Definition dot_opt (s : string) : Prop :=
  s = "" \/ exists c, Chr.is_dot c = true /\ s = String c "".

Definition digits (s : string) : Prop := Str.all_chars Chr.is_digit s = true.

Definition exponent_opt (s : string) : Prop :=
  s = "" \/
  exists e sg ds,
    Chr.is_exp e = true /\ sign_opt sg /\ digits ds /\ ds <> "" /\
    s = String e (sg ++ ds).

Definition literal (l : string) : Prop :=
  exists sg ip dt fp ex,
    sign_opt sg /\ digits ip /\ dot_opt dt /\ digits fp /\ fp <> "" /\
    exponent_opt ex /\
    l = sg ++ ip ++ dt ++ fp ++ ex.

(** The same language read greedily from the head of a text: what is left
    after the longest literal, if the text starts with one. *)
Definition skip_sign (s : string) : string :=
  match s with
  | String c s' => if Chr.is_sign c then s' else s
  | EmptyString => s
  end.

(** After [\d+]. *)
Definition after_digits1 (s : string) : option string :=
  match span Chr.is_digit s with
  | (EmptyString, _) => None
  | (_, r) => Some r
  end.

(** After [\.\d+]. *)
Definition after_fraction (s : string) : option string :=
  match s with
  | String c s' => if Chr.is_dot c then after_digits1 s' else None
  | EmptyString => None
  end.

(** After the exponent, when there is a complete one. *)
Definition lex_exponent (s : string) : string :=
  match s with
  | String c s' =>
      if Chr.is_exp c then
        match after_digits1 (skip_sign s') with
        | Some r => r
        | None => s
        end
      else s
  | EmptyString => s
  end.

(** After the digits and the fraction. *)
Definition lex_mantissa (s : string) : option string :=
  let (ip, s2) := span Chr.is_digit s in
  match after_fraction s2 with
  | Some s3 => Some s3
  | None =>
      match ip with
      | EmptyString => None
      | _ => Some s2
      end
  end.

Definition lex (s : string) : option string :=
  option_map lex_exponent (lex_mantissa (skip_sign s)).

(** *** The character classes are disjoint *)

Lemma digit_not_dot (c : ascii) : Chr.is_digit c = true -> Chr.is_dot c = false.
Proof. destruct c as [[] [] [] [] [] [] [] []]; cbv; congruence. Qed.

Lemma digit_not_sign (c : ascii) : Chr.is_digit c = true -> Chr.is_sign c = false.
Proof. destruct c as [[] [] [] [] [] [] [] []]; cbv; congruence. Qed.

Lemma digit_not_exp (c : ascii) : Chr.is_digit c = true -> Chr.is_exp c = false.
Proof. destruct c as [[] [] [] [] [] [] [] []]; cbv; congruence. Qed.

Lemma dot_not_sign (c : ascii) : Chr.is_dot c = true -> Chr.is_sign c = false.
Proof. destruct c as [[] [] [] [] [] [] [] []]; cbv; congruence. Qed.

Lemma dot_not_exp (c : ascii) : Chr.is_dot c = true -> Chr.is_exp c = false.
Proof. destruct c as [[] [] [] [] [] [] [] []]; cbv; congruence. Qed.

Lemma not_digit_cases (c : ascii) :
  Chr.is_dot c = true \/ Chr.is_sign c = true \/ Chr.is_exp c = true ->
  Chr.is_digit c = false.
Proof.
  intros H. destruct (Chr.is_digit c) eqn:Hd; [|reflexivity].
  rewrite (digit_not_dot c Hd), (digit_not_sign c Hd), (digit_not_exp c Hd) in H.
  destruct H as [H | [H | H]]; discriminate.
Qed.

(** *** The engine against the lexer *)

Lemma span_snd_cons (p : ascii -> bool) (c : ascii) (s : string) :
  p c = true -> snd (span p (String c s)) = snd (span p s).
Proof. intros H. cbn [span]. rewrite H. now destruct (span p s). Qed.

Lemma span_stop (p : ascii -> bool) (c : ascii) (s : string) :
  p c = false -> span p (String c s) = (EmptyString, String c s).
Proof. intros H. cbn [span]. now rewrite H. Qed.

(** Greedy [c*]: when the continuation accepts what is left after the
    longest run, that is the answer. *)
Lemma star_cls_greedy {A : Type} (p : ascii -> bool) (k : string -> option A)
    (s : string) (x : A) :
  k (snd (span p s)) = Some x -> star_cls p s k = Some x.
Proof.
  induction s as [|c s IH]; [auto|].
  cbn [star_cls]. destruct (p c) eqn:Hc.
  - rewrite span_snd_cons by assumption. intros H. now rewrite (IH H).
  - rewrite span_stop by assumption. auto.
Qed.

Definition exponent_re : regex :=
  Opt (Cat (Cls Chr.is_exp) (Cat (Opt (Cls Chr.is_sign)) (PlusC Chr.is_digit))).

(** The continuations of the pattern, innermost first. *)
Definition k4 (s : string) : option string := m exponent_re s (fun rest => Some rest).
Definition k3 (s : string) : option string := m (PlusC Chr.is_digit) s k4.
Definition k2 (s : string) : option string := m (Opt (Cls Chr.is_dot)) s k3.
Definition k1 (s : string) : option string := star_cls Chr.is_digit s k2.

Lemma match_here_unfold (s : string) :
  match_here Poll.number_re s = m (Opt (Cls Chr.is_sign)) s k1.
Proof. reflexivity. Qed.

Lemma plus_digits (s : string) :
  m (PlusC Chr.is_digit) s (fun rest => Some rest) = after_digits1 s.
Proof.
  unfold after_digits1. destruct s as [|c s]; [reflexivity|].
  cbn [m]. destruct (Chr.is_digit c) eqn:Hc.
  - rewrite (star_cls_greedy Chr.is_digit (fun rest => Some rest) s
               (snd (span Chr.is_digit s)) eq_refl).
    cbn [span]. rewrite Hc. now destruct (span Chr.is_digit s).
  - now rewrite span_stop.
Qed.

Lemma after_digits1_sign (c : ascii) (s : string) :
  Chr.is_sign c = true -> after_digits1 (String c s) = None.
Proof.
  intros H. unfold after_digits1.
  rewrite span_stop; [reflexivity | apply not_digit_cases; auto].
Qed.

(** The equations of the engine. *)
Lemma m_Opt {A : Type} (r : regex) (s : string) (k : string -> option A) :
  m (Opt r) s k = match m r s k with Some x => Some x | None => k s end.
Proof. reflexivity. Qed.

Lemma m_Cat {A : Type} (r1 r2 : regex) (s : string) (k : string -> option A) :
  m (Cat r1 r2) s k = m r1 s (fun s' => m r2 s' k).
Proof. reflexivity. Qed.

Lemma m_Cls_cons {A : Type} (p : ascii -> bool) (c : ascii) (s : string)
    (k : string -> option A) :
  m (Cls p) (String c s) k = if p c then k s else None.
Proof. reflexivity. Qed.

Lemma signed_digits (s : string) :
  m (Cat (Opt (Cls Chr.is_sign)) (PlusC Chr.is_digit)) s (fun rest => Some rest)
  = after_digits1 (skip_sign s).
Proof.
  rewrite m_Cat, m_Opt, plus_digits.
  destruct s as [|d s]; [reflexivity|].
  rewrite m_Cls_cons. cbn [skip_sign].
  destruct (Chr.is_sign d) eqn:Hd; [|reflexivity].
  rewrite plus_digits, (after_digits1_sign d s Hd).
  now destruct (after_digits1 s).
Qed.

Lemma k4_spec (s : string) : k4 s = Some (lex_exponent s).
Proof.
  unfold k4, exponent_re, lex_exponent. rewrite m_Opt, m_Cat.
  destruct s as [|c s]; [reflexivity|].
  rewrite m_Cls_cons. destruct (Chr.is_exp c); [|reflexivity].
  rewrite signed_digits. now destruct (after_digits1 (skip_sign s)).
Qed.

Lemma k3_spec (s : string) : k3 s = option_map lex_exponent (after_digits1 s).
Proof.
  unfold k3, after_digits1. destruct s as [|c s]; [reflexivity|].
  cbn [m]. destruct (Chr.is_digit c) eqn:Hc.
  - rewrite (star_cls_greedy _ _ s _ (k4_spec _)).
    cbn [span]. rewrite Hc. now destruct (span Chr.is_digit s).
  - now rewrite span_stop.
Qed.

Lemma k2_spec (s : string) :
  k2 s = match after_fraction s with
         | Some r => Some (lex_exponent r)
         | None => option_map lex_exponent (after_digits1 s)
         end.
Proof.
  unfold k2, after_fraction. cbn [m].
  destruct s as [|c s]; [now rewrite k3_spec|].
  destruct (Chr.is_dot c); rewrite !k3_spec; [|reflexivity].
  now destruct (after_digits1 s).
Qed.

Lemma after_fraction_digit (c : ascii) (s : string) :
  Chr.is_digit c = true -> after_fraction (String c s) = None.
Proof. intros H. cbn [after_fraction]. now rewrite (digit_not_dot c H). Qed.

Lemma k1_spec (s : string) : k1 s = option_map lex_exponent (lex_mantissa s).
Proof.
  unfold k1. induction s as [|c s IH]; [reflexivity|].
  cbn [star_cls]. destruct (Chr.is_digit c) eqn:Hc.
  - rewrite IH, k2_spec, (after_fraction_digit c s Hc).
    unfold lex_mantissa, after_digits1. cbn [span]. rewrite Hc.
    destruct (span Chr.is_digit s) as [ip s2].
    destruct (after_fraction s2); [reflexivity|].
    now destruct ip.
  - rewrite k2_spec. unfold lex_mantissa, after_digits1.
    rewrite span_stop by assumption.
    now destruct (after_fraction (String c s)).
Qed.

Lemma lex_mantissa_sign (c : ascii) (s : string) :
  Chr.is_sign c = true -> lex_mantissa (String c s) = None.
Proof.
  intros H. unfold lex_mantissa.
  rewrite span_stop by (apply not_digit_cases; auto).
  cbn [after_fraction].
  destruct (Chr.is_dot c) eqn:Hd; [|reflexivity].
  rewrite (dot_not_sign c Hd) in H. discriminate.
Qed.

(** The engine, run on the extractor's pattern at the head of a text,
    computes the lexer. *)
Lemma match_here_lex (s : string) : match_here Poll.number_re s = lex s.
Proof.
  rewrite match_here_unfold. unfold lex. cbn [m].
  destruct s as [|c s]; [now rewrite k1_spec|].
  cbn [skip_sign]. destruct (Chr.is_sign c) eqn:Hc; rewrite !k1_spec; [|reflexivity].
  rewrite (lex_mantissa_sign c s Hc).
  now destruct (lex_mantissa s).
Qed.

(** *** The lexer against the language *)

Lemma span_eq (p : ascii -> bool) (s : string) :
  s = fst (span p s) ++ snd (span p s).
Proof.
  induction s as [|c s IH]; [reflexivity|].
  cbn [span]. destruct (p c); [|reflexivity].
  destruct (span p s) as [a b]. cbn in *. now rewrite <- IH.
Qed.

Lemma span_all (p : ascii -> bool) (s : string) :
  Str.all_chars p (fst (span p s)) = true.
Proof.
  induction s as [|c s IH]; [reflexivity|].
  cbn [span]. destruct (p c) eqn:Hc; [|reflexivity].
  destruct (span p s) as [a b]. cbn in *. now rewrite Hc.
Qed.

Lemma span_app (p : ascii -> bool) (a b : string) :
  Str.all_chars p a = true ->
  span p (a ++ b) = (a ++ fst (span p b), snd (span p b)).
Proof.
  induction a as [|c a IH]; cbn [Str.all_chars append span].
  - intros _. now destruct (span p b).
  - intros H. apply andb_prop in H as [Hc Ha]. now rewrite Hc, (IH Ha).
Qed.

Lemma span_snd_length (p : ascii -> bool) (s : string) :
  (String.length (snd (span p s)) <= String.length s)%nat.
Proof.
  rewrite (span_eq p s) at 2. rewrite Str.length_append. lia.
Qed.

Lemma all_chars_app (p : ascii -> bool) (a b : string) :
  Str.all_chars p (a ++ b) = Str.all_chars p a && Str.all_chars p b.
Proof.
  induction a as [|c a IH]; [reflexivity|].
  cbn [append Str.all_chars]. now rewrite IH, andb_assoc.
Qed.

Lemma after_digits1_inv (s r : string) :
  after_digits1 s = Some r ->
  exists d, digits d /\ d <> "" /\ s = d ++ r.
Proof.
  unfold after_digits1. intros H.
  pose proof (span_eq Chr.is_digit s) as Heq.
  pose proof (span_all Chr.is_digit s) as Hall.
  destruct (span Chr.is_digit s) as [[|c d] r0]; [discriminate|].
  injection H as <-. exists (String c d). cbn in *. repeat split; auto.
  discriminate.
Qed.

Lemma after_digits1_app (d b : string) :
  digits d -> d <> "" ->
  after_digits1 (d ++ b) = Some (snd (span Chr.is_digit b)).
Proof.
  intros Hd Hne. unfold after_digits1. rewrite (span_app _ _ _ Hd).
  destruct d; [contradiction | reflexivity].
Qed.

Lemma skip_sign_inv (s : string) :
  exists sg, sign_opt sg /\ s = sg ++ skip_sign s.
Proof.
  destruct s as [|c s]; [exists ""; split; [now left | reflexivity]|].
  cbn [skip_sign]. destruct (Chr.is_sign c) eqn:Hc.
  - exists (String c ""). split; [right; now exists c | reflexivity].
  - exists "". split; [now left | reflexivity].
Qed.

(** The first character of a text is not a sign. *)
Definition unsigned (s : string) : Prop :=
  match s with
  | String c _ => Chr.is_sign c = false
  | EmptyString => True
  end.

Lemma skip_sign_app (sg y : string) :
  sign_opt sg -> unsigned y -> skip_sign (sg ++ y) = y.
Proof.
  intros [-> | (c & Hc & ->)] Hy.
  - destruct y as [|d y]; [reflexivity|]. cbn in *. now rewrite Hy.
  - cbn. now rewrite Hc.
Qed.

Lemma digits_unsigned (d b : string) : digits d -> d <> "" -> unsigned (d ++ b).
Proof.
  destruct d as [|c d]; [contradiction|]. intros H _. cbn in *.
  apply andb_prop in H as [Hc _]. now apply digit_not_sign.
Qed.

Lemma lex_exponent_inv (s : string) :
  exists ex, exponent_opt ex /\ s = ex ++ lex_exponent s.
Proof.
  assert (Hnone : exists ex, exponent_opt ex /\ s = ex ++ s).
  { exists "". split; [now left | reflexivity]. }
  unfold lex_exponent. destruct s as [|e s]; [exact Hnone|].
  destruct (Chr.is_exp e) eqn:He; [|exact Hnone].
  destruct (after_digits1 (skip_sign s)) as [r|] eqn:Hd; [|exact Hnone].
  destruct (after_digits1_inv _ _ Hd) as (ds & Hds & Hne & Heq).
  destruct (skip_sign_inv s) as (sg & Hsg & Hs).
  exists (String e (sg ++ ds)). split.
  - right. exists e, sg, ds. auto.
  - cbn [append]. f_equal. rewrite Str.append_assoc, <- Heq. exact Hs.
Qed.

Lemma lex_exponent_length (s : string) :
  (String.length (lex_exponent s) <= String.length s)%nat.
Proof.
  destruct (lex_exponent_inv s) as (ex & _ & Heq).
  rewrite Heq at 2. rewrite Str.length_append. lia.
Qed.

Lemma lex_exponent_app (ex b : string) :
  exponent_opt ex ->
  (String.length (lex_exponent (ex ++ b)) <= String.length b)%nat.
Proof.
  intros [-> | (e & sg & ds & He & Hsg & Hds & Hne & ->)].
  - apply lex_exponent_length.
  - cbn [append lex_exponent]. rewrite He, Str.append_assoc.
    rewrite (skip_sign_app sg (ds ++ b) Hsg (digits_unsigned ds b Hds Hne)).
    rewrite (after_digits1_app ds b Hds Hne).
    apply span_snd_length.
Qed.

Lemma exponent_head (ex b : string) :
  exponent_opt ex -> ex <> "" ->
  exists e t, Chr.is_exp e = true /\ ex ++ b = String e t.
Proof.
  intros [-> | (e & sg & ds & He & _ & _ & _ & ->)] Hne; [contradiction|].
  exists e, ((sg ++ ds) ++ b). auto.
Qed.

Lemma lex_exponent_after_digits (ex b : string) :
  exponent_opt ex ->
  (String.length (lex_exponent (snd (span Chr.is_digit (ex ++ b))))
   <= String.length b)%nat.
Proof.
  intros Hex. destruct ex as [|e0 ex0] eqn:Eex.
  - cbn [append]. etransitivity; [apply lex_exponent_length | apply span_snd_length].
  - destruct (exponent_head _ b Hex) as (e & t & He & Heq); [discriminate|].
    rewrite Heq, span_stop by (apply not_digit_cases; auto).
    cbn [snd]. rewrite <- Heq. now apply lex_exponent_app.
Qed.

Lemma after_fraction_inv (s r : string) :
  after_fraction s = Some r ->
  exists c fp, Chr.is_dot c = true /\ digits fp /\ fp <> "" /\ s = String c (fp ++ r).
Proof.
  unfold after_fraction. destruct s as [|c s]; [discriminate|].
  destruct (Chr.is_dot c) eqn:Hc; [|discriminate].
  intros H. destruct (after_digits1_inv _ _ H) as (fp & Hfp & Hne & ->).
  now exists c, fp.
Qed.

Lemma lex_mantissa_inv (s r : string) :
  lex_mantissa s = Some r ->
  exists ip dt fp,
    digits ip /\ dot_opt dt /\ digits fp /\ fp <> "" /\ s = ip ++ dt ++ fp ++ r.
Proof.
  unfold lex_mantissa.
  pose proof (span_eq Chr.is_digit s) as Heq.
  pose proof (span_all Chr.is_digit s) as Hall.
  destruct (span Chr.is_digit s) as [ip s2]. cbn [fst snd] in *.
  destruct (after_fraction s2) as [s3|] eqn:Hf.
  - intros H. injection H as <-.
    destruct (after_fraction_inv _ _ Hf) as (c & fp & Hc & Hfp & Hne & ->).
    exists ip, (String c ""), fp. repeat split; auto.
    right. now exists c.
  - destruct ip as [|c ip]; [discriminate|].
    intros H. injection H as <-.
    exists "", "", (String c ip). repeat split; auto.
    + now left.
    + discriminate.
Qed.

(** What the lexer takes from the head of a text is a literal. *)
Lemma lex_sound (s rest : string) :
  lex s = Some rest -> exists l, literal l /\ s = l ++ rest.
Proof.
  unfold lex. destruct (lex_mantissa (skip_sign s)) as [mrest|] eqn:Hm; [|discriminate].
  cbn [option_map]. intros H. injection H as <-.
  destruct (skip_sign_inv s) as (sg & Hsg & Hs).
  destruct (lex_mantissa_inv _ _ Hm) as (ip & dt & fp & Hip & Hdt & Hfp & Hne & Heq).
  destruct (lex_exponent_inv mrest) as (ex & Hex & Hr).
  exists (sg ++ ip ++ dt ++ fp ++ ex). split.
  - exists sg, ip, dt, fp, ex. repeat split; auto.
  - rewrite !Str.append_assoc, <- Hr, <- Heq. exact Hs.
Qed.

Lemma after_fraction_exp (e : ascii) (t : string) :
  Chr.is_exp e = true -> after_fraction (String e t) = None.
Proof.
  intros He. cbn [after_fraction].
  destruct (Chr.is_dot e) eqn:Hd; [|reflexivity].
  rewrite (dot_not_exp e Hd) in He. discriminate.
Qed.

Lemma lex_mantissa_app (ip dt fp ex b : string) :
  digits ip -> dot_opt dt -> digits fp -> fp <> "" -> exponent_opt ex ->
  exists mrest,
    lex_mantissa (ip ++ dt ++ fp ++ ex ++ b) = Some mrest /\
    (String.length (lex_exponent mrest) <= String.length b)%nat.
Proof.
  intros Hip [-> | (c & Hc & ->)] Hfp Hne Hex.
  - (* no decimal point: the digits run on into the text *)
    cbn [append]. unfold lex_mantissa.
    rewrite <- !Str.append_assoc, (Str.append_assoc (ip ++ fp)).
    rewrite span_app by (rewrite all_chars_app; now rewrite Hip, Hfp).
    set (r := snd (span Chr.is_digit (ex ++ b))).
    destruct (after_fraction r) as [s3|] eqn:Hf.
    + exists s3. split; [reflexivity|].
      destruct ex as [|e0 ex0] eqn:Eex.
      * destruct (after_fraction_inv _ _ Hf) as (c & fp' & _ & _ & _ & Hr).
        etransitivity; [apply lex_exponent_length|].
        etransitivity; [|apply (span_snd_length Chr.is_digit b)].
        cbn [append] in r. fold r. rewrite Hr. cbn. rewrite Str.length_append. lia.
      * destruct (exponent_head _ b Hex) as (e & t & He & Heq); [discriminate|].
        subst r. rewrite Heq, span_stop in Hf by (apply not_digit_cases; auto).
        cbn [snd] in Hf. now rewrite after_fraction_exp in Hf.
    + destruct ((ip ++ fp) ++ fst (span Chr.is_digit (ex ++ b))) eqn:Hd.
      * destruct ip, fp; try discriminate. contradiction.
      * exists r. split; [reflexivity|]. now apply lex_exponent_after_digits.
  - (* a decimal point ends the first run of digits *)
    cbn [append]. unfold lex_mantissa.
    rewrite (span_app _ _ _ Hip), span_stop by (apply not_digit_cases; auto).
    cbn [fst snd after_fraction]. rewrite Hc.
    rewrite (after_digits1_app fp (ex ++ b) Hfp Hne).
    eexists. split; [reflexivity|]. now apply lex_exponent_after_digits.
Qed.

Lemma mantissa_unsigned (ip dt fp t : string) :
  digits ip -> dot_opt dt -> digits fp -> fp <> "" ->
  unsigned (ip ++ dt ++ fp ++ t).
Proof.
  intros Hip Hdt Hfp Hne.
  destruct ip as [|c ip].
  - destruct Hdt as [-> | (c & Hc & ->)].
    + cbn [append]. now apply digits_unsigned.
    + cbn. now apply dot_not_sign.
  - cbn in *. apply andb_prop in Hip as [Hc _]. now apply digit_not_sign.
Qed.

(** On a text that starts with a literal, the lexer succeeds and takes at
    least that literal. *)
Lemma lex_longest (l b : string) :
  literal l ->
  exists rest, lex (l ++ b) = Some rest /\
               (String.length rest <= String.length b)%nat.
Proof.
  intros (sg & ip & dt & fp & ex & Hsg & Hip & Hdt & Hfp & Hne & Hex & ->).
  unfold lex. rewrite !Str.append_assoc.
  rewrite (skip_sign_app sg _ Hsg (mantissa_unsigned ip dt fp _ Hip Hdt Hfp Hne)).
  destruct (lex_mantissa_app ip dt fp ex b Hip Hdt Hfp Hne Hex) as (mrest & -> & Hlen).
  eexists. split; [reflexivity | exact Hlen].
Qed.

Lemma literal_nonempty (l : string) : literal l -> l <> "".
Proof.
  intros (sg & ip & dt & fp & ex & _ & _ & _ & _ & Hne & _ & ->) H.
  destruct sg; [|discriminate]. destruct ip; [|discriminate].
  destruct dt; [|discriminate]. destruct fp; [contradiction | discriminate].
Qed.

(** *** [exec] and the extraction loop *)

(** A literal [l] found in a text after the gap [g] is the leftmost one,
    and the longest one at its place. *)
Definition leftmost_longest (g l r : string) : Prop :=
  forall g1 l1 r1,
    g ++ l ++ r = g1 ++ l1 ++ r1 -> literal l1 ->
    (String.length g < String.length g1)%nat \/
    (String.length g1 = String.length g /\
     (String.length l1 <= String.length l)%nat).

(** Maximal-munch scanning: the literals of a text, left to right. *)
Inductive tokenizes : string -> list string -> Prop :=
| tokenizes_done (s : string) :
    (forall g l r, s = g ++ l ++ r -> ~ literal l) ->
    tokenizes s []
| tokenizes_next (g l r : string) (ls : list string) :
    literal l ->
    leftmost_longest g l r ->
    tokenizes r ls ->
    tokenizes (g ++ l ++ r) (l :: ls).

Lemma match_here_none (s : string) :
  match_here Poll.number_re s = None ->
  forall l r, s = l ++ r -> ~ literal l.
Proof.
  intros Hnone l r -> Hl. rewrite match_here_lex in Hnone.
  destruct (lex_longest l r Hl) as (rest & Hrest & _). congruence.
Qed.

Lemma match_here_some (s rest : string) :
  match_here Poll.number_re s = Some rest ->
  exists l,
    literal l /\ s = l ++ rest /\
    Str.take (String.length s - String.length rest) s = l /\
    (forall l1 r1, s = l1 ++ r1 -> literal l1 ->
                   (String.length l1 <= String.length l)%nat).
Proof.
  rewrite match_here_lex. intros Hlex.
  destruct (lex_sound s rest Hlex) as (l & Hl & ->).
  exists l. repeat split; auto.
  - rewrite Str.length_append.
    replace (String.length l + String.length rest - String.length rest)%nat
      with (String.length l) by lia.
    apply Str.take_app.
  - intros l1 r1 Heq Hl1.
    destruct (lex_longest l1 r1 Hl1) as (rest1 & Hrest1 & Hlen).
    rewrite <- Heq, Hlex in Hrest1. injection Hrest1 as <-.
    apply (f_equal String.length) in Heq. rewrite !Str.length_append in Heq. lia.
Qed.

Lemma exec_none (s : string) :
  exec Poll.number_re s = None ->
  forall g l r, s = g ++ l ++ r -> ~ literal l.
Proof.
  induction s as [|c s IH]; cbn [exec].
  - destruct (match_here Poll.number_re "") eqn:Hm; [discriminate|].
    intros _ g l r Heq. destruct g; [|discriminate].
    exact (match_here_none _ Hm l r Heq).
  - destruct (match_here Poll.number_re (String c s)) eqn:Hm; [discriminate|].
    intros Hex [|c1 g1] l r Heq.
    + exact (match_here_none _ Hm l r Heq).
    + cbn [append] in Heq. injection Heq as _ Heq. exact (IH Hex g1 l r Heq).
Qed.

Lemma exec_some (s l rest : string) :
  exec Poll.number_re s = Some (l, rest) ->
  exists g, s = g ++ l ++ rest /\ literal l /\ leftmost_longest g l rest.
Proof.
  revert l rest.
  assert (Hhere : forall s l rest rest0,
             match_here Poll.number_re s = Some rest0 ->
             Some (Str.take (String.length s - String.length rest0) s, rest0)
             = Some (l, rest) ->
             exists g, s = g ++ l ++ rest /\ literal l /\ leftmost_longest g l rest).
  { intros s0 l rest rest0 Hm Heq. injection Heq as <- <-.
    destruct (match_here_some _ _ Hm) as (l0 & Hl0 & Hs & -> & Hlong).
    exists "". repeat split; auto.
    intros [|c1 g1] l1 r1 Heq Hl1; [right | left; cbn; lia].
    split; [reflexivity|]. cbn [append] in Heq. rewrite <- Hs in Heq.
    exact (Hlong l1 r1 Heq Hl1). }
  induction s as [|c s IH]; intros l rest; cbn [exec].
  - destruct (match_here Poll.number_re "") eqn:Hm; [|discriminate].
    now apply Hhere.
  - destruct (match_here Poll.number_re (String c s)) eqn:Hm.
    + now apply Hhere.
    + intros Hex. destruct (IH l rest Hex) as (g & Hs & Hl & Hll).
      exists (String c g). repeat split.
      * cbn [append]. now rewrite <- Hs.
      * exact Hl.
      * intros [|c1 g1] l1 r1 Heq Hl1.
        -- exfalso. cbn [append] in Heq.
           refine (match_here_none _ Hm l1 r1 _ Hl1). now rewrite <- Heq, <- Hs.
        -- cbn [append] in Heq. injection Heq as _ Heq.
           destruct (Hll g1 l1 r1 Heq Hl1) as [H | [H1 H2]]; cbn; [left | right]; lia.
Qed.

(** The loop ends within the fuel [parseTextToNumbers] gives it, and what
    it pushes are the values of the tokens of the text. *)
Lemma scan_tokenizes (fuel : nat) (s : string) :
  (String.length s < fuel)%nat ->
  exists lexemes,
    Poll.scan fuel s = Some (map parseFloat lexemes) /\ tokenizes s lexemes.
Proof.
  revert s. induction fuel as [|fuel IH]; intros s Hlen; [lia|].
  cbn [Poll.scan].
  destruct (exec Poll.number_re s) as [[l rest]|] eqn:Hex.
  - destruct (exec_some s l rest Hex) as (g & -> & Hl & Hll).
    destruct (IH rest) as (ls & Hscan & Htok).
    { pose proof (literal_nonempty l Hl).
      rewrite !Str.length_append in Hlen. destruct l; [contradiction|]. cbn in Hlen. lia. }
    exists (l :: ls). split.
    + now rewrite Hscan.
    + now constructor.
  - exists []. split; [reflexivity|]. constructor. now apply exec_none.
Qed.

(** *** The value of a literal *)

(** [true] for the sign [-]. *)
Definition is_minus (sg : string) : bool :=
  match sg with
  | String c _ => Ascii.eqb c "-"
  | EmptyString => false
  end.

(** What a literal is worth is stated in positional notation, apart from
    the way [parseFloat] computes it.  The digit a character writes: *)
Definition numeral (c : ascii) : Z :=
  if Ascii.eqb c "1" then 1
  else if Ascii.eqb c "2" then 2
  else if Ascii.eqb c "3" then 3
  else if Ascii.eqb c "4" then 4
  else if Ascii.eqb c "5" then 5
  else if Ascii.eqb c "6" then 6
  else if Ascii.eqb c "7" then 7
  else if Ascii.eqb c "8" then 8
  else if Ascii.eqb c "9" then 9
  else 0.

(** The whole number a digit string writes: every digit counts the power of
    ten of its place. *)
Fixpoint whole (ds : string) : Z :=
  match ds with
  | String c t => numeral c * 10 ^ Z.of_nat (String.length t) + whole t
  | EmptyString => 0
  end.

(** The fraction a digit string writes after a decimal point: tenths, then
    tenths of tenths. *)
Fixpoint fraction (ds : string) : Q :=
  match ds with
  | String c t => (inject_Z (numeral c) + fraction t) / (10 # 1)
  | EmptyString => 0 # 1
  end.

(** The power of ten an exponent part writes. *)
Definition power_of_ten (ex : string) : Z :=
  match ex with
  | String _ (String c t) =>
      if Ascii.eqb c "-" then - whole t
      else if Ascii.eqb c "+" then whole t
      else whole (String c t)
  | _ => 0
  end.

(** The magnitude of a literal, from its parts: the digits before the
    point as a whole number, those after it as a fraction, times the power
    of ten.  Without a point the two runs of digits are one whole number. *)
Definition magnitude (ip dt fp ex : string) : Q :=
  (match dt with
   | EmptyString => inject_Z (whole (ip ++ fp))
   | _ => inject_Z (whole ip) + fraction fp
   end * (10 # 1) ^ power_of_ten ex)%Q.

Lemma digit_val_numeral (c : ascii) :
  Chr.is_digit c = true -> Chr.digit_val c = numeral c.
Proof. destruct c as [[] [] [] [] [] [] [] []]; cbv; congruence. Qed.

Lemma digits_val_whole (ds : string) (acc : Z) :
  digits ds ->
  digits_val 10 Chr.digit_val acc ds
  = acc * 10 ^ Z.of_nat (String.length ds) + whole ds.
Proof.
  unfold digits. revert acc. induction ds as [|c ds IH]; intros acc H.
  - cbn. lia.
  - cbn [Str.all_chars] in H. apply andb_prop in H as [Hc Hds].
    cbn [digits_val whole String.length]. rewrite (IH _ Hds), (digit_val_numeral c Hc).
    rewrite Nat2Z.inj_succ, Z.pow_succ_r by lia. ring.
Qed.

Lemma whole_app (a b : string) :
  whole (a ++ b) = whole a * 10 ^ Z.of_nat (String.length b) + whole b.
Proof.
  induction a as [|c a IH]; [cbn [append whole]; lia|].
  cbn [append whole]. rewrite IH, Str.length_append, Nat2Z.inj_add, Z.pow_add_r by lia.
  ring.
Qed.

Lemma ten_power (n : nat) : (inject_Z (10 ^ Z.of_nat n) == (10 # 1) ^ Z.of_nat n)%Q.
Proof. apply (Zpower_Qpower 10). lia. Qed.

Lemma ten_power_nonzero (e : Z) : ~ ((10 # 1) ^ e == 0)%Q.
Proof. apply Qpower_not_0. discriminate. Qed.

Lemma fraction_whole (ds : string) :
  (fraction ds == inject_Z (whole ds) / (10 # 1) ^ Z.of_nat (String.length ds))%Q.
Proof.
  induction ds as [|c ds IH]; [reflexivity|].
  cbn [fraction whole String.length].
  rewrite IH, inject_Z_plus, inject_Z_mult, ten_power, Nat2Z.inj_succ.
  unfold Z.succ. rewrite Qpower_plus by discriminate.
  pose proof (ten_power_nonzero (Z.of_nat (String.length ds))).
  change ((10 # 1) ^ 1)%Q with (10 # 1)%Q. field. assumption.
Qed.

(** [scale10] is the multiplication by a power of ten. *)
Lemma scale10_power (m e : Z) : (scale10 m e == inject_Z m * (10 # 1) ^ e)%Q.
Proof.
  unfold scale10. destruct (0 <=? e) eqn:He.
  - apply Z.leb_le in He.
    change ((m * 10 ^ e) # 1)%Q with (inject_Z (m * 10 ^ e)).
    now rewrite inject_Z_mult, (Zpower_Qpower 10 e He).
  - apply Z.leb_gt in He.
    assert (Hp : 0 < 10 ^ (- e)) by (apply Z.pow_pos_nonneg; lia).
    rewrite Qmake_Qdiv, Z2Pos.id by exact Hp.
    rewrite (Zpower_Qpower 10 (- e)) by lia.
    change (inject_Z 10) with (10 # 1)%Q. rewrite Qpower_opp.
    pose proof (ten_power_nonzero e). field. assumption.
Qed.

(** Equal magnitudes round to the same double. *)
Lemma to_double_eq (neg : bool) (p q : Q) :
  (p == q)%Q -> to_double neg p = to_double neg q.
Proof. intros H. unfold to_double. now rewrite (Qred_complete p q H). Qed.

(** No white space starts with a character of the literals. *)
Lemma ws_len_plain (c : ascii) (y : string) :
  Chr.is_space c = false -> (Chr.code c <? 128)%N = true ->
  ws_len (String c y) = 0%nat.
Proof.
  intros Hs Hc. apply N.ltb_lt in Hc. cbn [ws_len]. rewrite Hs.
  destruct y as [|c2 [|c3 y]]; [reflexivity| |].
  - unfold Chr.is_space2. replace (Chr.code c =? 194)%N with false; [reflexivity|].
    symmetry. apply N.eqb_neq. lia.
  - unfold Chr.is_space2, Chr.is_space3.
    replace (Chr.code c =? 194)%N with false by (symmetry; apply N.eqb_neq; lia).
    replace (Chr.code c =? 225)%N with false by (symmetry; apply N.eqb_neq; lia).
    replace (Chr.code c =? 226)%N with false by (symmetry; apply N.eqb_neq; lia).
    replace (Chr.code c =? 227)%N with false by (symmetry; apply N.eqb_neq; lia).
    replace (Chr.code c =? 239)%N with false by (symmetry; apply N.eqb_neq; lia).
    reflexivity.
Qed.

Lemma skip_space_plain (c : ascii) (y : string) :
  Chr.is_space c = false -> (Chr.code c <? 128)%N = true ->
  skip_space (String c y) = String c y.
Proof.
  intros Hs Hc. unfold skip_space. cbn [drop_ws].
  now rewrite (ws_len_plain c y Hs Hc).
Qed.

Lemma sign_plain (c : ascii) :
  Chr.is_sign c = true -> Chr.is_space c = false /\ (Chr.code c <? 128)%N = true.
Proof. destruct c as [[] [] [] [] [] [] [] []]; cbv; intuition congruence. Qed.

Lemma digit_plain (c : ascii) :
  Chr.is_digit c = true -> Chr.is_space c = false /\ (Chr.code c <? 128)%N = true.
Proof. destruct c as [[] [] [] [] [] [] [] []]; cbv; intuition congruence. Qed.

Lemma dot_plain (c : ascii) :
  Chr.is_dot c = true -> Chr.is_space c = false /\ (Chr.code c <? 128)%N = true.
Proof. destruct c as [[] [] [] [] [] [] [] []]; cbv; intuition congruence. Qed.

Lemma read_sign_app (sg y : string) :
  sign_opt sg -> unsigned y -> read_sign (sg ++ y) = (is_minus sg, y).
Proof.
  intros [-> | (c & Hc & ->)] Hy.
  - destruct y as [|d y]; [reflexivity|]. cbn in *.
    unfold Chr.is_sign in Hy. apply orb_false_elim in Hy as [-> ->]. reflexivity.
  - cbn. unfold Chr.is_sign in Hc.
    destruct (Ascii.eqb c "-"); [reflexivity|]. cbn in Hc. now rewrite Hc.
Qed.

Lemma span_exponent (ex : string) :
  exponent_opt ex -> span Chr.is_digit ex = (EmptyString, ex).
Proof.
  intros [-> | (e & sg & ds & He & _ & _ & _ & ->)]; [reflexivity|].
  apply span_stop, not_digit_cases. auto.
Qed.

Lemma fraction_of_exponent (ex : string) :
  exponent_opt ex ->
  match ex with
  | String c s' => if Chr.is_dot c then span Chr.is_digit s' else (EmptyString, ex)
  | EmptyString => (EmptyString, ex)
  end = (EmptyString, ex).
Proof.
  intros [-> | (e & sg & ds & He & _ & _ & _ & ->)]; [reflexivity|].
  destruct (Chr.is_dot e) eqn:Hd; [|reflexivity].
  rewrite (dot_not_exp e Hd) in He. discriminate.
Qed.

Lemma skip_space_literal (sg ip dt fp t : string) :
  sign_opt sg -> digits ip -> dot_opt dt -> digits fp -> fp <> "" ->
  skip_space (sg ++ ip ++ dt ++ fp ++ t) = sg ++ ip ++ dt ++ fp ++ t.
Proof.
  intros Hsg Hip Hdt Hfp Hne.
  destruct Hsg as [-> | (c & Hc & ->)].
  2:{ now apply skip_space_plain; apply sign_plain. }
  destruct ip as [|c ip].
  2:{ cbn in Hip. apply andb_prop in Hip as [Hc _].
      now apply skip_space_plain; apply digit_plain. }
  destruct Hdt as [-> | (c & Hc & ->)].
  2:{ now apply skip_space_plain; apply dot_plain. }
  destruct fp as [|c fp]; [contradiction|].
  cbn in Hfp. apply andb_prop in Hfp as [Hc _].
  now apply skip_space_plain; apply digit_plain.
Qed.

(** A mantissa is not the word [Infinity]. *)
Lemma mantissa_not_infinity (ip dt fp t : string) :
  digits ip -> dot_opt dt -> digits fp -> fp <> "" ->
  String.prefix "Infinity" (ip ++ dt ++ fp ++ t) = false.
Proof.
  intros Hip Hdt Hfp Hne.
  assert (Hhead : forall c y, Chr.is_digit c = true \/ Chr.is_dot c = true ->
                              String.prefix "Infinity" (String c y) = false).
  { intros c y H. cbn [String.prefix].
    destruct (ascii_dec "I" c) as [<- | _]; [|reflexivity].
    destruct H as [H | H]; discriminate H. }
  destruct ip as [|c ip].
  2:{ cbn in Hip. apply andb_prop in Hip as [Hc _]. apply Hhead. now left. }
  destruct Hdt as [-> | (c & Hc & ->)].
  2:{ apply Hhead. now right. }
  destruct fp as [|c fp]; [contradiction|].
  cbn in Hfp. apply andb_prop in Hfp as [Hc _]. apply Hhead. now left.
Qed.

(** The exponent [parseFloat] reads is the power of ten the exponent part
    writes. *)
Lemma read_exponent_power (ex : string) :
  exponent_opt ex -> read_exponent ex = power_of_ten ex.
Proof.
  intros [-> | (e & sg & ds & He & Hsg & Hds & Hne & ->)]; [reflexivity|].
  unfold read_exponent. rewrite He.
  assert (Hu : unsigned ds).
  { destruct ds as [|d ds]; [exact I|]. cbn in Hds |- *.
    apply andb_prop in Hds as [Hd _]. now apply digit_not_sign. }
  rewrite (read_sign_app sg ds Hsg Hu).
  pose proof (span_app Chr.is_digit ds "" Hds) as Hspan.
  cbn [span fst snd] in Hspan. rewrite !Str.append_nil_r in Hspan. rewrite Hspan.
  destruct ds as [|d ds]; [contradiction|].
  rewrite (digits_val_whole (String d ds) 0 Hds), Z.mul_0_l, Z.add_0_l.
  destruct Hsg as [-> | (c & Hc & ->)].
  - cbn [append is_minus apply_sign power_of_ten].
    cbn in Hu. unfold Chr.is_sign in Hu. apply orb_false_elim in Hu as [-> ->].
    reflexivity.
  - cbn [append is_minus power_of_ten]. unfold Chr.is_sign in Hc.
    destruct (Ascii.eqb c "-"); [reflexivity|]. cbn in Hc. now rewrite Hc.
Qed.

(** [parseFloat] reads a literal to its end: the result is the double
    nearest to what the literal is worth, never [NaN]. *)
Lemma parseFloat_literal (sg ip dt fp ex : string) :
  sign_opt sg -> digits ip -> dot_opt dt -> digits fp -> fp <> "" ->
  exponent_opt ex ->
  parseFloat (sg ++ ip ++ dt ++ fp ++ ex)
  = to_double (is_minus sg) (magnitude ip dt fp ex).
Proof.
  intros Hsg Hip Hdt Hfp Hne Hex. unfold parseFloat, magnitude.
  rewrite (skip_space_literal sg ip dt fp ex Hsg Hip Hdt Hfp Hne).
  rewrite (read_sign_app sg _ Hsg (mantissa_unsigned ip dt fp ex Hip Hdt Hfp Hne)).
  rewrite (mantissa_not_infinity ip dt fp ex Hip Hdt Hfp Hne).
  assert (Hall : digits (ip ++ fp)).
  { unfold digits. rewrite all_chars_app. unfold digits in Hip, Hfp. now rewrite Hip, Hfp. }
  assert (Hsome : ip ++ fp <> "").
  { destruct ip; [destruct fp; [contradiction|discriminate]|discriminate]. }
  destruct Hdt as [-> | (c & Hc & ->)].
  - cbn [append]. rewrite <- Str.append_assoc.
    rewrite span_app by exact Hall.
    rewrite (span_exponent ex Hex). cbn [fst snd].
    rewrite (fraction_of_exponent ex Hex), !Str.append_nil_r.
    destruct (ip ++ fp) as [|a ds] eqn:Hd; [contradiction|].
    rewrite <- Hd in Hall |- *.
    apply to_double_eq.
    rewrite scale10_power, (digits_val_whole _ 0 Hall), (read_exponent_power ex Hex).
    cbn [String.length Z.of_nat]. rewrite Z.sub_0_r, Z.mul_0_l, Z.add_0_l. reflexivity.
  - cbn [append]. rewrite (span_app _ _ _ Hip).
    rewrite span_stop by (apply not_digit_cases; auto).
    cbn [fst snd]. rewrite Hc, (span_app _ _ _ Hfp), (span_exponent ex Hex).
    cbn [fst snd]. rewrite !Str.append_nil_r.
    destruct (ip ++ fp) as [|a ds] eqn:Hd; [contradiction|].
    rewrite <- Hd in Hall |- *.
    apply to_double_eq.
    rewrite scale10_power, (digits_val_whole _ 0 Hall), (read_exponent_power ex Hex).
    rewrite Z.mul_0_l, Z.add_0_l, whole_app, fraction_whole.
    rewrite inject_Z_plus, inject_Z_mult, ten_power.
    unfold Z.sub. rewrite Qpower_plus by discriminate. rewrite Qpower_opp.
    pose proof (ten_power_nonzero (Z.of_nat (String.length fp))).
    field. assumption.
Qed.

(** The literal [l] is worth the magnitude [q] under the sign [neg], for
    some reading of its parts. *)
Definition denotes (l : string) (neg : bool) (q : Q) : Prop :=
  exists sg ip dt fp ex,
    sign_opt sg /\ digits ip /\ dot_opt dt /\ digits fp /\ fp <> "" /\
    exponent_opt ex /\
    l = sg ++ ip ++ dt ++ fp ++ ex /\
    neg = is_minus sg /\ q = magnitude ip dt fp ex.

Lemma parseFloat_denotes (l : string) :
  literal l -> exists neg q, denotes l neg q /\ parseFloat l = to_double neg q.
Proof.
  intros (sg & ip & dt & fp & ex & Hsg & Hip & Hdt & Hfp & Hne & Hex & ->).
  exists (is_minus sg), (magnitude ip dt fp ex). split.
  - exists sg, ip, dt, fp, ex. repeat split; auto.
  - now apply parseFloat_literal.
Qed.

Lemma tokenizes_literals (s : string) (ls : list string) :
  tokenizes s ls -> Forall literal ls.
Proof. induction 1; constructor; auto. Qed.

End Lexer.

(** * Traces *)

Module IoSpec.
Import Io.

Lemma count_app (p : event -> bool) (a b : list event) :
  count p (a ++ b) = (count p a + count p b)%nat.
Proof. unfold count. now rewrite filter_app, length_app. Qed.

Lemma writes_app (a b : list event) : writes (a ++ b) = (writes a ++ writes b)%list.
Proof.
  induction a as [|e a IH]; [reflexivity|].
  destruct e; simpl; now rewrite ?IH.
Qed.

End IoSpec.

(** * Properties of the poll-to-stream synthesizer *)

Module PollSpec.
Import Io Poll IoSpec.

(** C4.  For every text, the extractor returns the values of the numeric
    literals of the text (optional sign, digits, optional decimal point,
    digits, optional exponent) found by maximal-munch scanning from left to
    right: each token is the leftmost literal of the text that is left, and
    the longest one at its place, and the number pushed for it is the
    double nearest to what that literal is worth in positional notation,
    with the sign of the literal.  On ["-3.5e2 foo 10"] the result is
    [[-350, 10]]; a literal beyond the range of doubles gives [Infinity],
    and one between two doubles the nearer of them. *)
Theorem extractor_leftmost_longest :
  (forall text : string,
      exists lexemes,
        Lexer.tokenizes text lexemes /\
        parseTextToNumbers text = map Js.parseFloat lexemes /\
        Forall (fun l => exists neg q,
                           Lexer.denotes l neg q /\
                           Js.parseFloat l = Js.to_double neg q)
               lexemes)
  /\
  parseTextToNumbers "-3.5e2 foo 10" = [Js.Num (-350 # 1); Js.Num (10 # 1)]
  /\
  parseTextToNumbers "1e400, 9007199254740993 and -0"
  = [Js.Inf false; Js.Num (9007199254740992 # 1); Js.NegZero].
Proof.
  split; [|split; vm_compute; reflexivity].
  intros text. unfold parseTextToNumbers.
  destruct (Lexer.scan_tokenizes (S (String.length text)) text) as (ls & Hscan & Htok);
    [lia|].
  exists ls. rewrite Hscan. repeat split; auto.
  eapply Forall_impl; [|exact (Lexer.tokenizes_literals _ _ Htok)].
  intros l Hl. now apply Lexer.parseFloat_denotes.
Qed.

(** An upstream answer that is not a success. *)
Definition server_error : response :=
  {| status := 500; content_type := Some "text/plain";
     json_body := Throws "Unexpected token I in JSON at position 0";
     text_body := Ok "Internal Server Error" |}.

(** A chunk that is some text followed by [frame_end]. *)
Definition closed_by_frame_end (c : string) : Prop :=
  exists body, c = body ++ frame_end.

Lemma closed_by_frame_end_app (a b : string) :
  closed_by_frame_end b -> closed_by_frame_end (a ++ b).
Proof.
  intros [body ->]. exists (a ++ body). now rewrite Str.append_assoc.
Qed.

Lemma frame_end_closed : closed_by_frame_end frame_end.
Proof. now exists "". Qed.

Lemma closed_by_frame_end_cons (x : ascii) (b : string) :
  closed_by_frame_end b -> closed_by_frame_end (String x b).
Proof. intros [body ->]. now exists (String x body). Qed.

Ltac frames :=
  first [ exact frame_end_closed
        | apply closed_by_frame_end_cons; frames
        | apply closed_by_frame_end_app; frames ].

Lemma closed_by_frame_end_ends (c : string) :
  closed_by_frame_end c ->
  Str.ends_with c frame_end = true /\ Str.ends_with c blank_line = false.
Proof.
  intros [body ->]. split.
  - apply Str.ends_with_app.
  - rewrite Str.ends_with_app_l by (simpl; lia). reflexivity.
Qed.

Section WithPlatform.

Variable JSON_stringify : json -> string.

Lemma on_response_closed (r : response) (frame : string) :
  on_response JSON_stringify r = Ok frame -> closed_by_frame_end frame.
Proof.
  unfold on_response.
  destruct (negb (ok r)).
  { intros H; injection H as <-. frames. }
  destruct (Str.includes _ _).
  - destruct (json_body r) as [j|e]; [|discriminate].
    destruct (isArray j).
    { intros H; injection H as <-. frames. }
    destruct (get_samples j) as [[smp|]|e]; [| |discriminate].
    + destruct (isArray smp); intros H; injection H as <-; frames.
    + intros H; injection H as <-. frames.
  - destruct (text_body r) as [txt|e]; [|discriminate].
    destruct (_ =? _)%nat; intros H; injection H as <-; frames.
Qed.

(** Every event of one iteration is a log line or a written chunk, and a
    written chunk is closed by [frame_end]. *)
Lemma iteration_events (o : result response) :
  Forall (fun e =>
            match e with
            | Write c => closed_by_frame_end c
            | Log _ => True
            | _ => False
            end) (iteration JSON_stringify o).
Proof.
  assert (Herr : forall msg,
             Forall (fun e => match e with
                              | Write c => closed_by_frame_end c
                              | Log _ => True
                              | _ => False
                              end) (on_error msg)).
  { intros msg. unfold on_error. repeat constructor. frames. }
  unfold iteration. destruct o as [r|e]; [|apply Herr].
  destruct (on_response JSON_stringify r) as [frame|e] eqn:E; [|apply Herr].
  repeat constructor. eapply on_response_closed; eauto.
Qed.

(** C1 (the code as written).  Whatever the upstream answers, every chunk
    that one poll iteration writes to the client ends with the four
    characters backslash, n, backslash, n, and therefore does not end with
    a blank line (two line feeds).  For an upstream that answers with
    status 500 the chunk is [: remote status 500] followed by those four
    characters. *)
Theorem frames_not_closed_by_blank_line :
  (forall o : result response,
      Forall (fun e =>
                match e with
                | Write c =>
                    Str.ends_with c frame_end = true /\
                    Str.ends_with c blank_line = false
                | _ => True
                end) (iteration JSON_stringify o))
  /\
  iteration JSON_stringify (Ok server_error)
  = [Write (": remote status 500" ++ frame_end)]
  /\
  String.length frame_end = 4%nat.
Proof.
  split; [|split; reflexivity].
  intros o. eapply Forall_impl; [|apply iteration_events].
  intros [] H; try exact I. now apply closed_by_frame_end_ends.
Qed.

(** *** The loop, step by step *)


(** The state after the body of the loop: [fetch], the optional body read,
    the write. *)
Definition after_body (w : world) (remote : string) (s : state) : state :=
  let o := fetch_result w (fetches s) in
  let s1 := await w (fetched (emit [Fetch remote] s)) in
  let s2 := if reads_body o then await w s1 else s1 in
  emit (iteration JSON_stringify o) s2.

Lemma step_loop_head (w : world) (remote : string) (interval : Z) (s : state) :
  at_ s = LoopHead -> stopped s = false ->
  step JSON_stringify w remote interval s
  = goto (Sleeping (now (after_body w remote s))) (after_body w remote s).
Proof. intros Hat Hst. unfold step. now rewrite Hat, Hst. Qed.

Lemma after_body_trace (w : world) (remote : string) (s : state) :
  trace (after_body w remote s)
  = (trace s ++ [Fetch remote]
       ++ iteration JSON_stringify (fetch_result w (fetches s)))%list.
Proof.
  unfold after_body. simpl.
  destruct (reads_body _); simpl; now rewrite <- app_assoc.
Qed.

Lemma after_body_fetches (w : world) (remote : string) (s : state) :
  fetches (after_body w remote s) = S (fetches s).
Proof. unfold after_body. simpl. now destruct (reads_body _). Qed.

(** The chunk one iteration writes. *)
Definition frame_of (o : result response) : string :=
  match o with
  | Throws e => ": poll error " ++ e ++ frame_end
  | Ok r =>
      match on_response JSON_stringify r with
      | Ok frame => frame
      | Throws e => ": poll error " ++ e ++ frame_end
      end
  end.

Lemma iteration_writes (o : result response) :
  writes (iteration JSON_stringify o) = [frame_of o].
Proof.
  unfold iteration, frame_of. destruct o as [r|e]; [|reflexivity].
  now destruct (on_response JSON_stringify r).
Qed.

Lemma run_add (w : world) (remote : string) (interval : Z) (a b : nat) (s : state) :
  run JSON_stringify w remote interval (a + b) s
  = run JSON_stringify w remote interval b (run JSON_stringify w remote interval a s).
Proof. revert s; induction a as [|a IH]; intros s; simpl; [reflexivity | apply IH]. Qed.

Lemma await_stopped (w : world) (s : state) :
  close_at w = None -> stopped (await w s) = stopped s.
Proof. intros H. unfold await, closes; simpl. rewrite H. apply orb_false_r. Qed.

Lemma after_body_stopped (w : world) (remote : string) (s : state) :
  close_at w = None -> stopped (after_body w remote s) = stopped s.
Proof.
  intros H. unfold after_body. cbn [stopped emit].
  destruct (reads_body _); rewrite ?await_stopped by assumption; reflexivity.
Qed.

(** While the client stays, the inner sleep loop comes back to the loop
    test: every [await] lets time pass. *)
Lemma sleep_terminates (w : world) (remote : string) (interval : Z) :
  close_at w = None ->
  (forall k, 1 <= await_ms w k) ->
  forall (budget : nat) (s : state) (start : Z),
    at_ s = Sleeping start -> stopped s = false ->
    interval - (now s - start) <= Z.of_nat budget ->
    exists k,
      let s' := run JSON_stringify w remote interval k s in
      at_ s' = LoopHead /\ stopped s' = false /\ fetches s' = fetches s /\
      writes (trace s') = writes (trace s).
Proof.
  intros Hopen Hclock budget.
  induction budget as [|budget IH]; intros s start Hat Hst Hle.
  - exists 1%nat. cbn [run]. unfold step. rewrite Hat, Hst.
    replace (now s - start <? interval) with false
      by (symmetry; apply Z.ltb_ge; lia).
    cbn. auto.
  - destruct (Z.ltb_spec (now s - start) interval) as [Hlt|Hge].
    + destruct (IH (await w (emit [Timer 50] s)) start) as [k Hk].
      * exact Hat.
      * rewrite await_stopped by assumption. exact Hst.
      * cbn [now await emit awaits]. specialize (Hclock (awaits s)). lia.
      * assert (Hstep : step JSON_stringify w remote interval s
                          = await w (emit [Timer 50] s)).
        { unfold step. rewrite Hat, Hst.
          apply Z.ltb_lt in Hlt. now rewrite Hlt. }
        exists (S k). cbn [run]. rewrite Hstep.
        destruct Hk as (H1 & H2 & H3 & H4). repeat split; try assumption.
        rewrite H4. cbn [trace await emit]. rewrite writes_app. simpl.
        apply app_nil_r.
    + exists 1%nat. cbn [run]. unfold step. rewrite Hat, Hst.
      apply Z.ltb_ge in Hge. rewrite Hge. cbn. auto.
Qed.

(** While the client stays, the n-th loop test is reached, with one chunk
    written for each of the n fetches made. *)
Lemma loop_keeps_polling (w : world) (remote : string) (interval : Z) :
  close_at w = None ->
  (forall k, 1 <= await_ms w k) ->
  forall n : nat,
    exists steps,
      let s := run JSON_stringify w remote interval steps init in
      at_ s = LoopHead /\ stopped s = false /\ fetches s = n /\
      writes (trace s) = map (fun i => frame_of (fetch_result w i)) (seq 0 n).
Proof.
  intros Hopen Hclock n. induction n as [|n IH].
  - exists 0%nat. cbn. auto.
  - destruct IH as (steps & Hat & Hst & Hf & Hw).
    set (s := run JSON_stringify w remote interval steps init) in *.
    set (b := after_body w remote s).
    destruct (sleep_terminates w remote interval Hopen Hclock
                (Z.to_nat interval) (goto (Sleeping (now b)) b) (now b))
      as (k & H1 & H2 & H3 & H4).
    + reflexivity.
    + cbn [stopped goto]. subst b. now rewrite after_body_stopped.
    + cbn [now goto]. lia.
    + exists (steps + S k)%nat. rewrite run_add. fold s. cbn [run].
      rewrite (step_loop_head w remote interval s) by assumption. fold b.
      repeat split; try assumption.
      * rewrite H3. cbn [fetches goto]. subst b.
        rewrite after_body_fetches. now rewrite Hf.
      * rewrite H4. cbn [trace goto]. subst b.
        rewrite after_body_trace, !writes_app, iteration_writes, Hw, Hf.
        rewrite seq_S, map_app. reflexivity.
Qed.

(** An upstream answer that is a JSON array. *)
Definition array_response (r : response) (items : list json) : Prop :=
  ok r = true /\
  Str.includes (header_or_empty (content_type r)) "application/json" = true /\
  json_body r = Ok (JArr items).

Lemma array_response_frame (r : response) (items : list json) :
  array_response r items ->
  frame_of (Ok r) = "data: " ++ JSON_stringify (JArr items) ++ frame_end.
Proof.
  intros (Hok & Hinc & Hj).
  unfold frame_of, on_response. now rewrite Hok, Hinc, Hj.
Qed.

(** The frames of an upstream that alternates between the arrays [arrays]
    and failures with the messages [errors]. *)
Definition alternating_frame (arrays : nat -> list json) (errors : nat -> string)
    (i : nat) : string :=
  if Nat.even i
  then "data: " ++ JSON_stringify (JArr (arrays (Nat.div2 i))) ++ frame_end
  else ": poll error " ++ errors (Nat.div2 i) ++ frame_end.

(** C7.  (a) A fetch that fails makes the iteration log the error, write
    a comment chunk reporting it, and go on to the sleep of that
    iteration.  (b) The loop is only left once [stopped] is set.
    (c) While the client stays and time passes at every [await], an
    upstream that alternates between JSON arrays and failures yields, for
    every n, a run whose first n written chunks alternate between the data
    chunk of the array and the comment chunk of the failure, and which is
    back at the loop test, not stopped. *)
Theorem failed_poll_does_not_stop_the_loop
    (w : world) (remote : string) (interval : Z) :
  (forall (s : state) (msg : string),
      at_ s = LoopHead -> stopped s = false ->
      fetch_result w (fetches s) = Throws msg ->
      let s' := step JSON_stringify w remote interval s in
      trace s' = (trace s ++ [Fetch remote; Log ("Poll error " ++ msg);
                              Write (": poll error " ++ msg ++ frame_end)])%list /\
      at_ s' = Sleeping (now s'))
  /\
  (forall s : state,
      at_ (step JSON_stringify w remote interval s) = Exited ->
      at_ s = Exited \/ stopped s = true)
  /\
  (close_at w = None ->
   (forall k, 1 <= await_ms w k) ->
   forall (arrays : nat -> list json) (errors : nat -> string),
     (forall i, (exists r, fetch_result w (2 * i) = Ok r /\ array_response r (arrays i)) /\
                fetch_result w (2 * i + 1) = Throws (errors i)) ->
     forall n : nat,
       exists steps,
         let s := run JSON_stringify w remote interval steps init in
         at_ s = LoopHead /\ stopped s = false /\ fetches s = n /\
         writes (trace s) = map (alternating_frame arrays errors) (seq 0 n)).
Proof.
  split; [|split].
  - intros s msg Hat Hst Hf. cbn zeta.
    rewrite step_loop_head by assumption. cbn [trace goto at_ now].
    rewrite after_body_trace, Hf. split; reflexivity.
  - intros s H. unfold step in H.
    destruct (at_ s) eqn:Hat; [| |now left].
    + destruct (stopped s); [now right | discriminate].
    + destruct (negb (stopped s) && _); cbn in H; rewrite ?Hat in H; discriminate.
  - intros Hopen Hclock arrays errors Halt n.
    destruct (loop_keeps_polling w remote interval Hopen Hclock n)
      as (steps & Hat & Hst & Hf & Hw).
    exists steps. repeat split; try assumption.
    rewrite Hw. apply map_ext. intros i. unfold alternating_frame.
    destruct (Nat.even i) eqn:Hev.
    + apply Nat.even_spec in Hev as [j ->].
      destruct (Halt j) as [(r & -> & Hr) _].
      rewrite (array_response_frame r _ Hr).
      replace (Nat.div2 (2 * j)) with j; [reflexivity|].
      symmetry. rewrite Nat.div2_div, Nat.mul_comm. apply Nat.div_mul. lia.
    + assert (Hodd : Nat.odd i = true) by (unfold Nat.odd; now rewrite Hev).
      apply Nat.odd_spec in Hodd as [j ->].
      destruct (Halt j) as [_ ->].
      replace (Nat.div2 (2 * j + 1)) with j; [reflexivity|].
      symmetry. rewrite Nat.div2_div.
      rewrite Nat.add_comm, Nat.mul_comm, Nat.div_add by lia. reflexivity.
Qed.

(** C8.  For a successful response that is not JSON and in whose text the
    extractor finds no number, the iteration writes exactly one chunk,
    [data: {"b64": "<b>"}] followed by [frame_end], where [<b>] is the
    base64 encoding of the text: it consists of alphabet and padding
    characters only, and decoding it gives back the text. *)
Theorem b64_frame_round_trip (r : response) (txt : string) :
  ok r = true ->
  Str.includes (header_or_empty (content_type r)) "application/json" = false ->
  text_body r = Ok txt ->
  parseTextToNumbers txt = [] ->
  iteration JSON_stringify (Ok r)
  = [Write ("data: {" ++ quote ++ "b64" ++ quote ++ ": " ++ quote
              ++ Js.base64_encode txt ++ quote ++ "}" ++ frame_end)]
  /\ Str.all_chars JsSpec.base64_char (Js.base64_encode txt) = true
  /\ Js.base64_decode (Js.base64_encode txt) = Some txt.
Proof.
  intros Hok Hct Htxt Hnone. split; [|split].
  - unfold iteration, on_response. now rewrite Hok, Hct, Htxt, Hnone.
  - apply JsSpec.base64_encode_chars.
  - apply JsSpec.base64_round_trip.
Qed.

(** With a whole number of milliseconds for interval, the loop of the
    handler is [step]. *)
Lemma loop_step_whole (w : world) (remote : string) (interval : Z) (s : state) :
  loop_step JSON_stringify w remote (Js.Num (inject_Z interval)) s
  = step JSON_stringify w remote interval s.
Proof.
  unfold loop_step, step. destruct (at_ s); try reflexivity.
  unfold Js.lt_int. cbn [inject_Z Qnum Qden]. now rewrite Z.mul_1_r.
Qed.


Lemma loop_step_loop_head (w : world) (remote : string) (interval : Js.number)
    (s : state) :
  at_ s = LoopHead -> stopped s = false ->
  loop_step JSON_stringify w remote interval s
  = goto (Sleeping (now (after_body w remote s))) (after_body w remote s).
Proof. intros Hat Hst. unfold loop_step. now rewrite Hat, Hst. Qed.




End WithPlatform.

(** The alternating upstream of [Node.flaky], polled every 100 ms: the
    first four chunks. *)
Lemma failed_poll_does_not_stop_the_loop_witness :
  exists steps,
    writes (trace (run Node.JSON_stringify Node.flaky "http://rs.local/data" 100
                       steps init))
    = ["data: [1,2,3]" ++ frame_end; ": poll error network timeout" ++ frame_end;
       "data: [1,2,3]" ++ frame_end; ": poll error network timeout" ++ frame_end].
Proof.
  assert (Halt : forall i,
             (exists r, fetch_result Node.flaky (2 * i) = Ok r /\
                        array_response r
                          [JNum (Js.Num 1); JNum (Js.Num 2); JNum (Js.Num 3)]) /\
             fetch_result Node.flaky (2 * i + 1) = Throws "network timeout").
  { intros i. cbn [fetch_result Node.flaky]. split.
    - rewrite Nat.even_mul. exists Node.array_response.
      split; [reflexivity | repeat split].
    - rewrite Nat.even_add, Nat.even_mul. reflexivity. }
  destruct (proj2 (proj2 (failed_poll_does_not_stop_the_loop Node.JSON_stringify
                            Node.flaky "http://rs.local/data" 100))
              eq_refl (fun _ => ltac:(cbn; lia))
              (fun _ => [JNum (Js.Num 1); JNum (Js.Num 2); JNum (Js.Num 3)])
              (fun _ => "network timeout") Halt 4%nat)
    as (steps & _ & _ & _ & H).
  exists steps. exact H.
Defined.

(** A plain-text upstream body without digits. *)
Definition greeting : response :=
  {| status := 200; content_type := Some "text/plain";
     json_body := Throws "Unexpected token h in JSON at position 0";
     text_body := Ok "hello world" |}.

Lemma b64_frame_round_trip_witness :
  iteration Node.JSON_stringify (Ok greeting)
  = [Write ("data: {" ++ quote ++ "b64" ++ quote ++ ": " ++ quote
              ++ "aGVsbG8gd29ybGQ=" ++ quote ++ "}" ++ frame_end)]
  /\ Str.all_chars JsSpec.base64_char "aGVsbG8gd29ybGQ=" = true
  /\ Js.base64_decode "aGVsbG8gd29ybGQ=" = Some "hello world".
Proof.
  apply (b64_frame_round_trip Node.JSON_stringify greeting "hello world");
    reflexivity.
Defined.


End PollSpec.

(** * Properties of the relay server *)

Module RelaySpec.
Import Io Relay IoSpec.

(** *** The pump *)

Section Pump.

Variable label : string.
Variable w : pump_world.

(** What holds of the pump after any number of turns. *)
Record pump_inv (s : pump_state) : Prop := {
  inv_cancel : count is_cancel (ptrace s) = if cancelled s then 1%nat else 0%nat;
  inv_closed : cancelled s = true ->
               exists c, close_turn w = Some c /\ (c < turn s)%nat;
  inv_end : count is_end (ptrace s) = if running s then 0%nat else 1%nat;
  inv_ended : writableEnded s = negb (running s);
  inv_fetch : count is_fetch (ptrace s) = 0%nat;
  inv_header : forall k v, ~ In (SetHeader k v) (ptrace s)
}.

Lemma pump_init_inv : pump_inv pump_init.
Proof. constructor; cbn; auto; discriminate. Qed.

Lemma closes_spec (k : nat) : closes w k = true <-> close_turn w = Some k.
Proof.
  unfold closes. destruct (close_turn w) as [c|]; [|split; discriminate].
  rewrite Nat.eqb_eq. split; congruence.
Qed.

Lemma not_in_snoc (k v : string) (t : list event) (e : event) :
  ~ In (SetHeader k v) t -> e <> SetHeader k v -> ~ In (SetHeader k v) (t ++ [e]).
Proof.
  intros Ht He Hin. apply in_app_or in Hin as [Hin | [Hin | []]]; auto.
Qed.

Lemma finish_inv (s : pump_state) :
  running s = true -> pump_inv s -> pump_inv (finish s).
Proof.
  intros Hrun [Hc Hcl He Hw Hf Hh].
  constructor; cbn [finish ptrace cancelled running turn writableEnded negb].
  - rewrite count_app, Hc. cbn. lia.
  - exact Hcl.
  - rewrite count_app, He, Hrun. reflexivity.
  - reflexivity.
  - rewrite count_app, Hf. reflexivity.
  - intros k v. apply not_in_snoc; [apply Hh | discriminate].
Qed.

Lemma pemit_log_inv (msg : string) (s : pump_state) :
  pump_inv s -> pump_inv (pemit [Log msg] s).
Proof.
  intros [Hc Hcl He Hw Hf Hh].
  constructor; cbn [pemit ptrace cancelled running turn writableEnded].
  - rewrite count_app, Hc. cbn. lia.
  - exact Hcl.
  - rewrite count_app, He. cbn. lia.
  - exact Hw.
  - rewrite count_app, Hf. reflexivity.
  - intros k v. apply not_in_snoc; [apply Hh | discriminate].
Qed.

Lemma write_chunk_inv (v : string) (s : pump_state) :
  running s = true -> pump_inv s -> pump_inv (write_chunk v s).
Proof.
  intros Hrun [Hc Hcl He Hw Hf Hh].
  constructor; cbn [write_chunk ptrace cancelled running turn writableEnded].
  - rewrite count_app, Hc. cbn. lia.
  - exact Hcl.
  - rewrite count_app, He, Hrun. reflexivity.
  - now rewrite Hw, Hrun.
  - rewrite count_app, Hf. reflexivity.
  - intros k v'. apply not_in_snoc; [apply Hh | discriminate].
Qed.

Lemma resume_inv (s : pump_state) :
  running s = true -> pump_inv s -> pump_inv (resume label w s).
Proof.
  intros Hrun Hinv. unfold resume.
  destruct (settle w s) as [v| |e].
  - destruct (negb (writableEnded s)).
    + now apply write_chunk_inv.
    + now apply finish_inv.
  - now apply finish_inv.
  - apply finish_inv; [exact Hrun | now apply pemit_log_inv].
Qed.

Lemma on_close_inv (s : pump_state) :
  close_turn w = Some (turn s) -> pump_inv s -> pump_inv (next_turn (on_close s)).
Proof.
  intros Hnow [Hc Hcl He Hw Hf Hh].
  assert (Hfresh : cancelled s = false).
  { destruct (cancelled s); [|reflexivity].
    destruct (Hcl eq_refl) as (c & Hsome & Hlt).
    rewrite Hnow in Hsome. injection Hsome as <-. lia. }
  constructor;
    cbn [next_turn on_close ptrace cancelled running turn writableEnded].
  - rewrite count_app, Hc, Hfresh. reflexivity.
  - intros _. exists (turn s). split; [exact Hnow | lia].
  - rewrite count_app, He. cbn. lia.
  - exact Hw.
  - rewrite count_app, Hf. reflexivity.
  - intros k v. apply not_in_snoc; [apply Hh | discriminate].
Qed.

Lemma next_turn_inv (s : pump_state) : pump_inv s -> pump_inv (next_turn s).
Proof.
  intros [Hc Hcl He Hw Hf Hh].
  constructor; cbn [next_turn ptrace cancelled running turn writableEnded]; auto.
  intros H. destruct (Hcl H) as (c & Hsome & Hlt). exists c. split; [auto | lia].
Qed.

Lemma pump_step_inv (s : pump_state) : pump_inv s -> pump_inv (pump_step label w s).
Proof.
  intros Hinv. unfold pump_step.
  destruct (closes w (turn s)) eqn:Hcl.
  - apply closes_spec in Hcl.
    pose proof (on_close_inv s Hcl Hinv) as H1.
    destruct (running (next_turn (on_close s))) eqn:Hrun; [|exact H1].
    now apply resume_inv.
  - pose proof (next_turn_inv s Hinv) as H1.
    destruct (running (next_turn s)) eqn:Hrun; [|exact H1].
    now apply resume_inv.
Qed.

Lemma pump_run_inv (n : nat) (s : pump_state) :
  pump_inv s -> pump_inv (pump_run label w n s).
Proof.
  revert s. induction n as [|n IH]; intros s Hinv; cbn [pump_run]; auto.
  apply IH, pump_step_inv, Hinv.
Qed.

Lemma pump_step_turn (s : pump_state) : turn (pump_step label w s) = S (turn s).
Proof.
  unfold pump_step.
  assert (Hres : forall t, turn (resume label w t) = turn t).
  { intros t. unfold resume. destruct (settle w t); [|reflexivity..].
    now destruct (negb (writableEnded t)). }
  destruct (closes w (turn s));
    match goal with |- context [if running ?t then _ else _] =>
      destruct (running t); rewrite ?Hres; reflexivity end.
Qed.

Lemma pump_run_turn (n : nat) (s : pump_state) :
  turn (pump_run label w n s) = (turn s + n)%nat.
Proof.
  revert s. induction n as [|n IH]; intros s; cbn [pump_run]; [lia|].
  rewrite IH, pump_step_turn. lia.
Qed.

Lemma pump_run_S (n : nat) (s : pump_state) :
  pump_run label w (S n) s = pump_step label w (pump_run label w n s).
Proof.
  revert s. induction n as [|n IH]; intros s; [reflexivity|].
  cbn [pump_run] in *. now rewrite IH.
Qed.

(** Once the pump has finished and the client is gone, nothing happens. *)
Lemma pump_quiescent (c : nat) (s : pump_state) (n : nat) :
  close_turn w = Some c -> (c < turn s)%nat -> running s = false ->
  ptrace (pump_run label w n s) = ptrace s /\
  running (pump_run label w n s) = false.
Proof.
  intros Hc. revert s. induction n as [|n IH]; intros s Hlt Hrun; [auto|].
  cbn [pump_run].
  assert (Hstep : pump_step label w s = next_turn s).
  { unfold pump_step.
    destruct (closes w (turn s)) eqn:Hcl.
    - apply closes_spec in Hcl. rewrite Hc in Hcl. injection Hcl as ->. lia.
    - cbn [running next_turn]. now rewrite Hrun. }
  rewrite Hstep.
  destruct (IH (next_turn s)) as [H1 H2];
    cbn [turn running next_turn]; [lia | exact Hrun |].
  split; [exact H1 | exact H2].
Qed.

(** C9.  (a) After any number of turns the reader has been cancelled at
    most once and the response ended at most once, and it has been ended
    exactly once as soon as the pump has finished.  (b) If the client goes
    away in turn [c] while the pump is waiting for a read, then in that very
    turn the reader is cancelled, the pending read settles with [done], the
    pump leaves its loop and ends the response: from then on the trace
    holds exactly one [Cancel] and exactly one [End] and never changes
    again.  (c) A pump that resumes with a chunk while the response is
    already ended writes nothing and stops. *)
Theorem pump_cancels_and_ends_once :
  (forall n : nat,
      let s := pump_run label w n pump_init in
      (count is_cancel (ptrace s) <= 1)%nat /\
      (count is_end (ptrace s) <= 1)%nat /\
      (running s = false -> count is_end (ptrace s) = 1%nat))
  /\
  (forall c : nat,
      close_turn w = Some c ->
      running (pump_run label w c pump_init) = true ->
      forall n : nat, (c < n)%nat ->
        let s := pump_run label w n pump_init in
        running s = false /\
        count is_cancel (ptrace s) = 1%nat /\
        count is_end (ptrace s) = 1%nat /\
        ptrace s = (ptrace (pump_run label w c pump_init) ++ [Cancel; End])%list)
  /\
  (forall s : pump_state,
      running s = true -> writableEnded s = true ->
      let s' := resume label w s in
      running s' = false /\ writes (ptrace s') = writes (ptrace s)).
Proof.
  split; [|split].
  - intros n s.
    destruct (pump_run_inv n pump_init pump_init_inv) as [Hc _ He _ _ _].
    fold s in Hc, He. rewrite Hc, He.
    repeat split.
    + destruct (cancelled s); lia.
    + destruct (running s); lia.
    + now intros ->.
  - intros c Hc Hrun n Hlt.
    set (s0 := pump_run label w c pump_init) in *.
    pose proof (pump_run_inv c pump_init pump_init_inv) as Hinv. fold s0 in Hinv.
    assert (Hturn : turn s0 = c) by (subst s0; now rewrite pump_run_turn).
    assert (Hstep : pump_step label w s0 = finish (next_turn (on_close s0))).
    { unfold pump_step. rewrite (proj2 (closes_spec (turn s0))) by congruence.
      cbn [running next_turn on_close]. rewrite Hrun.
      unfold resume, settle. reflexivity. }
    replace n with (S c + (n - S c))%nat by lia.
    assert (Hadd : forall a b s, pump_run label w (a + b) s
                                 = pump_run label w b (pump_run label w a s)).
    { induction a as [|a IH]; intros b s; cbn [pump_run Nat.add]; auto. }
    cbn zeta. rewrite Hadd, pump_run_S. fold s0. rewrite Hstep.
    destruct (pump_quiescent c (finish (next_turn (on_close s0))) (n - S c) Hc)
      as [Htr Hr].
    { cbn [turn finish next_turn on_close]. lia. }
    { reflexivity. }
    rewrite Htr, Hr.
    destruct Hinv as [Hcn Hcl He _ _ _].
    assert (Hfresh : cancelled s0 = false).
    { destruct (cancelled s0); [|reflexivity].
      destruct (Hcl eq_refl) as (c' & Hsome & Hlt').
      rewrite Hc in Hsome. injection Hsome as <-. lia. }
    cbn [ptrace finish next_turn on_close].
    rewrite <- app_assoc. cbn [app].
    rewrite !count_app, Hcn, He, Hfresh, Hrun. repeat split.
  - intros s Hrun Hend. unfold resume.
    destruct (settle w s) as [v| |e]; rewrite ?Hend; cbn; split; auto.
    + rewrite writes_app. cbn. apply app_nil_r.
    + rewrite writes_app. cbn. apply app_nil_r.
    + rewrite !writes_app. cbn. now rewrite !app_nil_r.
Qed.

End Pump.

(** A body that never ends, and a client that goes away in turn 2. *)
Definition ticking : pump_world :=
  {| read_result := fun _ => Chunk "tick"; close_turn := Some 2%nat |}.

Lemma pump_cancels_and_ends_once_witness :
  let s := pump_run "proxy" ticking 5 pump_init in
  running s = false /\
  count is_cancel (ptrace s) = 1%nat /\
  count is_end (ptrace s) = 1%nat /\
  ptrace s = [Write "tick"; Write "tick"; Cancel; End].
Proof.
  apply (proj1 (proj2 (pump_cancels_and_ends_once "proxy" ticking))
           2%nat eq_refl eq_refl 5%nat).
  lia.
Defined.

(** *** The handlers *)

Lemma forward_headers_spec (hs : list (string * string)) (e : event) :
  In e (forward_headers hs) ->
  exists k v, e = SetHeader k v /\ In (k, v) hs /\
              has hopByHop (Js.toLowerCase k) = false.
Proof.
  induction hs as [|[k v] hs IH]; cbn [forward_headers]; [intros []|].
  destruct (has hopByHop (Js.toLowerCase k)) eqn:Hk; cbn [negb].
  - intros H. destruct (IH H) as (k' & v' & -> & Hin & Hhop).
    exists k', v'. repeat split; auto. now right.
  - intros [<- | H].
    + exists k, v. repeat split; auto. now left.
    + destruct (IH H) as (k' & v' & -> & Hin & Hhop).
      exists k', v'. repeat split; auto. now right.
Qed.

Lemma forward_headers_no_fetch (hs : list (string * string)) :
  count is_fetch (forward_headers hs) = 0%nat.
Proof.
  induction hs as [|[k v] hs IH]; [reflexivity|].
  cbn [forward_headers]. now destruct (negb _).
Qed.

Section Handlers.

Variable ALLOWED_HOSTS : list string.
Variable URL_parse : string -> option url.

Lemma has_In (set : list string) (k : string) : has set k = true <-> In k set.
Proof.
  unfold has. rewrite existsb_exists. split.
  - intros (x & Hin & Heq). apply String.eqb_eq in Heq. now subst.
  - intros Hin. exists k. split; [exact Hin | apply String.eqb_refl].
Qed.

(** How many times a handler calls [fetch]: never when the request is
    rejected, once otherwise. *)
Lemma proxy_fetch_count (q_url : option string) (o : result upstream)
    (w : pump_world) (n : nat) :
  count is_fetch (proxy ALLOWED_HOSTS URL_parse q_url o w n)
  = if Js.falsy q_url || negb (isHostAllowed ALLOWED_HOSTS URL_parse (Js.to_string q_url))
    then 0%nat else 1%nat.
Proof.
  unfold proxy. destruct (Js.falsy q_url); [reflexivity|].
  destruct (isHostAllowed _ _ _); [|reflexivity]. cbn [negb orb].
  change (count is_fetch (Fetch ?t :: ?r)) with (S (count is_fetch r)).
  f_equal. destruct o as [remote|e]; [|reflexivity].
  change (count is_fetch (Status ?c :: ?r)) with (count is_fetch r).
  rewrite !count_app, forward_headers_no_fetch.
  destruct (has_body remote); cbn [negb].
  - now rewrite (inv_fetch _ _ (pump_run_inv "proxy" w n _ (pump_init_inv w))).
  - now destruct (text remote).
Qed.

Lemma sse_fetch_count (q_url : option string) (o : result upstream)
    (w : pump_world) (n : nat) :
  count is_fetch (sse ALLOWED_HOSTS URL_parse q_url o w n)
  = if Js.falsy q_url || negb (isHostAllowed ALLOWED_HOSTS URL_parse (Js.to_string q_url))
    then 0%nat else 1%nat.
Proof.
  unfold sse. destruct (Js.falsy q_url); [reflexivity|].
  destruct (isHostAllowed _ _ _); [|reflexivity]. cbn [negb orb].
  change (count is_fetch (Fetch ?t :: ?r)) with (S (count is_fetch r)).
  f_equal. destruct o as [remote|e]; [|reflexivity].
  destruct (ok remote); cbn [negb].
  - rewrite count_app. destruct (has_body remote); cbn [negb]; [|reflexivity].
    now rewrite (inv_fetch _ _ (pump_run_inv "sse" w n _ (pump_init_inv w))).
  - now destruct (text remote).
Qed.

(** C5.  The host policy allows a target exactly when the allowlist is
    empty, or the target parses as a URL whose hostname is in the list; in
    particular a target that does not parse is denied under a non-empty
    list.  A denied target is never fetched, by either handler. *)
Theorem host_policy (targetUrl : string) :
  (isHostAllowed ALLOWED_HOSTS URL_parse targetUrl = true <->
   ALLOWED_HOSTS = [] \/
   exists u, URL_parse targetUrl = Some u /\ In (hostname u) ALLOWED_HOSTS)
  /\
  (ALLOWED_HOSTS <> [] -> URL_parse targetUrl = None ->
   isHostAllowed ALLOWED_HOSTS URL_parse targetUrl = false)
  /\
  (isHostAllowed ALLOWED_HOSTS URL_parse targetUrl = false ->
   forall (o : result upstream) (w : pump_world) (n : nat),
     count is_fetch (proxy ALLOWED_HOSTS URL_parse (Some targetUrl) o w n) = 0%nat /\
     count is_fetch (sse ALLOWED_HOSTS URL_parse (Some targetUrl) o w n) = 0%nat).
Proof.
  split; [|split].
  - unfold isHostAllowed.
    destruct ALLOWED_HOSTS as [|h hs] eqn:Hhosts; cbn [List.length Nat.eqb].
    + split; auto.
    + destruct (URL_parse targetUrl) as [u|].
      * rewrite has_In. split.
        -- intros H. right. now exists u.
        -- intros [H | (u' & Hu & Hin)]; [discriminate | congruence].
      * split; [discriminate|].
        intros [H | (u' & Hu & _)]; discriminate.
  - intros Hne Hnone. unfold isHostAllowed. rewrite Hnone.
    destruct ALLOWED_HOSTS; [contradiction | reflexivity].
  - intros Hdenied o w n.
    rewrite proxy_fetch_count, sse_fetch_count. cbn [Js.to_string].
    rewrite Hdenied. cbn [negb]. now rewrite orb_true_r.
Qed.

(** C6.  Whatever the upstream headers are, every header the [/proxy]
    handler sets on the client response has a lowercase name outside the
    hop-by-hop set. *)
Theorem hop_by_hop_never_forwarded (q_url : option string) (o : result upstream)
    (w : pump_world) (n : nat) (k v : string) :
  In (SetHeader k v) (proxy ALLOWED_HOSTS URL_parse q_url o w n) ->
  has hopByHop (Js.toLowerCase k) = false.
Proof.
  unfold proxy. destruct (Js.falsy q_url).
  { cbn. intros [H | [H | []]]; discriminate. }
  destruct (negb (isHostAllowed _ _ _)).
  { cbn. intros [H | [H | []]]; discriminate. }
  intros [H | H]; [discriminate|].
  destruct o as [remote|e].
  2:{ cbn in H. destruct H as [H | [H | [H | []]]]; discriminate. }
  destruct H as [H | H]; [discriminate|].
  apply in_app_or in H as [H | H].
  { destruct (forward_headers_spec _ _ H) as (k' & v' & Heq & _ & Hhop).
    injection Heq as -> ->. exact Hhop. }
  apply in_app_or in H as [H | H].
  { destruct H as [H | [H | []]]; injection H as <- <-; reflexivity. }
  destruct (has_body remote); cbn [negb] in H.
  - exfalso. revert H.
    apply (inv_header _ _ (pump_run_inv "proxy" w n _ (pump_init_inv w))).
  - destruct (text remote); cbn in H.
    + destruct H as [H | []]; discriminate.
    + destruct H as [H | [H | [H | []]]]; discriminate.
Qed.

End Handlers.

(** An upstream answer with hop-by-hop headers among the others. *)
Definition chunked : upstream :=
  {| status := 200;
     headers := [("Connection", "close"); ("Content-Type", "text/plain");
                 ("Transfer-Encoding", "chunked")];
     has_body := false;
     text := Ok "ok" |}.

Lemma hop_by_hop_never_forwarded_witness :
  proxy [] Node.URL_parse (Some "http://rs.local/data") (Ok chunked) ticking 0
  = [Fetch "http://rs.local/data"; Status 200;
     SetHeader "Content-Type" "text/plain";
     SetHeader "Access-Control-Allow-Origin" "*";
     SetHeader "Cache-Control" "no-store"; Send "ok"]
  /\ has hopByHop (Js.toLowerCase "Content-Type") = false.
Proof.
  split; [reflexivity|].
  apply (hop_by_hop_never_forwarded [] Node.URL_parse (Some "http://rs.local/data")
           (Ok chunked) ticking 0%nat "Content-Type" "text/plain").
  cbn. right. right. left. reflexivity.
Defined.

(** The policy with the allowlist [rs.local]. *)
Lemma host_policy_witness :
  isHostAllowed ["rs.local"] Node.URL_parse "http://rs.local/sse" = true /\
  isHostAllowed ["rs.local"] Node.URL_parse "not a url" = false /\
  count is_fetch (proxy ["rs.local"] Node.URL_parse (Some "http://evil.example/x")
                    (Ok chunked) ticking 3) = 0%nat.
Proof.
  split; [|split].
  - apply (proj1 (host_policy ["rs.local"] Node.URL_parse "http://rs.local/sse")).
    right. exists {| hostname := "rs.local" |}. split; [reflexivity | now left].
  - apply (proj1 (proj2 (host_policy ["rs.local"] Node.URL_parse "not a url")));
      [discriminate | reflexivity].
  - apply (proj2 (proj2 (host_policy ["rs.local"] Node.URL_parse
                           "http://evil.example/x")) eq_refl (Ok chunked) ticking 3%nat).
Defined.

End RelaySpec.

(** * The two servers side by side: validation of the [url] parameter *)

Module EndpointSpec.
Import Io.

(** The events of the poll loop. *)
Definition loop_event (e : event) : Prop :=
  match e with
  | Fetch _ | Write _ | Log _ | Timer _ | End => True
  | _ => False
  end.

Section WithPlatform.

Variable JSON_stringify : Poll.json -> string.
Variable URL_parse : string -> option url.

Lemma iteration_loop_events (o : result Poll.response) :
  Forall loop_event (Poll.iteration JSON_stringify o).
Proof.
  eapply Forall_impl; [|apply PollSpec.iteration_events].
  intros [] H; cbn; auto.
Qed.

Lemma step_loop_events (w : Poll.world) (remote : string) (interval : Js.number)
    (s : Poll.state) :
  Forall loop_event (Poll.trace s) ->
  Forall loop_event (Poll.trace (Poll.loop_step JSON_stringify w remote interval s)).
Proof.
  intros H. unfold Poll.loop_step. destruct (Poll.at_ s); [| |exact H].
  - destruct (Poll.stopped s); cbn [Poll.trace Poll.goto Poll.emit].
    + apply Forall_app. split; [exact H | repeat constructor].
    + destruct (Poll.reads_body _);
        cbn [Poll.trace Poll.await Poll.emit Poll.fetched];
        repeat (apply Forall_app; split);
        try exact H; try apply iteration_loop_events; repeat constructor.
  - destruct (negb (Poll.stopped s) && _);
      cbn [Poll.trace Poll.goto Poll.emit Poll.await]; [|exact H].
    apply Forall_app. split; [exact H | repeat constructor].
Qed.

Lemma run_loop_events (w : Poll.world) (remote : string) (interval : Js.number)
    (n : nat) (s : Poll.state) :
  Forall loop_event (Poll.trace s) ->
  Forall loop_event (Poll.trace (Poll.loop_run JSON_stringify w remote interval n s)).
Proof.
  revert s. induction n as [|n IH]; intros s H; cbn [Poll.loop_run]; auto.
  apply IH, step_loop_events, H.
Qed.

(** C2, as the code has it.  A [url] parameter that is present but does
    not parse is answered with 400 by the poll server's [/sse], which
    makes no fetch.  The relay's [/proxy] has no such check of its own: it
    answers 403, without a fetch, when an allowlist is configured, and with
    an empty allowlist it hands the text to [fetch] once and answers 502
    when that fails. *)
Theorem invalid_url_rejection (q_url : option string) :
  Js.falsy q_url = false ->
  URL_parse (Js.to_string q_url) = None ->
  (forall (q_interval : option string) (w : Poll.world) (n : nat),
      let t := Poll.sse JSON_stringify URL_parse q_url q_interval w n in
      t = [Status 400; Send "Invalid url parameter"] /\ count is_fetch t = 0%nat)
  /\
  (forall (hosts : list string) (o : result Relay.upstream)
          (w : Relay.pump_world) (n : nat),
      hosts <> [] ->
      let t := Relay.proxy hosts URL_parse q_url o w n in
      t = [Status 403; Send "host not allowed"] /\ count is_fetch t = 0%nat)
  /\
  (forall (o : result Relay.upstream) (w : Relay.pump_world) (n : nat),
      let t := Relay.proxy [] URL_parse q_url o w n in
      count is_fetch t = 1%nat /\
      forall e, o = Throws e ->
                t = Fetch (Js.to_string q_url) :: Relay.bad_gateway "proxy" e).
Proof.
  intros Hpresent Hbad. split; [|split].
  - intros q_interval w n. unfold Poll.sse. rewrite Hpresent, Hbad.
    split; reflexivity.
  - intros hosts o w n Hne. unfold Relay.proxy, Relay.isHostAllowed.
    rewrite Hpresent, Hbad.
    destruct hosts; [contradiction|]. split; reflexivity.
  - intros o w n. split.
    + rewrite RelaySpec.proxy_fetch_count. now rewrite Hpresent.
    + intros e ->. unfold Relay.proxy. rewrite Hpresent. reflexivity.
Qed.

(** C3, as the code has it.  The poll server's [/sse] consults no
    allowlist: when the [url] parameter parses, it writes the 200
    event-stream head first and goes on polling, whatever the hostname, and
    never sets a 403 status.  The check lives in the relay server: there,
    a hostname outside a non-empty allowlist is answered with 403 by
    [/sse] and [/proxy] alike, with nothing else done. *)
Theorem host_check_only_in_relay (q_url : option string) (u : url)
    (hosts : list string) :
  Js.falsy q_url = false ->
  URL_parse (Js.to_string q_url) = Some u ->
  hosts <> [] ->
  ~ In (hostname u) hosts ->
  (forall (q_interval : option string) (w : Poll.world) (n : nat),
      let t := Poll.sse JSON_stringify URL_parse q_url q_interval w n in
      hd_error t = Some (WriteHead 200 Poll.sse_headers) /\
      ~ In (Status 403) t)
  /\
  (forall (o : result Relay.upstream) (w : Relay.pump_world) (n : nat),
      Relay.sse hosts URL_parse q_url o w n = [Status 403; Send "host not allowed"] /\
      Relay.proxy hosts URL_parse q_url o w n = [Status 403; Send "host not allowed"]).
Proof.
  intros Hpresent Hparse Hne Hout. split.
  - intros q_interval w n. unfold Poll.sse. rewrite Hpresent, Hparse.
    split; [reflexivity|].
    intros [H | H]; [discriminate|].
    pose proof (run_loop_events w (Js.to_string q_url) (Poll.interval_of q_interval)
                  n Poll.init (Forall_nil _)) as Hall.
    rewrite Forall_forall in Hall. exact (Hall _ H).
  - assert (Hdenied : Relay.isHostAllowed hosts URL_parse (Js.to_string q_url) = false).
    { unfold Relay.isHostAllowed. rewrite Hparse.
      destruct hosts as [|h hs]; [contradiction|]. cbn [List.length Nat.eqb].
      destruct (Relay.has (h :: hs) (hostname u)) eqn:Hhas; [|reflexivity].
      apply RelaySpec.has_In in Hhas. contradiction. }
    intros o w n. unfold Relay.sse, Relay.proxy.
    rewrite Hpresent, Hdenied. split; reflexivity.
Qed.

End WithPlatform.

(** C2 as stated, at [url=not a url] on the relay's [/proxy] with no
    allowlist: the text reaches [fetch], and the answer is a 502. *)
Lemma proxy_fetches_unparsable_url :
  Js.falsy (Some "not a url") = false /\
  Node.URL_parse "not a url" = None /\
  Relay.proxy [] Node.URL_parse (Some "not a url")
    (Throws "TypeError: Invalid URL") RelaySpec.ticking 0
  = [Fetch "not a url"; Log "proxy error TypeError: Invalid URL"; Status 502;
     Send "bad gateway: TypeError: Invalid URL"] /\
  count is_fetch
    (Relay.proxy [] Node.URL_parse (Some "not a url")
       (Throws "TypeError: Invalid URL") RelaySpec.ticking 0) = 1%nat.
Proof. repeat split. Qed.

Lemma invalid_url_rejection_witness :
  Poll.sse Node.JSON_stringify Node.URL_parse (Some "not a url") (Some "100")
    Node.flaky 7 = [Status 400; Send "Invalid url parameter"] /\
  Relay.proxy ["rs.local"] Node.URL_parse (Some "not a url")
    (Ok RelaySpec.chunked) RelaySpec.ticking 7 = [Status 403; Send "host not allowed"].
Proof.
  pose proof (invalid_url_rejection Node.JSON_stringify Node.URL_parse
                (Some "not a url") eq_refl eq_refl) as (Hpoll & Hrelay & _).
  split.
  - apply (Hpoll (Some "100") Node.flaky 7%nat).
  - apply (Hrelay ["rs.local"] (Ok RelaySpec.chunked) RelaySpec.ticking 7%nat).
    discriminate.
Defined.

(** C3 as stated, at a hostname outside the allowlist [rs.local]: the
    relay's policy denies it, and the poll server streams all the same. *)
Lemma poll_sse_ignores_allowlist :
  Relay.isHostAllowed ["rs.local"] Node.URL_parse "http://evil.example/x" = false /\
  Poll.sse Node.JSON_stringify Node.URL_parse (Some "http://evil.example/x") None
    Node.flaky 1
  = [WriteHead 200 Poll.sse_headers; Fetch "http://evil.example/x";
     Write ("data: [1,2,3]" ++ Poll.frame_end)].
Proof. split; reflexivity. Qed.

Lemma host_check_only_in_relay_witness :
  hd_error (Poll.sse Node.JSON_stringify Node.URL_parse
              (Some "http://evil.example/x") None Node.flaky 4)
  = Some (WriteHead 200 Poll.sse_headers) /\
  Relay.sse ["rs.local"] Node.URL_parse (Some "http://evil.example/x")
    (Ok RelaySpec.chunked) RelaySpec.ticking 4 = [Status 403; Send "host not allowed"].
Proof.
  assert (Hout : ~ In "evil.example" ["rs.local"]).
  { intros [H | []]. discriminate. }
  pose proof (host_check_only_in_relay Node.JSON_stringify Node.URL_parse
                (Some "http://evil.example/x") {| hostname := "evil.example" |}
                ["rs.local"] eq_refl eq_refl ltac:(discriminate) Hout)
    as (Hpoll & Hrelay).
  split.
  - apply (Hpoll None Node.flaky 4%nat).
  - apply (Hrelay (Ok RelaySpec.chunked) RelaySpec.ticking 4%nat).
Defined.

End EndpointSpec.

(** * More on the sample extractor *)

Module ExtractorSpec.
Import Io Poll.

(** Some character of [s] satisfies [p]. *)
Fixpoint any_char (p : ascii -> bool) (s : string) : bool :=
  match s with
  | EmptyString => false
  | String c s' => p c || any_char p s'
  end.

Lemma any_char_app (p : ascii -> bool) (a b : string) :
  any_char p (a ++ b) = any_char p a || any_char p b.
Proof.
  induction a as [|c a IH]; [reflexivity|].
  cbn [append any_char]. now rewrite IH, orb_assoc.
Qed.

Lemma any_char_split (p : ascii -> bool) (s : string) :
  any_char p s = true ->
  exists g c r, s = g ++ String c r /\ p c = true.
Proof.
  induction s as [|c s IH]; [discriminate|].
  cbn [any_char]. destruct (p c) eqn:Hc.
  - intros _. now exists "", c, s.
  - intros H. destruct (IH H) as (g & d & r & -> & Hd).
    now exists (String c g), d, r.
Qed.

Lemma all_digits_any (d : string) :
  Lexer.digits d -> d <> "" -> any_char Chr.is_digit d = true.
Proof.
  destruct d as [|c d]; [contradiction|]. intros H _.
  cbn in *. apply andb_prop in H as [-> _]. reflexivity.
Qed.

Lemma literal_has_digit (l : string) :
  Lexer.literal l -> any_char Chr.is_digit l = true.
Proof.
  intros (sg & ip & dt & fp & ex & _ & _ & _ & Hfp & Hne & _ & ->).
  rewrite !any_char_app, (all_digits_any fp Hfp Hne).
  now rewrite !orb_true_r.
Qed.

Lemma digit_is_literal (c : ascii) :
  Chr.is_digit c = true -> Lexer.literal (String c "").
Proof.
  intros Hc. exists "", "", "", (String c ""), "".
  split; [now left|]. split; [reflexivity|]. split; [now left|].
  split; [unfold Lexer.digits; cbn [Str.all_chars]; now rewrite Hc|].
  split; [discriminate|]. split; [now left | reflexivity].
Qed.

Lemma digitless_no_sample (text : string) :
  any_char Chr.is_digit text = false -> parseTextToNumbers text = [].
Proof.
  unfold parseTextToNumbers.
  destruct (Lexer.scan_tokenizes (S (String.length text)) text)
    as (ls & Hscan & Htok); [lia|].
  rewrite Hscan. intros Hno. destruct ls as [|l ls]; [reflexivity|].
  inversion Htok as [| g l' r ls' Hl _ _ Hs]; subst.
  rewrite !any_char_app, (literal_has_digit l Hl) in Hno.
  now rewrite orb_true_r in Hno.
Qed.

Lemma no_sample_digitless (text : string) :
  parseTextToNumbers text = [] -> any_char Chr.is_digit text = false.
Proof.
  unfold parseTextToNumbers.
  destruct (Lexer.scan_tokenizes (S (String.length text)) text)
    as (ls & Hscan & Htok); [lia|].
  rewrite Hscan. intros Hnil. destruct ls; [|discriminate].
  inversion Htok as [s Hnone Hs |]; subst.
  destruct (any_char Chr.is_digit text) eqn:Hany; [|reflexivity].
  destruct (any_char_split _ _ Hany) as (g & c & r & Heq & Hc).
  exfalso. apply (Hnone g (String c "") r); [exact Heq | now apply digit_is_literal].
Qed.

(** X1.  The extractor returns no sample exactly when the text holds no
    decimal digit. *)
Theorem extractor_empty_iff_no_digit (text : string) :
  parseTextToNumbers text = [] <-> any_char Chr.is_digit text = false.
Proof.
  split.
  - apply no_sample_digitless.
  - apply digitless_no_sample.
Qed.

(** *** Texts joined by a separator *)

(** A character that no numeric literal contains. *)
Definition separator (c : ascii) : bool :=
  negb (Chr.is_digit c || Chr.is_sign c || Chr.is_dot c || Chr.is_exp c).

Section Separated.

Variable c : ascii.
Variable b : string.
Hypothesis c_separator : separator c = true.

Local Abbreviation t := (String c b).

Lemma separator_classes :
  Chr.is_digit c = false /\ Chr.is_sign c = false /\
  Chr.is_dot c = false /\ Chr.is_exp c = false.
Proof.
  pose proof c_separator as H. unfold separator in H.
  apply negb_true_iff in H.
  apply orb_false_elim in H as [H He].
  apply orb_false_elim in H as [H Hd].
  apply orb_false_elim in H as [Hg Hs]. auto.
Qed.

Lemma span_sep (s : string) :
  Js.span Chr.is_digit (s ++ t)
  = (fst (Js.span Chr.is_digit s), snd (Js.span Chr.is_digit s) ++ t).
Proof.
  destruct separator_classes as (Hg & _).
  induction s as [|d s IH]; cbn [append Js.span].
  - cbn [Js.span]. now rewrite Hg.
  - destruct (Chr.is_digit d); [|reflexivity].
    rewrite IH. now destruct (Js.span Chr.is_digit s).
Qed.

Lemma after_digits1_sep (s : string) :
  Lexer.after_digits1 (s ++ t)
  = option_map (fun r => r ++ t) (Lexer.after_digits1 s).
Proof.
  unfold Lexer.after_digits1. rewrite span_sep.
  destruct (Js.span Chr.is_digit s) as [[|x d] r]; reflexivity.
Qed.

Lemma after_fraction_sep (s : string) :
  Lexer.after_fraction (s ++ t)
  = option_map (fun r => r ++ t) (Lexer.after_fraction s).
Proof.
  destruct separator_classes as (_ & _ & Hd & _).
  destruct s as [|d s]; cbn [append Lexer.after_fraction].
  - cbn [Lexer.after_fraction]. now rewrite Hd.
  - destruct (Chr.is_dot d); [apply after_digits1_sep | reflexivity].
Qed.

Lemma skip_sign_sep (s : string) :
  Lexer.skip_sign (s ++ t) = Lexer.skip_sign s ++ t.
Proof.
  destruct separator_classes as (_ & Hs & _).
  destruct s as [|d s]; cbn [append Lexer.skip_sign].
  - cbn [Lexer.skip_sign]. now rewrite Hs.
  - now destruct (Chr.is_sign d).
Qed.

Lemma lex_exponent_sep (s : string) :
  Lexer.lex_exponent (s ++ t) = Lexer.lex_exponent s ++ t.
Proof.
  destruct separator_classes as (_ & _ & _ & He).
  destruct s as [|d s]; cbn [append Lexer.lex_exponent].
  - cbn [Lexer.lex_exponent]. now rewrite He.
  - destruct (Chr.is_exp d); [|reflexivity].
    rewrite skip_sign_sep, after_digits1_sep.
    now destruct (Lexer.after_digits1 (Lexer.skip_sign s)).
Qed.

Lemma lex_mantissa_sep (s : string) :
  Lexer.lex_mantissa (s ++ t)
  = option_map (fun r => r ++ t) (Lexer.lex_mantissa s).
Proof.
  unfold Lexer.lex_mantissa. rewrite span_sep.
  destruct (Js.span Chr.is_digit s) as [ip s2]. cbn [fst snd].
  rewrite after_fraction_sep.
  destruct (Lexer.after_fraction s2); [reflexivity|].
  now destruct ip.
Qed.

Lemma lex_sep (s : string) :
  Lexer.lex (s ++ t) = option_map (fun r => r ++ t) (Lexer.lex s).
Proof.
  unfold Lexer.lex. rewrite skip_sign_sep, lex_mantissa_sep.
  destruct (Lexer.lex_mantissa (Lexer.skip_sign s)); [|reflexivity].
  cbn [option_map]. now rewrite lex_exponent_sep.
Qed.

Lemma take_app_le (n : nat) (x y : string) :
  (n <= String.length x)%nat -> Str.take n (x ++ y) = Str.take n x.
Proof.
  revert x. induction n as [|n IH]; intros [|d x] H; cbn in *; try reflexivity.
  - lia.
  - rewrite IH by lia. reflexivity.
Qed.

(** No literal reaches across the separator: [exec] on the joined text
    finds what it finds in the first part, and after that what it finds in
    the second. *)
Lemma exec_sep (s : string) :
  Js.exec number_re (s ++ t)
  = match Js.exec number_re s with
    | Some (l, rest) => Some (l, rest ++ t)
    | None => Js.exec number_re b
    end.
Proof.
  induction s as [|d s IH].
  - cbn [append Js.exec].
    rewrite (Lexer.match_here_lex (String c b)), (Lexer.match_here_lex "").
    change (Lexer.lex (String c b)) with (Lexer.lex ("" ++ String c b)).
    rewrite lex_sep. reflexivity.
  - cbn [append Js.exec].
    change (String d (s ++ t)) with (String d s ++ t).
    rewrite !Lexer.match_here_lex, lex_sep.
    destruct (Lexer.lex (String d s)) as [rest|] eqn:Hlex; cbn [option_map].
    + f_equal. f_equal.
      destruct (Lexer.lex_sound _ _ Hlex) as (l & _ & Heq).
      rewrite !Str.length_append.
      replace (String.length (String d s) + String.length t
               - (String.length rest + String.length t))%nat
        with (String.length (String d s) - String.length rest)%nat by lia.
      apply take_app_le. lia.
    + exact IH.
Qed.

End Separated.

Lemma exec_shrinks (s l rest : string) :
  Js.exec number_re s = Some (l, rest) ->
  (String.length rest < String.length s)%nat.
Proof.
  intros H. destruct (Lexer.exec_some s l rest H) as (g & -> & Hl & _).
  pose proof (Lexer.literal_nonempty l Hl).
  rewrite !Str.length_append. destruct l; [contradiction | cbn; lia].
Qed.

(** More fuel than the text is long never changes the result. *)
Lemma scan_fuel (f1 f2 : nat) (s : string) :
  (String.length s < f1)%nat -> (String.length s < f2)%nat ->
  scan f1 s = scan f2 s.
Proof.
  revert f2 s. induction f1 as [|f1 IH]; intros f2 s H1 H2; [lia|].
  destruct f2 as [|f2]; [lia|]. cbn [scan].
  destruct (Js.exec number_re s) as [[l rest]|] eqn:Hex; [|reflexivity].
  pose proof (exec_shrinks s l rest Hex).
  rewrite (IH f2 rest); [reflexivity | lia | lia].
Qed.

Lemma scan_total (f : nat) (s : string) :
  (String.length s < f)%nat -> scan f s = Some (parseTextToNumbers s).
Proof.
  intros H. unfold parseTextToNumbers.
  rewrite (scan_fuel (S (String.length s)) f s) by lia.
  destruct (Lexer.scan_tokenizes f s H) as (ls & -> & _). reflexivity.
Qed.

(** X2.  Two texts joined by a character that no literal contains (not a
    digit, a sign, a dot or an exponent letter) give the samples of the
    first followed by the samples of the second. *)
Theorem extractor_separator (a b : string) (c : ascii) :
  separator c = true ->
  parseTextToNumbers (a ++ String c b)
  = (parseTextToNumbers a ++ parseTextToNumbers b)%list.
Proof.
  intros Hc.
  assert (H : forall f s f2,
             (String.length s < f)%nat ->
             (String.length (s ++ String c b) < f2)%nat ->
             scan f2 (s ++ String c b)
             = Some (parseTextToNumbers s ++ parseTextToNumbers b)%list).
  { induction f as [|f IH]; intros s f2 Hf Hf2; [lia|].
    destruct f2 as [|f2]; [lia|].
    pose proof (scan_total (S f) s Hf) as Hs. cbn [scan] in Hs |- *.
    rewrite (exec_sep c b Hc s).
    rewrite Str.length_append in Hf2. cbn [String.length] in Hf2.
    destruct (Js.exec number_re s) as [[l rest]|] eqn:Hex.
    - pose proof (exec_shrinks s l rest Hex).
      rewrite (IH rest f2) by (rewrite ?Str.length_append; cbn [String.length]; lia).
      rewrite (scan_total f rest) in Hs by lia.
      injection Hs as <-. reflexivity.
    - injection Hs as <-. cbn [app].
      pose proof (scan_total (S f2) b ltac:(lia)) as Hb. cbn [scan] in Hb.
      exact Hb. }
  unfold parseTextToNumbers at 1.
  rewrite (H (S (String.length a)) a) by lia. reflexivity.
Qed.

Lemma extractor_separator_witness :
  parseTextToNumbers ("t=12.5" ++ String ";" "p=-3e2")
  = (parseTextToNumbers "t=12.5" ++ parseTextToNumbers "p=-3e2")%list.
Proof. apply extractor_separator. reflexivity. Defined.

End ExtractorSpec.

(** * The order of a response *)

Module Http.
Import Io.

(** Where a response stands: head still open, head written and body
    under way, ended. *)
Inductive phase : Type :=
| Head
| Body
| Closed.

(** The order Node's response object expects of a handler: status and
    headers only while the head is open, which [res.writeHead] and the
    first write close; nothing written after the end, one end ([res.send]
    writes and ends).  [None] marks a call out of order. *)
Definition advance (p : phase) (e : event) : option phase :=
  match e with
  | Status _ | SetHeader _ _ =>
      match p with Head => Some Head | _ => None end
  | WriteHead _ _ =>
      match p with Head => Some Body | _ => None end
  | Write _ =>
      match p with Closed => None | _ => Some Body end
  | Send _ | End =>
      match p with Closed => None | _ => Some Closed end
  | Fetch _ | Log _ | Cancel | Timer _ => Some p
  end.

Fixpoint respond (p : phase) (t : list event) : option phase :=
  match t with
  | [] => Some p
  | e :: t' =>
      match advance p e with
      | Some p' => respond p' t'
      | None => None
      end
  end.

Lemma respond_app (p : phase) (a b : list event) :
  respond p (a ++ b)
  = match respond p a with
    | Some p' => respond p' b
    | None => None
    end.
Proof.
  revert p. induction a as [|e a IH]; intros p; [reflexivity|].
  cbn [app respond]. destruct (advance p e); [apply IH | reflexivity].
Qed.

(** Events that leave the phase as it is. *)
Definition silent (e : event) : bool :=
  match e with
  | Fetch _ | Log _ | Cancel | Timer _ => true
  | _ => false
  end.

Lemma respond_silent (p : phase) (t : list event) :
  forallb silent t = true -> respond p t = Some p.
Proof.
  induction t as [|e t IH]; [reflexivity|].
  cbn [forallb respond]. intros H. apply andb_prop in H as [He Ht].
  destruct e; try discriminate; cbn; auto.
Qed.

End Http.

(** * More on the poll loop *)

Module PollLoopSpec.
Import Io Poll IoSpec.

(** The shapes a written chunk can have. *)
Inductive chunk_shape (JSON_stringify : json -> string) : string -> Prop :=
| status_comment (code : Z) :
    chunk_shape JSON_stringify (": remote status " ++ string_of_Z code ++ frame_end)
| error_comment (msg : string) :
    chunk_shape JSON_stringify (": poll error " ++ msg ++ frame_end)
| array_data (items : list json) :
    chunk_shape JSON_stringify
      ("data: " ++ JSON_stringify (JArr items) ++ frame_end)
| b64_data (txt : string) :
    chunk_shape JSON_stringify
      ("data: {" ++ quote ++ "b64" ++ quote ++ ": " ++ quote
         ++ Js.base64_encode txt ++ quote ++ "}" ++ frame_end).

Section WithPlatform.

Variable JSON_stringify : json -> string.

Lemma on_response_shape (r : response) (frame : string) :
  on_response JSON_stringify r = Ok frame -> chunk_shape JSON_stringify frame.
Proof.
  unfold on_response.
  destruct (negb (ok r)).
  { intros H; injection H as <-. constructor. }
  destruct (Str.includes _ _).
  - destruct (json_body r) as [j|e]; [|discriminate].
    destruct (isArray j) eqn:Harr.
    { destruct j; try discriminate. intros H; injection H as <-. constructor. }
    destruct (get_samples j) as [[smp|]|e]; [| |discriminate].
    + destruct (isArray smp) eqn:Hs.
      * destruct smp; try discriminate. intros H; injection H as <-. constructor.
      * intros H; injection H as <-. constructor.
    + intros H; injection H as <-. constructor.
  - destruct (text_body r) as [txt|e]; [|discriminate].
    destruct (_ =? _)%nat; intros H; injection H as <-; constructor.
Qed.

(** X3.  Whatever the upstream answers, one iteration writes exactly one
    chunk, and it is a status comment, an error comment, a data chunk whose
    payload is the text of a JSON array, or the base64 object: a JSON
    answer of any other shape never reaches the client as it is. *)
Theorem iteration_chunk_shape (o : result response) :
  exists chunk,
    writes (iteration JSON_stringify o) = [chunk] /\
    chunk_shape JSON_stringify chunk.
Proof.
  unfold iteration. destruct o as [r|e].
  - destruct (on_response JSON_stringify r) as [frame|e] eqn:Hr.
    + exists frame. split; [reflexivity | exact (on_response_shape r frame Hr)].
    + eexists. split; [reflexivity | constructor].
  - eexists. split; [reflexivity | constructor].
Qed.

(** X4.  For a successful answer that is not announced as JSON, the
    fallback is taken exactly for texts without a digit: such a text is
    sent as the base64 object, any other as the array of its samples, which
    is then not empty. *)
Theorem text_answer_frame (r : response) (txt : string) :
  ok r = true ->
  Str.includes (header_or_empty (content_type r)) "application/json" = false ->
  text_body r = Ok txt ->
  iteration JSON_stringify (Ok r)
  = [Write
       (if ExtractorSpec.any_char Chr.is_digit txt
        then "data: " ++ JSON_stringify (JArr (map JNum (parseTextToNumbers txt)))
               ++ frame_end
        else "data: {" ++ quote ++ "b64" ++ quote ++ ": " ++ quote
               ++ Js.base64_encode txt ++ quote ++ "}" ++ frame_end)]
  /\ (ExtractorSpec.any_char Chr.is_digit txt = true ->
      parseTextToNumbers txt <> []).
Proof.
  intros Hok Hct Htxt.
  split.
  - unfold iteration, on_response. rewrite Hok, Hct, Htxt. cbn [negb].
    destruct (ExtractorSpec.any_char Chr.is_digit txt) eqn:Hd.
    + destruct (parseTextToNumbers txt) eqn:Hn; [|reflexivity].
      rewrite (ExtractorSpec.no_sample_digitless txt Hn) in Hd. discriminate.
    + now rewrite (ExtractorSpec.digitless_no_sample txt Hd).
  - intros Hd Hn.
    rewrite (ExtractorSpec.no_sample_digitless txt Hn) in Hd. discriminate.
Qed.

End WithPlatform.

(** A plain-text reading with digits. *)
Definition reading : response :=
  {| status := 200; content_type := Some "text/plain";
     json_body := Throws "Unexpected token t in JSON at position 0";
     text_body := Ok "temp 21 hum 40" |}.

Lemma text_answer_frame_witness :
  iteration Node.JSON_stringify (Ok reading) = [Write ("data: [21,40]" ++ frame_end)].
Proof.
  apply (proj1 (text_answer_frame Node.JSON_stringify reading "temp 21 hum 40"
                  eq_refl eq_refl eq_refl)).
Defined.

(** *** Invariants of the loop *)

Section Loop.

Variable JSON_stringify : json -> string.
Variable w : world.
Variable remote : string.
Variable interval : Z.

Local Abbreviation step1 := (step JSON_stringify w remote interval).
Local Abbreviation runs := (run JSON_stringify w remote interval).

(** What holds of the loop after any number of steps. *)
Record loop_inv (s : state) : Prop := {
  inv_fetches : count is_fetch (trace s) = fetches s;
  inv_writes : List.length (writes (trace s)) = fetches s;
  inv_target : forall u, In (Fetch u) (trace s) -> u = remote;
  inv_awaits : (fetches s <= awaits s)%nat;
  inv_phase : exists p, Http.respond Http.Body (trace s) = Some p /\
                        (p = Http.Closed <-> at_ s = Exited)
}.

Lemma init_inv : loop_inv init.
Proof.
  constructor.
  - reflexivity.
  - reflexivity.
  - intros u H. destruct H.
  - cbn. lia.
  - exists Http.Body. split; [reflexivity | split; discriminate].
Qed.

Lemma iteration_counts (o : result response) :
  count is_fetch (iteration JSON_stringify o) = 0%nat /\
  List.length (writes (iteration JSON_stringify o)) = 1%nat /\
  (forall u, ~ In (Fetch u) (iteration JSON_stringify o)) /\
  (forall p, p <> Http.Closed ->
             Http.respond p (iteration JSON_stringify o) = Some Http.Body).
Proof.
  unfold iteration, on_error.
  destruct o as [r|e]; [destruct (on_response JSON_stringify r)|].
  all: split; [reflexivity|].
  all: split; [reflexivity|].
  all: split.
  all: try (intros u Hin; cbn in Hin; intuition discriminate).
  all: intros p Hp; destruct p; try contradiction; reflexivity.
Qed.

Lemma loop_step_inv (i : Js.number) (s : state) :
  loop_inv s -> loop_inv (loop_step JSON_stringify w remote i s).
Proof.
  intros [Hf Hw Ht Ha (p & Hp & Hpe)]. unfold loop_step.
  destruct (at_ s) eqn:Hat.
  - (* at the loop test *)
    assert (Hopen : p <> Http.Closed).
    { intros H. apply Hpe in H. discriminate. }
    destruct (stopped s).
    + constructor; cbn [goto emit trace fetches awaits at_].
      * rewrite count_app, Hf. cbn. lia.
      * rewrite writes_app, length_app, Hw. cbn. lia.
      * intros u H. apply in_app_or in H as [H | [H | []]]; [auto | discriminate].
      * exact Ha.
      * exists Http.Closed. split; [|tauto].
        rewrite Http.respond_app, Hp. destruct p; try contradiction; reflexivity.
    + destruct (iteration_counts (fetch_result w (fetches s))) as (I1 & I2 & I3 & I4).
      assert (Htr : forall t : state,
                 trace t = (trace s ++ [Fetch remote])%list ->
                 fetches t = S (fetches s) -> (S (awaits s) <= awaits t)%nat ->
                 loop_inv (goto (Sleeping (now (emit (iteration JSON_stringify
                                      (fetch_result w (fetches s))) t)))
                             (emit (iteration JSON_stringify
                                      (fetch_result w (fetches s))) t))).
      { intros t Htt Hft Hat'.
        constructor; cbn [goto emit trace fetches awaits at_]; rewrite ?Htt, ?Hft.
        - rewrite !count_app, Hf, I1. cbn. lia.
        - rewrite !writes_app, !length_app, Hw, I2. cbn. lia.
        - intros u H. apply in_app_or in H as [H | H]; [|now apply I3 in H].
          apply in_app_or in H as [H | [H | []]]; [auto | congruence].
        - lia.
        - exists Http.Body. split; [|split; discriminate].
          rewrite !Http.respond_app, Hp. cbn [Http.respond Http.advance].
          now apply I4. }
      destruct (reads_body (fetch_result w (fetches s)));
        apply Htr; cbn [trace await fetched emit fetches awaits]; auto; lia.
  - (* in the sleep *)
    destruct (negb (stopped s) && Js.lt_int (now s - start) i).
    + constructor; cbn [await emit trace fetches awaits at_].
      * rewrite count_app, Hf. cbn. lia.
      * rewrite writes_app, length_app, Hw. cbn. lia.
      * intros u H. apply in_app_or in H as [H | [H | []]]; [auto | discriminate].
      * lia.
      * exists p. split; [|now rewrite Hat].
        rewrite Http.respond_app, Hp. reflexivity.
    + constructor; cbn [goto trace fetches awaits at_]; auto.
      exists p. split; [exact Hp|].
      split; [intros H; apply Hpe in H; discriminate | discriminate].
  - constructor; auto. exists p. split; [exact Hp|]. now rewrite Hat.
Qed.

Lemma step_inv (s : state) : loop_inv s -> loop_inv (step1 s).
Proof.
  rewrite <- (PollSpec.loop_step_whole JSON_stringify w remote interval s).
  apply loop_step_inv.
Qed.

Lemma run_inv (n : nat) (s : state) : loop_inv s -> loop_inv (runs n s).
Proof.
  revert s. induction n as [|n IH]; intros s H; cbn [run]; auto.
  apply IH, step_inv, H.
Qed.

Lemma loop_run_inv (i : Js.number) (n : nat) (s : state) :
  loop_inv s -> loop_inv (loop_run JSON_stringify w remote i n s).
Proof.
  revert s. induction n as [|n IH]; intros s H; cbn [loop_run]; auto.
  apply IH, loop_step_inv, H.
Qed.

(** X5.  After any number of steps, for any upstream and any client: every
    fetch made went to the URL of the request, and one chunk has been
    written for each fetch made. *)
Theorem one_chunk_per_fetch (n : nat) :
  let s := runs n init in
  (forall u, In (Fetch u) (trace s) -> u = remote) /\
  count is_fetch (trace s) = fetches s /\
  List.length (writes (trace s)) = count is_fetch (trace s).
Proof.
  destruct (run_inv n init init_inv) as [Hf Hw Ht _ _].
  cbn zeta. repeat split; auto. now rewrite Hw, Hf.
Qed.

(** X6.  Whatever the interval, after any number of steps the calls of the
    handler on its response, the head it writes first and then those of the
    loop, are in the order a response expects: no status, header or second
    head after the head is written, nothing written after the end, one end
    at most; and the response is ended exactly when the loop has been
    left. *)
Theorem loop_respects_response_order (i : Js.number) (n : nat) :
  exists p,
    Http.respond Http.Head
      (WriteHead 200 sse_headers :: trace (loop_run JSON_stringify w remote i n init))
    = Some p /\
    (p = Http.Closed <-> at_ (loop_run JSON_stringify w remote i n init) = Exited).
Proof.
  destruct (loop_run_inv i n init init_inv) as [_ _ _ _ (p & Hp & Hpe)].
  exists p. split; [exact Hp | exact Hpe].
Qed.

Lemma loop_run_exited (i : Js.number) (k : nat) (s : state) :
  at_ s = Exited -> loop_run JSON_stringify w remote i k s = s.
Proof.
  intros Hs. induction k as [|k IH]; [reflexivity|].
  cbn [loop_run]. unfold loop_step at 1. now rewrite Hs.
Qed.

Lemma loop_step_stopped (i : Js.number) (s : state) :
  at_ s = LoopHead -> stopped s = true ->
  loop_step JSON_stringify w remote i s = goto Exited (emit [End] s).
Proof. intros Hat Hst. unfold loop_step. now rewrite Hat, Hst. Qed.

(** X7.  The loop looks at the flag at its loop test and in its sleep test
    only.  Whatever the interval: once the flag is set at one of them, the
    loop makes no further fetch and writes no further chunk, two steps end
    the response, and nothing happens after that; and an iteration during
    which the client goes away is still carried through, its chunk written
    to the response before the next loop test ends it. *)
Theorem stop_only_ends (i : Js.number) (s : state) (m : nat) :
  at_ s <> Exited ->
  (stopped s = true ->
   let s' := loop_run JSON_stringify w remote i (2 + m) s in
   at_ s' = Exited /\ trace s' = (trace s ++ [End])%list)
  /\
  (at_ s = LoopHead -> stopped s = false ->
   stopped (PollSpec.after_body JSON_stringify w remote s) = true ->
   let s' := loop_run JSON_stringify w remote i (3 + m) s in
   at_ s' = Exited /\
   trace s'
   = (trace s ++ [Fetch remote]
        ++ iteration JSON_stringify (fetch_result w (fetches s)) ++ [End])%list).
Proof.
  intros Hat. split.
  - intros Hst. cbn zeta. change (2 + m)%nat with (S (S m)). cbn [loop_run].
    destruct (at_ s) eqn:Hs; [| |contradiction].
    + rewrite (loop_step_stopped i s Hs Hst).
      assert (Hnext : loop_step JSON_stringify w remote i (goto Exited (emit [End] s))
                      = goto Exited (emit [End] s)) by reflexivity.
      rewrite Hnext, loop_run_exited by reflexivity. split; reflexivity.
    + assert (Hwake : loop_step JSON_stringify w remote i s = goto LoopHead s).
      { unfold loop_step. now rewrite Hs, Hst. }
      rewrite Hwake, (loop_step_stopped i (goto LoopHead s)) by (auto; reflexivity).
      rewrite loop_run_exited by reflexivity. split; reflexivity.
  - intros Hs Hst Hgone. cbn zeta. change (3 + m)%nat with (S (S (S m))).
    cbn [loop_run].
    rewrite (PollSpec.loop_step_loop_head JSON_stringify w remote i s Hs Hst).
    set (b := PollSpec.after_body JSON_stringify w remote s) in *.
    assert (Hwake : loop_step JSON_stringify w remote i (goto (Sleeping (now b)) b)
                    = goto LoopHead b).
    { unfold loop_step. cbn [at_ goto stopped]. now rewrite Hgone. }
    rewrite Hwake, (loop_step_stopped i (goto LoopHead b)) by (auto; reflexivity).
    rewrite loop_run_exited by reflexivity.
    split; [reflexivity|]. cbn [trace goto emit]. subst b.
    rewrite (PollSpec.after_body_trace JSON_stringify w remote s).
    now rewrite <- !app_assoc.
Qed.

(** *** The loop is left after a disconnect *)

(** The flag is set once the await in which the client goes away is
    over. *)
Definition closed_seen (c : nat) (s : state) : Prop :=
  (c < awaits s)%nat -> stopped s = true.

Lemma await_closed_seen (c : nat) (s : state) :
  close_at w = Some c -> closed_seen c s -> closed_seen c (await w s).
Proof.
  intros Hc Hs H. cbn [awaits await stopped] in *.
  unfold closes. rewrite Hc.
  destruct (Nat.eqb_spec c (awaits s)) as [_ | Hne]; [apply orb_true_r|].
  rewrite Hs by lia. reflexivity.
Qed.

Lemma sleep_returns (c : nat) :
  close_at w = Some c ->
  (forall k, 1 <= await_ms w k) ->
  forall (budget : nat) (s : state) (start : Z),
    at_ s = Sleeping start -> closed_seen c s ->
    interval - (now s - start) <= Z.of_nat budget ->
    exists k,
      let s' := runs k s in
      at_ s' = LoopHead /\ closed_seen c s' /\ fetches s' = fetches s /\
      (awaits s <= awaits s')%nat.
Proof.
  intros Hc Hclock budget.
  induction budget as [|budget IH]; intros s start Hat Hseen Hle.
  - exists 1%nat. cbn [run]. unfold step. rewrite Hat.
    replace (now s - start <? interval) with false
      by (symmetry; apply Z.ltb_ge; lia).
    rewrite andb_false_r. cbn. auto.
  - destruct (negb (stopped s) && (now s - start <? interval)) eqn:Hgo.
    + assert (Hlt : now s - start < interval).
      { apply andb_prop in Hgo as [_ Hlt]. now apply Z.ltb_lt. }
      assert (Hstep : step1 s = await w (emit [Timer 50] s)).
      { unfold step. now rewrite Hat, Hgo. }
      destruct (IH (await w (emit [Timer 50] s)) start) as (k & H1 & H2 & H3 & H4).
      * exact Hat.
      * apply await_closed_seen; auto.
      * cbn [now await emit awaits]. specialize (Hclock (awaits s)). lia.
      * exists (S k). cbn [run]. rewrite Hstep.
        repeat split; auto. cbn [awaits await emit] in H4. lia.
    + exists 1%nat. cbn [run]. unfold step. rewrite Hat, Hgo. cbn. auto.
Qed.

Lemma after_body_awaits (s : state) :
  (S (awaits s) <= awaits (PollSpec.after_body JSON_stringify w remote s))%nat.
Proof.
  unfold PollSpec.after_body. cbn [awaits emit].
  destruct (reads_body _); cbn [awaits await fetched emit]; lia.
Qed.

Lemma after_body_closed_seen (c : nat) (s : state) :
  close_at w = Some c -> closed_seen c s ->
  closed_seen c (PollSpec.after_body JSON_stringify w remote s).
Proof.
  intros Hc Hs. unfold PollSpec.after_body.
  assert (H1 : closed_seen c (await w (fetched (emit [Fetch remote] s)))).
  { apply await_closed_seen; [exact Hc | exact Hs]. }
  destruct (reads_body _).
  - exact (await_closed_seen c _ Hc H1).
  - exact H1.
Qed.

Lemma loop_descends (c : nat) :
  close_at w = Some c ->
  (forall k, 1 <= await_ms w k) ->
  forall (d : nat) (s : state),
    at_ s = LoopHead -> closed_seen c s -> (S c - awaits s <= d)%nat ->
    exists n,
      at_ (runs n s) = Exited /\ (fetches (runs n s) <= fetches s + d)%nat.
Proof.
  intros Hc Hclock.
  assert (Hstop : forall s, at_ s = LoopHead -> stopped s = true ->
                            at_ (runs 1 s) = Exited /\ fetches (runs 1 s) = fetches s).
  { intros s Hat Hst. cbn [run]. unfold step. rewrite Hat, Hst. split; reflexivity. }
  induction d as [|d IH]; intros s Hat Hseen Hd.
  - exists 1%nat. destruct (Hstop s Hat) as [H1 H2]; [apply Hseen; lia|].
    split; [exact H1 | lia].
  - destruct (stopped s) eqn:Hst.
    + exists 1%nat. destruct (Hstop s Hat Hst) as [H1 H2]. split; [exact H1 | lia].
    + assert (Hopen : (awaits s <= c)%nat).
      { destruct (Nat.le_gt_cases (awaits s) c) as [H | H]; [exact H|].
        rewrite (Hseen H) in Hst. discriminate. }
      set (b := PollSpec.after_body JSON_stringify w remote s).
      pose proof (PollSpec.step_loop_head JSON_stringify w remote interval s Hat Hst)
        as Hstep. fold b in Hstep.
      destruct (sleep_returns c Hc Hclock (Z.to_nat interval)
                  (goto (Sleeping (now b)) b) (now b))
        as (k & H1 & H2 & H3 & H4).
      * reflexivity.
      * exact (after_body_closed_seen c s Hc Hseen).
      * cbn [now goto]. lia.
      * cbn [fetches awaits goto] in H3, H4.
        pose proof (after_body_awaits s) as Ha. fold b in Ha.
        destruct (IH (runs k (goto (Sleeping (now b)) b)) H1 H2) as (n & Hn1 & Hn2);
          [lia|].
        exists (S (k + n)). cbn [run]. rewrite Hstep.
        rewrite (PollSpec.run_add JSON_stringify w remote interval k n).
        split; [exact Hn1|].
        rewrite H3 in Hn2. subst b.
        rewrite PollSpec.after_body_fetches in Hn2. lia.
Qed.

(** X8.  If the client goes away during the await numbered [c], and time
    passes at every await, the loop is left after finitely many steps,
    having made at most [c + 1] fetches. *)
Theorem loop_exits_after_disconnect (c : nat) :
  close_at w = Some c ->
  (forall k, 1 <= await_ms w k) ->
  exists n,
    at_ (runs n init) = Exited /\ (fetches (runs n init) <= S c)%nat.
Proof.
  intros Hc Hclock.
  destruct (loop_descends c Hc Hclock (S c) init) as (n & H1 & H2).
  - reflexivity.
  - intros H. cbn in H. lia.
  - cbn. lia.
  - exists n. split; [exact H1 | exact H2].
Qed.

End Loop.

(** An upstream that always answers, and a client that goes away while the
    first fetch is under way. *)
Definition hangup : world :=
  {| fetch_result := fun _ => Ok Node.array_response;
     await_ms := fun _ => 50;
     close_at := Some 0%nat |}.

Lemma stop_only_ends_witness :
  trace (loop_run Node.JSON_stringify hangup "http://rs.local/data"
           (Js.Num (200 # 1)) 3 init)
  = [Fetch "http://rs.local/data"; Write ("data: [1,2,3]" ++ frame_end); End]
  /\
  trace (loop_run Node.JSON_stringify hangup "http://rs.local/data"
           (Js.Num (200 # 1)) 2
           (loop_run Node.JSON_stringify hangup "http://rs.local/data"
              (Js.Num (200 # 1)) 1 init))
  = [Fetch "http://rs.local/data"; Write ("data: [1,2,3]" ++ frame_end); End].
Proof.
  split.
  - apply (proj2 (proj2 (stop_only_ends Node.JSON_stringify hangup
                           "http://rs.local/data" (Js.Num (200 # 1)) init 0%nat
                           ltac:(discriminate))
                    eq_refl eq_refl eq_refl)).
  - apply (proj2 (proj1 (stop_only_ends Node.JSON_stringify hangup
                           "http://rs.local/data" (Js.Num (200 # 1))
                           (loop_run Node.JSON_stringify hangup "http://rs.local/data"
                              (Js.Num (200 # 1)) 1 init)
                           0%nat ltac:(discriminate))
                    eq_refl)).
Defined.

Lemma loop_exits_after_disconnect_witness :
  exists n,
    at_ (run Node.JSON_stringify hangup "http://rs.local/data" 200 n init) = Exited /\
    (fetches (run Node.JSON_stringify hangup "http://rs.local/data" 200 n init) <= 1)%nat.
Proof.
  apply (loop_exits_after_disconnect Node.JSON_stringify hangup
           "http://rs.local/data" 200 0%nat eq_refl).
  intros k. cbn. lia.
Defined.

End PollLoopSpec.

(** * More on the pump *)

Module PumpSpec.
Import Io Relay IoSpec.

(** The bytes of a settled read. *)
Definition chunk_value (r : read_outcome) : string :=
  match r with
  | Chunk v => v
  | _ => EmptyString
  end.

(** What the pump does when a read settles without a chunk. *)
Definition ending (label : string) (r : read_outcome) : list event :=
  match r with
  | Chunk _ => []
  | Done => [End]
  | ReadError e => [Log (label ++ " pump error " ++ e); End]
  end.

Section Pump.

Variable label : string.
Variable w : pump_world.

Local Abbreviation steps := (pump_run label w).

(** What has been written is what has been read, and the response is in
    order. *)
Record flow_inv (s : pump_state) : Prop := {
  flow_writes :
    writes (ptrace s)
    = map (fun i => chunk_value (read_result w i)) (seq 0 (reads s));
  flow_chunks :
    forall i, (i < reads s)%nat -> exists v, read_result w i = Chunk v;
  flow_reads : (reads s <= turn s)%nat;
  flow_phase :
    exists p, Http.respond Http.Head (ptrace s) = Some p /\
              (p = Http.Closed <-> running s = false)
}.

Lemma pump_init_flow : flow_inv pump_init.
Proof.
  constructor.
  - reflexivity.
  - intros i H. cbn in H. lia.
  - cbn. lia.
  - exists Http.Head. split; [reflexivity | split; discriminate].
Qed.

Lemma on_close_flow (s : pump_state) : flow_inv s -> flow_inv (next_turn (on_close s)).
Proof.
  intros [Hw Hc Hr (p & Hp & Hpe)].
  constructor; cbn [next_turn on_close ptrace reads turn running].
  - rewrite writes_app, Hw. cbn. apply app_nil_r.
  - exact Hc.
  - lia.
  - exists p. split; [|exact Hpe]. rewrite Http.respond_app, Hp. reflexivity.
Qed.

Lemma next_turn_flow (s : pump_state) : flow_inv s -> flow_inv (next_turn s).
Proof.
  intros [Hw Hc Hr Hp].
  constructor; cbn [next_turn ptrace reads turn running]; auto.
Qed.

Lemma finish_flow (s : pump_state) (pre : list event) :
  forallb Http.silent pre = true -> writes pre = [] ->
  running s = true -> flow_inv s ->
  flow_inv (finish (pemit pre s)).
Proof.
  intros Hsil Hnw Hrun [Hw Hc Hr (p & Hp & Hpe)].
  assert (Hopen : p <> Http.Closed).
  { intros H. apply Hpe in H. congruence. }
  constructor; cbn [finish pemit ptrace reads turn running].
  - rewrite !writes_app, Hw, Hnw. cbn. now rewrite !app_nil_r.
  - exact Hc.
  - exact Hr.
  - exists Http.Closed. split; [|tauto].
    rewrite !Http.respond_app, Hp, (Http.respond_silent p pre Hsil).
    destruct p; try contradiction; reflexivity.
Qed.

Lemma resume_flow (s : pump_state) :
  running s = true -> (reads s < turn s)%nat -> flow_inv s ->
  flow_inv (resume label w s).
Proof.
  intros Hrun Hlt Hinv. unfold resume, settle.
  assert (Hfin : flow_inv (finish s)).
  { replace (finish s) with (finish (pemit [] s)).
    - now apply finish_flow.
    - unfold finish, pemit. cbn. now rewrite app_nil_r. }
  destruct (cancelled s); [exact Hfin|].
  destruct (read_result w (reads s)) as [v| |e] eqn:Hread.
  - destruct (negb (writableEnded s)); [|exact Hfin].
    destruct Hinv as [Hw Hc Hr (p & Hp & Hpe)].
    assert (Hopen : p <> Http.Closed).
    { intros H. apply Hpe in H. congruence. }
    constructor; cbn [write_chunk ptrace reads turn running].
    + rewrite writes_app, Hw, seq_S, map_app. cbn. now rewrite Hread.
    + intros i Hi. destruct (Nat.eq_dec i (reads s)) as [-> | Hne].
      * now exists v.
      * apply Hc. lia.
    + lia.
    + exists Http.Body. split; [|split; discriminate].
      rewrite Http.respond_app, Hp. destruct p; try contradiction; reflexivity.
  - exact Hfin.
  - now apply (finish_flow s [Log (label ++ " pump error " ++ e)]).
Qed.

Lemma pump_step_flow (s : pump_state) : flow_inv s -> flow_inv (pump_step label w s).
Proof.
  intros Hinv. pose proof (flow_reads s Hinv) as Hr. unfold pump_step.
  destruct (closes w (turn s)).
  - pose proof (on_close_flow s Hinv) as H1.
    destruct (running (next_turn (on_close s))) eqn:Hrun; [|exact H1].
    apply resume_flow; auto. cbn. lia.
  - pose proof (next_turn_flow s Hinv) as H1.
    destruct (running (next_turn s)) eqn:Hrun; [|exact H1].
    apply resume_flow; auto. cbn. lia.
Qed.

Lemma pump_run_flow (n : nat) (s : pump_state) : flow_inv s -> flow_inv (steps n s).
Proof.
  revert s. induction n as [|n IH]; intros s H; cbn [pump_run]; auto.
  apply IH, pump_step_flow, H.
Qed.

(** X9.  After any number of turns, whatever the upstream and the client
    do, the chunks written to the client are exactly the first chunks of
    the upstream body, in order, each once: nothing is lost, repeated or
    reordered. *)
Theorem pump_forwards_in_order (n : nat) :
  let s := steps n pump_init in
  writes (ptrace s) = map (fun i => chunk_value (read_result w i)) (seq 0 (reads s)) /\
  (forall i, (i < reads s)%nat -> exists v, read_result w i = Chunk v) /\
  (reads s <= n)%nat.
Proof.
  destruct (pump_run_flow n pump_init pump_init_flow) as [Hw Hc Hr _].
  cbn zeta. repeat split; auto.
  rewrite RelaySpec.pump_run_turn in Hr. exact Hr.
Qed.

(** The state of a pump that has read [j] chunks and is waiting. *)
Definition waiting (chunks : nat -> string) (j : nat) : pump_state :=
  {| running := true; turn := j; reads := j; cancelled := false;
     writableEnded := false;
     ptrace := map (fun i => Write (chunks i)) (seq 0 j) |}.

Lemma pump_reads_on (chunks : nat -> string) (k : nat) :
  (forall t, (t < k)%nat -> closes w t = false) ->
  (forall i, (i < k)%nat -> read_result w i = Chunk (chunks i)) ->
  forall j, (j <= k)%nat -> steps j pump_init = waiting chunks j.
Proof.
  intros Hopen Hread. induction j as [|j IH]; intros Hj; [reflexivity|].
  rewrite RelaySpec.pump_run_S, IH by lia.
  unfold pump_step. cbn [turn waiting]. rewrite (Hopen j) by lia.
  cbn [running next_turn waiting]. unfold resume, settle.
  cbn [cancelled reads next_turn waiting writableEnded negb].
  rewrite (Hread j) by lia.
  unfold write_chunk, waiting.
  cbn [running turn reads cancelled writableEnded ptrace next_turn].
  rewrite seq_S, map_app. reflexivity.
Qed.

(** The [close] event comes within the [n] turns that start with turn
    [a]. *)
Definition closed_in (a n : nat) : bool :=
  match close_turn w with
  | Some c => (a <=? c)%nat && (c <? a + n)%nat
  | None => false
  end.

(** A pump that has finished does nothing more: only the [close] handler
    still runs, when its event comes. *)
Lemma pump_rests (s : pump_state) (n : nat) :
  running s = false ->
  ptrace (steps n s)
  = (ptrace s ++ if closed_in (turn s) n then [Cancel] else [])%list
  /\ running (steps n s) = false.
Proof.
  revert s. induction n as [|n IH]; intros s Hrun.
  - cbn [pump_run]. split; [|exact Hrun].
    replace (closed_in (turn s) 0) with false; [now rewrite app_nil_r|].
    unfold closed_in. destruct (close_turn w) as [c|]; [|reflexivity].
    symmetry. apply andb_false_iff.
    destruct (Nat.leb_spec (turn s) c); [right; apply Nat.ltb_ge; lia | now left].
  - cbn [pump_run].
    assert (Hstep : pump_step label w s
                    = next_turn (if closes w (turn s) then on_close s else s)).
    { unfold pump_step. destruct (closes w (turn s));
        cbn [running next_turn on_close]; now rewrite Hrun. }
    rewrite Hstep.
    destruct (IH (next_turn (if closes w (turn s) then on_close s else s)))
      as [H1 H2].
    { now destruct (closes w (turn s)). }
    split; [|exact H2]. rewrite H1.
    unfold closes, closed_in. destruct (close_turn w) as [c|].
    + destruct (Nat.eqb_spec c (turn s)) as [-> | Hne];
        cbn [next_turn on_close ptrace turn].
      * replace ((S (turn s) <=? turn s)%nat && (turn s <? S (turn s) + n)%nat)
          with false
          by (symmetry; apply andb_false_iff; left; apply Nat.leb_gt; lia).
        replace ((turn s <=? turn s)%nat && (turn s <? turn s + S n)%nat) with true
          by (symmetry; apply andb_true_iff; split;
              [apply Nat.leb_le | apply Nat.ltb_lt]; lia).
        now rewrite app_nil_r.
      * replace ((S (turn s) <=? c)%nat && (c <? S (turn s) + n)%nat)
          with ((turn s <=? c)%nat && (c <? turn s + S n)%nat); [reflexivity|].
        f_equal.
        -- destruct (Nat.leb_spec (turn s) c), (Nat.leb_spec (S (turn s)) c);
             try reflexivity; lia.
        -- now replace (turn s + S n)%nat with (S (turn s) + n)%nat by lia.
    + reflexivity.
Qed.

(** X10.  If the [close] event of the request comes only after the read
    that ends the body has settled, as it does for a client that stays to
    the end, where it follows the end of the response: when the upstream
    body gives [k] chunks and then ends, the pump writes those chunks in
    order and ends the response; when the read after them fails instead, it
    logs the failure and ends the response all the same.  The [close]
    event then calls [reader.cancel()], after the end, and the handler
    makes no other call; what the promise of that call settles to is not
    part of the trace. *)
Theorem pump_drains_body (chunks : nat -> string) (k n : nat) :
  (forall c, close_turn w = Some c -> (k < c)%nat) ->
  (forall i, (i < k)%nat -> read_result w i = Chunk (chunks i)) ->
  (forall v, read_result w k <> Chunk v) ->
  (k < n)%nat ->
  ptrace (steps n pump_init)
  = (map (fun i => Write (chunks i)) (seq 0 k) ++ ending label (read_result w k)
       ++ match close_turn w with
          | Some c => if (c <? n)%nat then [Cancel] else []
          | None => []
          end)%list
  /\ running (steps n pump_init) = false.
Proof.
  intros Hlate Hread Hlast Hlt.
  assert (Hopen : forall t, (t <= k)%nat -> closes w t = false).
  { intros t Ht. unfold closes. destruct (close_turn w) as [c|] eqn:Hc; [|reflexivity].
    specialize (Hlate c eq_refl). apply Nat.eqb_neq. lia. }
  assert (Hadd : forall a b s, steps (a + b) s = steps b (steps a s)).
  { induction a as [|a IH]; intros b s; cbn [pump_run Nat.add]; auto. }
  replace n with (S k + (n - S k))%nat at 1 2 by lia.
  rewrite Hadd, RelaySpec.pump_run_S.
  rewrite (pump_reads_on chunks k (fun t Ht => Hopen t (Nat.lt_le_incl _ _ Ht)) Hread k)
    by lia.
  assert (Hstep : pump_step label w (waiting chunks k)
                  = finish (pemit match read_result w k with
                                  | ReadError e => [Log (label ++ " pump error " ++ e)]
                                  | _ => []
                                  end (next_turn (waiting chunks k)))).
  { unfold pump_step. cbn [turn waiting]. rewrite (Hopen k) by lia.
    cbn [running next_turn waiting]. unfold resume, settle.
    cbn [cancelled reads next_turn waiting].
    destruct (read_result w k) as [v| |e] eqn:Hr.
    - now destruct (Hlast v).
    - unfold finish, pemit. cbn. now rewrite app_nil_r.
    - reflexivity. }
  rewrite Hstep.
  destruct (pump_rests (finish (pemit match read_result w k with
                                      | ReadError e => [Log (label ++ " pump error " ++ e)]
                                      | _ => []
                                      end (next_turn (waiting chunks k))))
              (n - S k) eq_refl) as [Htr Hrun].
  rewrite Htr, Hrun. split; [|reflexivity].
  cbn [ptrace finish pemit next_turn waiting turn]. rewrite <- !app_assoc.
  f_equal.
  assert (Hwin : closed_in (S k) (n - S k)
                 = match close_turn w with
                   | Some c => (c <? n)%nat
                   | None => false
                   end).
  { unfold closed_in. destruct (close_turn w) as [c|] eqn:Hc; [|reflexivity].
    specialize (Hlate c eq_refl).
    replace (S k + (n - S k))%nat with n by lia.
    replace (S k <=? c)%nat with true by (symmetry; apply Nat.leb_le; lia).
    reflexivity. }
  rewrite Hwin.
  destruct (read_result w k) as [v| |e] eqn:Hr.
  - now destruct (Hlast v).
  - cbn [ending app]. now destruct (close_turn w) as [c|]; [destruct (c <? n)%nat|].
  - cbn [ending app]. now destruct (close_turn w) as [c|]; [destruct (c <? n)%nat|].
Qed.

End Pump.

(** A body of two chunks, and a client that stays to the end: the request
    closes once the response has ended. *)
Definition two_chunks : pump_world :=
  {| read_result := fun i =>
       match i with
       | O => Chunk "event: a"
       | S O => Chunk "event: b"
       | _ => Done
       end;
     close_turn := Some 3%nat |}.

Lemma pump_drains_body_witness :
  ptrace (pump_run "sse" two_chunks 5 pump_init)
  = [Write "event: a"; Write "event: b"; End; Cancel].
Proof.
  apply (proj1 (pump_drains_body "sse" two_chunks
                  (fun i => match i with O => "event: a" | _ => "event: b" end)
                  2%nat 5%nat
                  ltac:(intros c H; injection H as <-; lia)
                  ltac:(intros [|[|i]] H; [reflexivity | reflexivity | lia])
                  ltac:(intros v; discriminate) ltac:(lia))).
Defined.

End PumpSpec.

(** * The relay server as a whole *)

Module RelayApp.
Import Io Relay.

(** The routes the relay server registers. *)
Inductive route : Type :=
| Ping       (* GET /ping *)
| Proxy      (* GET /proxy *)
| Sse.       (* GET /sse *)

(** The [app.use] middleware that runs before every route. *)
Definition cors : list event :=
  [SetHeader "Access-Control-Allow-Origin" "*";
   SetHeader "Access-Control-Allow-Headers"
             "Origin, X-Requested-With, Content-Type, Accept"].

(** A request through the middleware to its route. *)
Definition dispatch (ALLOWED_HOSTS : list string) (URL_parse : string -> option url)
    (r : route) (q_url : option string) (o : result upstream)
    (w : pump_world) (n : nat) : list event :=
  (cors ++
   match r with
   | Ping => [Send "ok"]
   | Proxy => proxy ALLOWED_HOSTS URL_parse q_url o w n
   | Sse => sse ALLOWED_HOSTS URL_parse q_url o w n
   end)%list.

(** The headers a handler has set, oldest first. *)
Fixpoint headers_set (t : list event) : list (string * string) :=
  match t with
  | [] => []
  | SetHeader k v :: t' => (k, v) :: headers_set t'
  | _ :: t' => headers_set t'
  end.

(** The value a response carries for a header: names are not case
    sensitive, and the last [setHeader] of a name wins. *)
Fixpoint header_value (name : string) (hs : list (string * string)) : option string :=
  match hs with
  | [] => None
  | (k, v) :: hs' =>
      match header_value name hs' with
      | Some v' => Some v'
      | None => if String.eqb (Js.toLowerCase k) name then Some v else None
      end
  end.

(** A header that is not hop-by-hop. *)
Definition end_to_end (kv : string * string) : bool :=
  negb (has hopByHop (Js.toLowerCase (fst kv))).

End RelayApp.

Module RelayAppSpec.
Import Io Relay RelayApp IoSpec.

Lemma headers_set_app (a b : list event) :
  headers_set (a ++ b) = (headers_set a ++ headers_set b)%list.
Proof.
  induction a as [|e a IH]; [reflexivity|].
  destruct e; cbn [app headers_set]; now rewrite ?IH.
Qed.

Lemma header_value_app (name : string) (a b : list (string * string)) :
  header_value name (a ++ b)
  = match header_value name b with
    | Some v => Some v
    | None => header_value name a
    end.
Proof.
  induction a as [|[k v] a IH]; cbn [app header_value].
  - now destruct (header_value name b).
  - rewrite IH. now destruct (header_value name b).
Qed.

Lemma headers_set_forward (hs : list (string * string)) :
  headers_set (forward_headers hs) = filter end_to_end hs.
Proof.
  induction hs as [|[k v] hs IH]; [reflexivity|].
  cbn [forward_headers filter]. unfold end_to_end at 1. cbn [fst].
  destruct (negb (has hopByHop (Js.toLowerCase k))); cbn [headers_set]; now rewrite IH.
Qed.

Lemma headers_set_none (t : list event) :
  (forall k v, ~ In (SetHeader k v) t) -> headers_set t = [].
Proof.
  induction t as [|e t IH]; [reflexivity|].
  intros H. destruct e; cbn [headers_set];
    try (apply IH; intros k' v' Hin; exact (H k' v' (or_intror Hin))).
  exfalso. exact (H k v (or_introl eq_refl)).
Qed.

Lemma headers_set_pump (label : string) (w : pump_world) (n : nat) :
  headers_set (ptrace (pump_run label w n pump_init)) = [].
Proof.
  apply headers_set_none.
  apply (RelaySpec.inv_header w _
           (RelaySpec.pump_run_inv label w n _ (RelaySpec.pump_init_inv w))).
Qed.

Section Handlers.

Variable ALLOWED_HOSTS : list string.
Variable URL_parse : string -> option url.

Lemma proxy_tail_headers (remote : upstream) (w : pump_world) (n : nat) :
  headers_set (if negb (has_body remote)
               then match text remote with
                    | Ok t => [Send t]
                    | Throws e => bad_gateway "proxy" e
                    end
               else ptrace (pump_run "proxy" w n pump_init)) = [].
Proof.
  destruct (has_body remote); cbn [negb];
    [apply headers_set_pump | now destruct (text remote)].
Qed.

(** X11.  When [/proxy] has fetched the target, the headers it sets on the
    client response are the upstream headers that are not hop-by-hop, with
    their names and values as they came and in their order, followed by
    the permissive origin and [no-store]. *)
Theorem proxy_headers_exact (q_url : option string) (remote : upstream)
    (w : pump_world) (n : nat) :
  Js.falsy q_url = false ->
  isHostAllowed ALLOWED_HOSTS URL_parse (Js.to_string q_url) = true ->
  headers_set (proxy ALLOWED_HOSTS URL_parse q_url (Ok remote) w n)
  = (filter end_to_end (headers remote)
       ++ [("Access-Control-Allow-Origin", "*"); ("Cache-Control", "no-store")])%list.
Proof.
  intros Hq Hallowed. unfold proxy. rewrite Hq, Hallowed. cbn [negb headers_set].
  rewrite !headers_set_app, headers_set_forward, proxy_tail_headers.
  reflexivity.
Qed.

Lemma handler_origin (r : route) (q_url : option string) (o : result upstream)
    (w : pump_world) (n : nat) :
  let t := match r with
           | Ping => [Send "ok"]
           | Proxy => proxy ALLOWED_HOSTS URL_parse q_url o w n
           | Sse => sse ALLOWED_HOSTS URL_parse q_url o w n
           end in
  header_value "access-control-allow-origin" (headers_set t) = None \/
  header_value "access-control-allow-origin" (headers_set t) = Some "*".
Proof.
  destruct r; cbn zeta.
  - now left.
  - unfold proxy. destruct (Js.falsy q_url); [now left|].
    destruct (negb (isHostAllowed _ _ _)); [now left|].
    destruct o as [remote|e]; [|now left].
    right. cbn [headers_set].
    rewrite !headers_set_app, headers_set_forward, !header_value_app.
    assert (Htail : headers_set (if negb (has_body remote)
                                 then match text remote with
                                      | Ok t => [Send t]
                                      | Throws e => bad_gateway "proxy" e
                                      end
                                 else ptrace (pump_run "proxy" w n pump_init)) = []).
    { destruct (has_body remote); cbn [negb];
        [apply headers_set_pump | now destruct (text remote)]. }
    rewrite Htail. reflexivity.
  - unfold sse. destruct (Js.falsy q_url); [now left|].
    destruct (negb (isHostAllowed _ _ _)); [now left|].
    destruct o as [remote|e]; [|now left].
    destruct (negb (ok remote)).
    + destruct (text remote); [now right | now left].
    + right. cbn [headers_set].
      rewrite !headers_set_app, !header_value_app.
      assert (Htail : headers_set (if negb (has_body remote) then [End]
                                   else ptrace (pump_run "sse" w n pump_init)) = []).
      { destruct (has_body remote); cbn [negb];
          [apply headers_set_pump | reflexivity]. }
      rewrite Htail. reflexivity.
Qed.

(** X12.  Every response of the relay server, on every route and on every
    path through it (the 400, 403 and 502 answers included, and whatever
    the upstream sent as headers), carries
    [Access-Control-Allow-Origin: *]. *)
Theorem every_response_allows_any_origin (r : route) (q_url : option string)
    (o : result upstream) (w : pump_world) (n : nat) :
  header_value "access-control-allow-origin"
    (headers_set (dispatch ALLOWED_HOSTS URL_parse r q_url o w n)) = Some "*".
Proof.
  unfold dispatch. rewrite headers_set_app, header_value_app.
  destruct (handler_origin r q_url o w n) as [H | H]; cbn zeta in H; now rewrite H.
Qed.

(** X13.  A proxied response is never cacheable: once [/proxy] has fetched
    the target, the response carries [Cache-Control: no-store], whatever
    caching header the upstream sent. *)
Theorem proxied_response_not_cached (q_url : option string) (remote : upstream)
    (w : pump_world) (n : nat) :
  Js.falsy q_url = false ->
  isHostAllowed ALLOWED_HOSTS URL_parse (Js.to_string q_url) = true ->
  header_value "cache-control"
    (headers_set (dispatch ALLOWED_HOSTS URL_parse Proxy q_url (Ok remote) w n))
  = Some "no-store".
Proof.
  intros Hq Hallowed. unfold dispatch, proxy. rewrite Hq, Hallowed.
  cbn [negb]. rewrite headers_set_app. cbn [headers_set].
  rewrite !headers_set_app, proxy_tail_headers, !header_value_app.
  reflexivity.
Qed.

Lemma respond_forward (hs : list (string * string)) :
  Http.respond Http.Head (forward_headers hs) = Some Http.Head.
Proof.
  induction hs as [|[k v] hs IH]; [reflexivity|].
  cbn [forward_headers]. now destruct (negb _).
Qed.

Lemma respond_pump (label : string) (w : pump_world) (n : nat) :
  exists p,
    Http.respond Http.Head (ptrace (pump_run label w n pump_init)) = Some p /\
    (p = Http.Closed \/ running (pump_run label w n pump_init) = true).
Proof.
  destruct (PumpSpec.pump_run_flow label w n pump_init (PumpSpec.pump_init_flow w))
    as [_ _ _ (p & Hp & Hpe)].
  exists p. split; [exact Hp|].
  destruct (running (pump_run label w n pump_init)); [now right|].
  left. now apply Hpe.
Qed.

(** X14.  On every route and every path through it, the relay server
    touches the response in order: status and headers before the body,
    nothing written after the end, one end at most.  And the response is
    ended on every path, unless a pump is still moving the body. *)
Theorem relay_respects_response_order (r : route) (q_url : option string)
    (o : result upstream) (w : pump_world) (n : nat) :
  exists p,
    Http.respond Http.Head (dispatch ALLOWED_HOSTS URL_parse r q_url o w n) = Some p /\
    (p = Http.Closed \/
     exists label, running (pump_run label w n pump_init) = true).
Proof.
  assert (Hclosed : forall t,
             Http.respond Http.Head t = Some Http.Closed ->
             exists p, Http.respond Http.Head (cors ++ t) = Some p /\
                       (p = Http.Closed \/
                        exists label, running (pump_run label w n pump_init) = true)).
  { intros t Ht. exists Http.Closed. split; [|now left].
    rewrite Http.respond_app. exact Ht. }
  assert (Hpump : forall label pre,
             Http.respond Http.Head pre = Some Http.Head ->
             exists p, Http.respond Http.Head
                         (cors ++ pre ++ ptrace (pump_run label w n pump_init)) = Some p /\
                       (p = Http.Closed \/
                        exists label, running (pump_run label w n pump_init) = true)).
  { intros label pre Hpre.
    destruct (respond_pump label w n) as (p & Hp & Hrun).
    exists p. split.
    - rewrite Http.respond_app.
      change (Http.respond Http.Head cors) with (Some Http.Head). cbv beta iota.
      rewrite Http.respond_app, Hpre. exact Hp.
    - destruct Hrun as [H | H]; [now left | right; now exists label]. }
  unfold dispatch. destruct r.
  - now apply Hclosed.
  - unfold proxy. destruct (Js.falsy q_url); [now apply Hclosed|].
    destruct (negb (isHostAllowed _ _ _)); [now apply Hclosed|].
    destruct o as [remote|e]; [|now apply Hclosed].
    destruct (has_body remote); cbn [negb].
    + set (pre := (Fetch (Js.to_string q_url) :: Status (status remote)
                     :: forward_headers (headers remote)
                     ++ [SetHeader "Access-Control-Allow-Origin" "*";
                         SetHeader "Cache-Control" "no-store"])%list).
      replace (Fetch (Js.to_string q_url) :: Status (status remote)
                 :: forward_headers (headers remote)
                 ++ [SetHeader "Access-Control-Allow-Origin" "*";
                     SetHeader "Cache-Control" "no-store"]
                 ++ ptrace (pump_run "proxy" w n pump_init))%list
        with (pre ++ ptrace (pump_run "proxy" w n pump_init))%list
        by (subst pre; cbn [app]; now rewrite <- app_assoc).
      apply Hpump. subst pre.
      cbn [Http.respond Http.advance]. rewrite Http.respond_app, respond_forward.
      reflexivity.
    + apply Hclosed. cbn [Http.respond Http.advance].
      rewrite !Http.respond_app, respond_forward.
      now destruct (text remote).
  - unfold sse. destruct (Js.falsy q_url); [now apply Hclosed|].
    destruct (negb (isHostAllowed _ _ _)); [now apply Hclosed|].
    destruct o as [remote|e]; [|now apply Hclosed].
    destruct (negb (ok remote)).
    + apply Hclosed. now destruct (text remote).
    + destruct (has_body remote); cbn [negb].
      * rewrite app_comm_cons. apply Hpump. reflexivity.
      * now apply Hclosed.
Qed.

End Handlers.

(** An upstream that sets its own origin and caching headers. *)
Definition opinionated : upstream :=
  {| status := 200;
     headers := [("access-control-allow-origin", "https://only.example");
                 ("cache-control", "max-age=3600"); ("keep-alive", "timeout=5");
                 ("content-type", "application/json")];
     has_body := false;
     text := Ok "[1,2,3]" |}.

Lemma proxy_headers_exact_witness :
  headers_set (proxy [] Node.URL_parse (Some "http://rs.local/data") (Ok opinionated)
                 RelaySpec.ticking 0)
  = [("access-control-allow-origin", "https://only.example");
     ("cache-control", "max-age=3600"); ("content-type", "application/json");
     ("Access-Control-Allow-Origin", "*"); ("Cache-Control", "no-store")].
Proof.
  apply (proxy_headers_exact [] Node.URL_parse (Some "http://rs.local/data")
           opinionated RelaySpec.ticking 0%nat eq_refl eq_refl).
Defined.

Lemma proxied_response_not_cached_witness :
  header_value "cache-control"
    (headers_set (dispatch [] Node.URL_parse Proxy (Some "http://rs.local/data")
                    (Ok opinionated) RelaySpec.ticking 0))
  = Some "no-store".
Proof.
  apply (proxied_response_not_cached [] Node.URL_parse (Some "http://rs.local/data")
           opinionated RelaySpec.ticking 0%nat eq_refl eq_refl).
Defined.

End RelayAppSpec.

(** * The allowlist read from the environment *)

Module Config.

(** [s.split(sep)] for a separator of one character. *)
Fixpoint split (sep : ascii) (s : string) : list string :=
  match s with
  | EmptyString => [EmptyString]
  | String c s' =>
      if Ascii.eqb c sep then EmptyString :: split sep s'
      else
        match split sep s' with
        | [] => [String c EmptyString]
        | piece :: pieces => String c piece :: pieces
        end
  end.

(** The whole of [s] is white space. *)
Definition all_space (s : string) : bool :=
  match Js.skip_space s with
  | EmptyString => true
  | String _ _ => false
  end.

(** [s.trimEnd()]: the text is cut where only white space follows.
    [s.trim()] also drops the white space at the head. *)
Fixpoint trim_end (s : string) : string :=
  match s with
  | EmptyString => EmptyString
  | String c s' => if all_space s then EmptyString else String c (trim_end s')
  end.

Definition trim (s : string) : string := trim_end (Js.skip_space s).

(** [Boolean(s)]: a string is truthy unless empty. *)
Definition truthy (s : string) : bool :=
  match s with
  | EmptyString => false
  | String _ _ => true
  end.

(** [process.env.ALLOWED_HOSTS
       ? process.env.ALLOWED_HOSTS.split(',').map(s => s.trim()).filter(Boolean)
       : []] *)
Definition ALLOWED_HOSTS (env : option string) : list string :=
  if Js.falsy env then []
  else filter truthy (map trim (split "," (Js.to_string env))).

End Config.

Module ConfigSpec.
Import Config.

Definition is_comma (c : ascii) : bool := Ascii.eqb c ",".

(** A host name as the allowlist keeps it: not empty, no white space at
    either end, no comma. *)
Definition clean (h : string) : Prop :=
  h <> "" /\ trim h = h /\ ExtractorSpec.any_char is_comma h = false.

Lemma split_nonempty (sep : ascii) (s : string) : split sep s <> [].
Proof.
  destruct s as [|c s]; cbn [split]; [discriminate|].
  destruct (Ascii.eqb c sep); [discriminate|].
  destruct (split sep s); discriminate.
Qed.

Lemma split_pieces (s : string) :
  Forall (fun piece => ExtractorSpec.any_char is_comma piece = false) (split "," s).
Proof.
  induction s as [|c s IH]; cbn [split].
  - repeat constructor.
  - destruct (Ascii.eqb c ",") eqn:Hc.
    + constructor; [reflexivity | exact IH].
    + destruct (split "," s) as [|piece pieces]; [repeat constructor; cbn; unfold is_comma; now rewrite Hc|].
      inversion IH as [|? ? Hp Hps]; subst.
      constructor; [|exact Hps].
      cbn [ExtractorSpec.any_char]. unfold is_comma at 1. now rewrite Hc.
Qed.

Lemma drop_ws_chars (p : ascii -> bool) (s : string) (k : nat) :
  ExtractorSpec.any_char p s = false ->
  ExtractorSpec.any_char p (Js.drop_ws k s) = false.
Proof.
  revert k. induction s as [|c s IH]; intros k H; [exact H|].
  pose proof H as Hs. cbn [ExtractorSpec.any_char] in Hs.
  apply orb_false_elim in Hs as [_ Hs].
  cbn [Js.drop_ws]. destruct k as [|k]; [|now apply IH].
  destruct (Js.ws_len (String c s)); [exact H | now apply IH].
Qed.

Lemma skip_space_chars (p : ascii -> bool) (s : string) :
  ExtractorSpec.any_char p s = false ->
  ExtractorSpec.any_char p (Js.skip_space s) = false.
Proof. apply drop_ws_chars. Qed.

Lemma trim_end_chars (p : ascii -> bool) (s : string) :
  ExtractorSpec.any_char p s = false ->
  ExtractorSpec.any_char p (trim_end s) = false.
Proof.
  induction s as [|c s IH]; [auto|].
  cbn [trim_end]. destruct (all_space (String c s)); [reflexivity|].
  cbn [ExtractorSpec.any_char]. intros H.
  apply orb_false_elim in H as [Hc Hs]. now rewrite Hc, (IH Hs).
Qed.

(** What is left after the leading white space starts with none. *)
Lemma drop_ws_stable (s : string) (k : nat) : Js.ws_len (Js.drop_ws k s) = 0%nat.
Proof.
  revert k. induction s as [|c s IH]; intros k; [reflexivity|].
  cbn [Js.drop_ws]. destruct k as [|k]; [|apply IH].
  destruct (Js.ws_len (String c s)) eqn:E; [exact E | apply IH].
Qed.

Lemma skip_space_id (s : string) : Js.ws_len s = 0%nat -> Js.skip_space s = s.
Proof.
  intros H. unfold Js.skip_space. destruct s as [|c s]; [reflexivity|].
  cbn [Js.drop_ws]. now rewrite H.
Qed.

(** A white-space character is the bytes it is made of: what follows them
    does not matter, and they are all there. *)
Lemma ws_len_length (s : string) : (Js.ws_len s <= String.length s)%nat.
Proof.
  destruct s as [|c1 [|c2 [|c3 s]]]; cbn [Js.ws_len String.length];
    repeat match goal with |- context [if ?b then _ else _] => destruct b end; lia.
Qed.

Lemma ws_len_app (a b : string) (k : nat) :
  Js.ws_len a = S k -> Js.ws_len (a ++ b) = S k.
Proof.
  destruct a as [|c1 [|c2 [|c3 a]]]; cbn [Js.ws_len append];
    repeat match goal with |- context [if ?b then _ else _] => destruct b end;
    congruence.
Qed.

Lemma ws_len_prefix (a b : string) :
  Js.ws_len (a ++ b) = 0%nat -> Js.ws_len a = 0%nat.
Proof.
  destruct (Js.ws_len a) as [|k] eqn:E; [reflexivity|].
  rewrite (ws_len_app a b k E). discriminate.
Qed.

Lemma drop_ws_app (a b : string) (k : nat) :
  (k <= String.length a)%nat -> Js.drop_ws k a = "" ->
  Js.drop_ws k (a ++ b) = Js.skip_space b.
Proof.
  revert k. induction a as [|c a IH]; intros k Hk H.
  - cbn [String.length] in Hk. now replace k with 0%nat by lia.
  - cbn [String.length] in Hk. cbn [append Js.drop_ws] in H |- *.
    destruct k as [|k]; [|apply IH; [lia | exact H]].
    change (String c (a ++ b)) with (String c a ++ b).
    pose proof (ws_len_length (String c a)) as Hlen. cbn [String.length] in Hlen.
    destruct (Js.ws_len (String c a)) as [|j] eqn:E; [discriminate|].
    rewrite (ws_len_app (String c a) b j E). apply IH; [lia | exact H].
Qed.

Lemma all_space_app (a b : string) :
  all_space a = true -> all_space b = true -> all_space (a ++ b) = true.
Proof.
  unfold all_space, Js.skip_space. intros Ha Hb.
  rewrite (drop_ws_app a b 0); [exact Hb | lia |].
  now destruct (Js.drop_ws 0 a).
Qed.

(** What [trimEnd] cuts off is white space. *)
Lemma trim_end_split (s : string) :
  exists rest, s = trim_end s ++ rest /\ all_space rest = true.
Proof.
  induction s as [|c s (rest & Hs & Hrest)]; [now exists ""|].
  cbn [trim_end]. destruct (all_space (String c s)) eqn:E.
  - now exists (String c s).
  - exists rest. split; [|exact Hrest]. cbn [append]. now rewrite <- Hs.
Qed.

Lemma trim_end_idem (s : string) : trim_end (trim_end s) = trim_end s.
Proof.
  induction s as [|c s IH]; [reflexivity|].
  cbn [trim_end]. destruct (all_space (String c s)) eqn:E; [reflexivity|].
  cbn [trim_end]. rewrite IH.
  destruct (all_space (String c (trim_end s))) eqn:E'; [|reflexivity].
  destruct (trim_end_split s) as (rest & Hs & Hrest).
  pose proof (all_space_app _ _ E' Hrest) as H.
  cbn [append] in H. rewrite <- Hs in H. congruence.
Qed.

Lemma trim_end_unpadded (s : string) :
  Js.ws_len s = 0%nat -> Js.ws_len (trim_end s) = 0%nat.
Proof.
  intros H. destruct (trim_end_split s) as (rest & Hs & _).
  rewrite Hs in H. now apply ws_len_prefix in H.
Qed.

Lemma trim_idem (s : string) : trim (trim s) = trim s.
Proof.
  unfold trim.
  rewrite (skip_space_id (trim_end (Js.skip_space s)))
    by apply trim_end_unpadded, drop_ws_stable.
  apply trim_end_idem.
Qed.

(** X15.  Whatever the environment variable holds, every entry of the
    allowlist is a non-empty host name without white space around it and
    without a comma; an unset or empty variable gives the empty list. *)
Theorem allowlist_entries_clean (env : option string) :
  Forall clean (ALLOWED_HOSTS env) /\
  (Js.falsy env = true -> ALLOWED_HOSTS env = []).
Proof.
  split; [|unfold ALLOWED_HOSTS; now intros ->].
  unfold ALLOWED_HOSTS. destruct (Js.falsy env); [constructor|].
  apply Forall_forall. intros h Hin.
  apply filter_In in Hin as [Hin Hne].
  apply in_map_iff in Hin as (piece & <- & Hpiece).
  pose proof (split_pieces (Js.to_string env)) as Hall.
  rewrite Forall_forall in Hall. specialize (Hall piece Hpiece).
  repeat split.
  - intros H. rewrite H in Hne. discriminate.
  - apply trim_idem.
  - unfold trim. now apply trim_end_chars, skip_space_chars.
Qed.

Lemma split_clean (h : string) :
  ExtractorSpec.any_char is_comma h = false -> split "," h = [h].
Proof.
  induction h as [|c h IH]; [reflexivity|].
  cbn [ExtractorSpec.any_char split]. intros H.
  apply orb_false_elim in H as [Hc Hh]. unfold is_comma in Hc.
  now rewrite Hc, (IH Hh).
Qed.

Lemma split_app_comma (h rest : string) :
  ExtractorSpec.any_char is_comma h = false ->
  split "," (h ++ String "," rest) = h :: split "," rest.
Proof.
  induction h as [|c h IH]; [reflexivity|].
  cbn [ExtractorSpec.any_char split append]. intros H.
  apply orb_false_elim in H as [Hc Hh]. unfold is_comma in Hc.
  now rewrite Hc, (IH Hh).
Qed.

Lemma split_join (hosts : list string) :
  hosts <> [] ->
  Forall (fun h => ExtractorSpec.any_char is_comma h = false) hosts ->
  split "," (Node.join "," hosts) = hosts.
Proof.
  induction hosts as [|h hosts IH]; [contradiction|].
  intros _ Hall. inversion Hall as [|? ? Hh Hrest]; subst.
  destruct hosts as [|h2 hosts].
  - cbn [Node.join]. now apply split_clean.
  - change (Node.join "," (h :: h2 :: hosts))
      with (h ++ String "," (Node.join "," (h2 :: hosts))).
    rewrite (split_app_comma h _ Hh), IH; [reflexivity | discriminate | exact Hrest].
Qed.

Lemma join_truthy (hosts : list string) :
  hosts <> [] -> Forall clean hosts -> truthy (Node.join "," hosts) = true.
Proof.
  destruct hosts as [|h hosts]; [contradiction|].
  intros _ Hall. inversion Hall as [|? ? (Hne & _) _]; subst.
  destruct h; [contradiction|]. now destruct hosts.
Qed.

Lemma clean_kept (hosts : list string) :
  Forall clean hosts -> filter truthy (map trim hosts) = hosts.
Proof.
  induction 1 as [|x xs (Hne & Htrim & _) _ IH]; [reflexivity|].
  cbn [map filter]. rewrite Htrim.
  destruct x; [contradiction|]. cbn [truthy]. now rewrite IH.
Qed.

(** X16.  Writing a list of clean host names with commas between them
    into the variable gives back that list, in order. *)
Theorem allowlist_round_trip (hosts : list string) :
  Forall clean hosts ->
  ALLOWED_HOSTS (Some (Node.join "," hosts)) = hosts.
Proof.
  intros Hall. destruct hosts as [|h hosts]; [reflexivity|].
  unfold ALLOWED_HOSTS.
  pose proof (join_truthy (h :: hosts) ltac:(discriminate) Hall) as Ht.
  assert (Hf : Js.falsy (Some (Node.join "," (h :: hosts))) = false).
  { cbn [Js.falsy]. now destruct (Node.join "," (h :: hosts)). }
  rewrite Hf. cbn [Js.to_string].
  rewrite split_join; [|discriminate|].
  - now apply clean_kept.
  - eapply Forall_impl; [|exact Hall]. now intros x (_ & _ & Hx).
Qed.





Lemma allowlist_entries_clean_witness :
  ALLOWED_HOSTS (Some " rs.local ,, node.example.com ") = ["rs.local"; "node.example.com"]
  /\ Forall clean (ALLOWED_HOSTS (Some " rs.local ,, node.example.com ")).
Proof.
  split; [reflexivity|].
  apply (proj1 (allowlist_entries_clean (Some " rs.local ,, node.example.com "))).
Defined.

Lemma allowlist_round_trip_witness :
  ALLOWED_HOSTS (Some "rs.local,node.example.com") = ["rs.local"; "node.example.com"].
Proof.
  apply (allowlist_round_trip ["rs.local"; "node.example.com"]).
  repeat constructor; discriminate.
Defined.


End ConfigSpec.

(** * [index.html]: the spoken words placed on the marker *)

Module Words.

(** An [a-entity] with the attributes the page sets on it. *)
Record entity : Type := {
  text : string;
  position : string;
  rotation : string;
  scale : string
}.

(** The page: the set [addedWords] in insertion order, and the children
    of the marker. *)
Record page : Type := {
  addedWords : list string;
  children : list entity
}.

Definition empty_page : page := {| addedWords := []; children := [] |}.

(** [set.has(k)] *)
Definition has (set : list string) (k : string) : bool :=
  existsb (String.eqb k) set.

(** The [text] attribute for a word. *)
Definition text_of (word : string) : string :=
  "value: " ++ word ++ "; color: #FF3C3C; align: center; anchor: center; width: 2;".

(** [s.split(/\s+/)]: [in_gap] tells that the characters just before were
    white space, [skip] counts the bytes still to pass of a white-space
    character of several bytes. *)
Fixpoint split_ws (in_gap : bool) (skip : nat) (s : string) : list string :=
  match s with
  | EmptyString => [EmptyString]
  | String c s' =>
      match skip with
      | S k => split_ws in_gap k s'
      | O =>
          match Js.ws_len s with
          | S k =>
              if in_gap then split_ws true k s'
              else EmptyString :: split_ws true k s'
          | O =>
              match split_ws false 0 s' with
              | [] => [String c EmptyString]
              | piece :: pieces => String c piece :: pieces
              end
          end
      end
  end.

(** A recognition event: the index of the first new result and the
    transcript of the first alternative of each result. *)
Record recognition : Type := {
  resultIndex : nat;
  results : list string
}.

(** The [for] loop that builds [transcript]. *)
Definition transcript_of (e : recognition) : string :=
  fold_left append (skipn (resultIndex e) (results e)) EmptyString.

(** The words handed to [addWord]. *)
Definition words_of (e : recognition) : list string :=
  split_ws false 0 (Config.trim (transcript_of e)).

Section WithPlatform.

(** [s.toLowerCase()], with the case mapping of the platform. *)
Variable toLowerCase : string -> string.

(** [getRandomPosition()] draws from the random source; here it is given
    by the number of entities placed before. *)
Variable getRandomPosition : nat -> string.

(** [addWord(word)] *)
Definition addWord (word : string) (p : page) : page :=
  if negb (Config.truthy word) || has (addedWords p) (toLowerCase word) then p
  else
    {| addedWords := addedWords p ++ [toLowerCase word];
       children :=
         children p ++
         [{| text := text_of word;
             position := getRandomPosition (List.length (children p));
             rotation := "-90 0 0";
             scale := "2 2 2" |}] |}.

(** [recognition.onresult] *)
Definition onresult (e : recognition) (p : page) : page :=
  fold_left (fun q word => addWord word q) (words_of e) p.

(** The page after a sequence of recognition events. *)
Definition listen (es : list recognition) : page :=
  fold_left (fun q e => onresult e q) es empty_page.

End WithPlatform.

End Words.

Module WordsSpec.
Import Words.

Section Page.

Variable toLowerCase : string -> string.
Variable getRandomPosition : nat -> string.

Local Abbreviation add := (addWord toLowerCase getRandomPosition).
Local Abbreviation heard := (onresult toLowerCase getRandomPosition).

(** What holds of the page whatever has been said. *)
Definition page_inv (p : page) : Prop :=
  NoDup (addedWords p) /\
  exists shown,
    map text (children p) = map text_of shown /\
    map toLowerCase shown = addedWords p /\
    Forall (fun word => word <> "") shown.

Lemma set_has_In (set : list string) (k : string) : has set k = true <-> In k set.
Proof.
  unfold has. rewrite existsb_exists. split.
  - intros (x & Hin & Heq). apply String.eqb_eq in Heq. now subst.
  - intros Hin. exists k. split; [exact Hin | apply String.eqb_refl].
Qed.

Lemma addWord_inv (word : string) (p : page) : page_inv p -> page_inv (add word p).
Proof.
  intros (Hnd & shown & Ht & Hl & Hne). unfold addWord.
  destruct (Config.truthy word) eqn:Hw; cbn [negb orb].
  2:{ split; [exact Hnd | now exists shown]. }
  destruct (has (addedWords p) (toLowerCase word)) eqn:Hhas.
  { split; [exact Hnd | now exists shown]. }
  split; cbn [addedWords children].
  - apply NoDup_app; [exact Hnd | repeat constructor; intros [] | ].
    intros x Hx [<- | []]. apply set_has_In in Hx. congruence.
  - exists (shown ++ [word])%list. rewrite !map_app, Ht, Hl. repeat split.
    apply Forall_app. split; [exact Hne|].
    repeat constructor. intros ->. discriminate.
Qed.

Lemma fold_inv (ws : list string) (p : page) :
  page_inv p -> page_inv (fold_left (fun q word => add word q) ws p).
Proof.
  revert p. induction ws as [|x ws IH]; intros p Hp; [exact Hp|].
  cbn [fold_left]. apply IH, addWord_inv, Hp.
Qed.

(** X18.  Whatever has been recognised, in whatever pieces, and whatever
    the case mapping of the platform: no two entities on the marker show
    words with the same lower-case form; the set of added words is exactly
    the lower-case forms of the words on the marker, in the order they were
    placed; and no entity shows an empty word. *)
Theorem words_shown_once (es : list recognition) :
  let p := listen toLowerCase getRandomPosition es in
  NoDup (addedWords p) /\
  exists shown,
    map text (children p) = map text_of shown /\
    map toLowerCase shown = addedWords p /\
    Forall (fun word => word <> "") shown.
Proof.
  unfold listen.
  assert (H : forall p, page_inv p ->
                        page_inv (fold_left (fun q e => heard e q) es p)).
  { induction es as [|e es' IH]; intros p Hp; [exact Hp|].
    cbn [fold_left]. apply IH. unfold onresult. now apply fold_inv. }
  apply H. split; [constructor|]. exists []. repeat split; constructor.
Qed.

Lemma addWord_keeps (word k : string) (p : page) :
  In k (addedWords p) -> In k (addedWords (add word p)).
Proof.
  intros H. unfold addWord.
  destruct (negb (Config.truthy word) || has (addedWords p) (toLowerCase word));
    [exact H|].
  cbn [addedWords]. apply in_or_app. now left.
Qed.

Lemma fold_keeps (ws : list string) (k : string) (p : page) :
  In k (addedWords p) ->
  In k (addedWords (fold_left (fun q word => add word q) ws p)).
Proof.
  revert p. induction ws as [|x ws IH]; intros p H; [exact H|].
  cbn [fold_left]. apply IH, addWord_keeps, H.
Qed.

Lemma addWord_adds (word : string) (p : page) :
  word <> "" -> In (toLowerCase word) (addedWords (add word p)).
Proof.
  intros Hne. unfold addWord.
  destruct word as [|c word]; [contradiction|]. cbn [Config.truthy negb orb].
  destruct (has (addedWords p) (toLowerCase (String c word))) eqn:Hhas.
  - now apply set_has_In.
  - cbn [addedWords]. apply in_or_app. right. now left.
Qed.

Lemma fold_adds (ws : list string) (word : string) (p : page) :
  In word ws -> word <> "" ->
  In (toLowerCase word) (addedWords (fold_left (fun q x => add x q) ws p)).
Proof.
  revert p. induction ws as [|x ws IH]; intros p Hin Hne; [destruct Hin|].
  cbn [fold_left]. destruct Hin as [-> | Hin].
  - apply fold_keeps, addWord_adds, Hne.
  - now apply IH.
Qed.

Lemma fold_noop (ws : list string) (p : page) :
  (forall word, In word ws -> word <> "" -> In (toLowerCase word) (addedWords p)) ->
  fold_left (fun q x => add x q) ws p = p.
Proof.
  induction ws as [|x ws IH]; intros H; [reflexivity|].
  cbn [fold_left].
  assert (Hx : add x p = p).
  { unfold addWord. destruct x as [|c x]; [reflexivity|]. cbn [Config.truthy negb orb].
    rewrite (proj2 (set_has_In _ _)); [reflexivity|].
    apply H; [now left | discriminate]. }
  rewrite Hx. apply IH. intros word Hin. apply H. now right.
Qed.

(** X19.  After a recognition event every non-empty word of its
    transcript is in the set of added words, in lower case, and words
    added before stay; hearing the same event again changes nothing. *)
Theorem heard_words_are_added (e : recognition) (p : page) :
  (forall word, In word (words_of e) -> word <> "" ->
                In (toLowerCase word) (addedWords (heard e p)))
  /\
  (forall k, In k (addedWords p) -> In k (addedWords (heard e p)))
  /\
  heard e (heard e p)
  = heard e p.
Proof.
  split; [|split].
  - intros word Hin Hne. unfold onresult. now apply fold_adds.
  - intros k Hk. unfold onresult. now apply fold_keeps.
  - unfold onresult at 1. apply fold_noop.
    intros word Hin Hne. unfold onresult. now apply fold_adds.
Qed.

End Page.

(** Two results heard, the second repeating a word of the first in
    capitals, with the case mapping on the letters A to Z. *)
Definition hello_twice : recognition :=
  {| resultIndex := 0; results := ["hello world "; " HELLO again"] |}.

Lemma heard_words_are_added_witness :
  addedWords (onresult Js.toLowerCase (fun _ => "0.00 1.20 0.00") hello_twice empty_page)
  = ["hello"; "world"; "again"] /\
  In "again"
     (addedWords (onresult Js.toLowerCase (fun _ => "0.00 1.20 0.00") hello_twice
                    empty_page)).
Proof.
  split; [reflexivity|].
  apply (proj1 (heard_words_are_added Js.toLowerCase (fun _ => "0.00 1.20 0.00")
                  hello_twice empty_page)
           "again"); [|discriminate].
  cbn. right. right. right. left. reflexivity.
Defined.

End WordsSpec.

(** * The status and content type the relay answers with *)

Module RelayStatusSpec.
Import Io Relay RelayApp.

(** The status a response goes out with: the last one set. *)
Fixpoint final_status (t : list event) : option Z :=
  match t with
  | [] => None
  | e :: t' =>
      match final_status t' with
      | Some c => Some c
      | None =>
          match e with
          | Status c | WriteHead c _ => Some c
          | _ => None
          end
      end
  end.

Lemma final_status_app (a b : list event) :
  final_status (a ++ b)
  = match final_status b with
    | Some c => Some c
    | None => final_status a
    end.
Proof.
  induction a as [|e a IH]; cbn [app final_status].
  - now destruct (final_status b).
  - rewrite IH. now destruct (final_status b).
Qed.

(** The events of a pump. *)
Definition pump_event (e : event) : bool :=
  match e with
  | Write _ | End | Log _ | Cancel => true
  | _ => false
  end.

Lemma pump_step_events (label : string) (w : pump_world) (s : pump_state) :
  forallb pump_event (ptrace s) = true ->
  forallb pump_event (ptrace (pump_step label w s)) = true.
Proof.
  intros H. unfold pump_step, resume, settle.
  destruct (closes w (turn s));
    cbn [running next_turn on_close cancelled reads writableEnded];
    destruct (running s); cbn [ptrace next_turn on_close];
    rewrite ?forallb_app, ?H; try reflexivity.
  - cbn [finish ptrace next_turn on_close]. now rewrite !forallb_app, H.
  - destruct (cancelled s); [cbn; now rewrite !forallb_app, H|].
    destruct (read_result w (reads s)); [destruct (negb (writableEnded s))| |];
      cbn; now rewrite !forallb_app, ?H.
Qed.

Lemma pump_run_events (label : string) (w : pump_world) (n : nat) (s : pump_state) :
  forallb pump_event (ptrace s) = true ->
  forallb pump_event (ptrace (pump_run label w n s)) = true.
Proof.
  revert s. induction n as [|n IH]; intros s H; cbn [pump_run]; auto.
  apply IH, pump_step_events, H.
Qed.

Lemma pump_events_status (t : list event) :
  forallb pump_event t = true -> final_status t = None.
Proof.
  induction t as [|e t IH]; [reflexivity|].
  cbn [forallb final_status]. intros H. apply andb_prop in H as [He Ht].
  rewrite (IH Ht). now destruct e.
Qed.

Lemma pump_status (label : string) (w : pump_world) (n : nat) :
  final_status (ptrace (pump_run label w n pump_init)) = None.
Proof. apply pump_events_status, pump_run_events. reflexivity. Qed.

Lemma forward_status (hs : list (string * string)) :
  final_status (forward_headers hs) = None.
Proof.
  induction hs as [|[k v] hs IH]; [reflexivity|].
  cbn [forward_headers]. destruct (negb _); cbn [final_status]; now rewrite IH.
Qed.

Section Handlers.

Variable ALLOWED_HOSTS : list string.
Variable URL_parse : string -> option url.

(** X20.  The status [/proxy] answers with, on every path: 400 without a
    [url], 403 for a denied host, 502 when the fetch fails or when the text
    of a body-less upstream answer cannot be read, and the upstream status
    otherwise. *)
Theorem proxy_status (q_url : option string) (o : result upstream)
    (w : pump_world) (n : nat) :
  final_status (proxy ALLOWED_HOSTS URL_parse q_url o w n)
  = Some
      (if Js.falsy q_url then 400
       else if negb (isHostAllowed ALLOWED_HOSTS URL_parse (Js.to_string q_url)) then 403
       else
         match o with
         | Throws _ => 502
         | Ok remote =>
             if has_body remote then status remote
             else
               match text remote with
               | Ok _ => status remote
               | Throws _ => 502
               end
         end).
Proof.
  unfold proxy. destruct (Js.falsy q_url); [reflexivity|].
  destruct (negb (isHostAllowed _ _ _)); [reflexivity|].
  destruct o as [remote|e]; [|reflexivity].
  match goal with
  | |- final_status (Fetch ?u :: Status ?c :: ?t) = _ =>
      change (Fetch u :: Status c :: t) with ([Fetch u; Status c] ++ t)%list
  end.
  rewrite !final_status_app, forward_status.
  destruct (has_body remote); cbn [negb].
  - now rewrite pump_status.
  - now destruct (text remote).
Qed.

(** X21.  The relay's [/sse] announces an event stream exactly when the
    request passed the checks, the fetch succeeded and the upstream
    answered with a success status; on every other path no content type is
    set by the handler. *)
Theorem sse_content_type (q_url : option string) (o : result upstream)
    (w : pump_world) (n : nat) :
  header_value "content-type" (headers_set (sse ALLOWED_HOSTS URL_parse q_url o w n))
  = if Js.falsy q_url then None
    else if negb (isHostAllowed ALLOWED_HOSTS URL_parse (Js.to_string q_url)) then None
    else
      match o with
      | Throws _ => None
      | Ok remote =>
          if ok remote then Some "text/event-stream; charset=utf-8" else None
      end.
Proof.
  unfold sse. destruct (Js.falsy q_url); [reflexivity|].
  destruct (negb (isHostAllowed _ _ _)); [reflexivity|].
  destruct o as [remote|e]; [|reflexivity].
  destruct (ok remote); cbn [negb].
  - cbn [headers_set]. rewrite RelayAppSpec.headers_set_app.
    assert (Htail : headers_set (if negb (has_body remote) then [End]
                                 else ptrace (pump_run "sse" w n pump_init)) = []).
    { destruct (has_body remote); cbn [negb];
        [apply RelayAppSpec.headers_set_pump | reflexivity]. }
    rewrite Htail. reflexivity.
  - now destruct (text remote).
Qed.

End Handlers.

End RelayStatusSpec.
